(** * dask_groupby: chunked group-by reductions

    A shallow embedding of [dask_groupby/core.py] and the properties its
    specification states about it.

    Conventions of the embedding.
    - Python integers are [Z]; positions produced by [enumerate] are [Z] too.
    - A 1-D numpy array is a list; an N-D array is a shape and its row-major
      flat data.
    - A function that can raise returns [result]: [Ok v] or [Err e] with the
      exception the Python code raises.
    - numpy, pandas and numpy_groupies primitives are written out as list
      functions with the behaviour their documentation gives. *)

From Stdlib Require Import ZArith QArith Qcanon Lia String Ascii.
From stdpp Require Import base tactics option list sets numbers sorting strings.

Open Scope Z_scope.

(** ** Exceptions and the error monad *)

Inductive exn : Type :=
  | ValueError (msg : string)
  | NotImplementedError (msg : string)
  | IndexError
  | KeyError
  | NameError
  | TypeError
  | AttributeError
  | AssertionError.

Inductive result (A : Type) : Type :=
  | Ok (a : A)
  | Err (e : exn).
Arguments Ok {A} a.
Arguments Err {A} e.

#[global] Instance result_bind : MBind result := λ A B k r,
  match r with
  | Ok a => k a
  | Err e => Err e
  end.
#[global] Instance result_ret : MRet result := λ A a, Ok a.

Definition is_ok {A} (r : result A) : bool :=
  match r with Ok _ => true | Err _ => false end.

(** [mapM f l]: apply a fallible function to every element, left to right. *)
Fixpoint mapM {A B} (f : A → result B) (l : list A) : result (list B) :=
  match l with
  | [] => Ok []
  | x :: l' => y ← f x; ys ← mapM f l'; Ok (y :: ys)
  end.

(** ** Python and numpy primitives on integer lists *)

(** [sum(l)] *)
Definition sumZ (l : list Z) : Z := foldr Z.add 0 l.

(** [np.cumsum(l)] *)
Fixpoint cumsum_from (acc : Z) (l : list Z) : list Z :=
  match l with
  | [] => []
  | x :: l' => (acc + x) :: cumsum_from (acc + x) l'
  end.
Definition np_cumsum (l : list Z) : list Z := cumsum_from 0 l.

(** [np.diff(l)] *)
Fixpoint np_diff (l : list Z) : list Z :=
  match l with
  | x :: ((y :: _) as l') => (y - x) :: np_diff l'
  | _ => []
  end.

(** [np.arange(n)] *)
Definition np_arange (n : Z) : list Z := Z.of_nat <$> seq 0 (Z.to_nat n).

(** [l[i]] with Python's negative indexing; [IndexError] out of range. *)
Definition py_index {A} (l : list A) (i : Z) : result A :=
  let n := Z.of_nat (length l) in
  let j := if i <? 0 then i + n else i in
  if (j <? 0) || (n <=? j) then Err IndexError
  else match l !! Z.to_nat j with
       | Some x => Ok x
       | None => Err IndexError
       end.

(** [a[idx]] for an integer index array [idx] (numpy fancy indexing). *)
Definition np_take {A} (a : list A) (idx : list Z) : result (list A) :=
  mapM (py_index a) idx.

(** [x in l] for integers. *)
Definition inZ (x : Z) (l : list Z) : bool := existsb (Z.eqb x) l.

(** [l[-1]] of a list known to be non-empty; [d] is never used then. *)
Definition last_or (d : Z) (l : list Z) : Z := List.last l d.

(** [np.unique] of an integer array: ascending, without repetitions. *)
Fixpoint dedup_sortedZ (l : list Z) : list Z :=
  match l with
  | x :: ((y :: _) as l') =>
      if x =? y then dedup_sortedZ l' else x :: dedup_sortedZ l'
  | _ => l
  end.
Definition np_uniqueZ (l : list Z) : list Z :=
  dedup_sortedZ (merge_sort Z.le l).

(** [np.median(l).astype(int)] for an integer array.  The median of the empty
    array is NaN, which the cast sends to the smallest 64-bit integer. *)
Definition np_median_int (l : list Z) : Z :=
  let s := merge_sort Z.le l in
  let n := length s in
  if Nat.eqb n 0 then - 2 ^ 63
  else if Nat.even n
       then Z.quot (nth (Nat.div n 2 - 1)%nat s 0 + nth (Nat.div n 2) s 0) 2
       else nth (Nat.div n 2) s 0.

(** ** Array cells

    A cell of a label array is a number, a string or NaN (the missing marker).
    Numbers are exact rationals: the integers and decimal fractions the
    grouping arrays hold. *)

Inductive scalar : Type :=
  | Num (q : Qc)
  | Str (s : string)
  | NaN.

#[global] Instance scalar_eq_dec : EqDecision scalar.
Proof. solve_decision. Defined.

Definition num (n : Z) : scalar := Num (Q2Qc (inject_Z n)).

(** [pd.isnull] / [np.isnan] on a label. *)
Definition isnull (x : scalar) : bool :=
  match x with NaN => true | _ => false end.

(** numpy's elementwise [==]: NaN equals nothing, itself included. *)
Definition np_eq (x y : scalar) : bool :=
  match x, y with
  | Num a, Num b => bool_decide (a = b)
  | Str a, Str b => bool_decide (a = b)
  | _, _ => false
  end.

(** The order numpy sorts by: numbers by value, strings by code point, NaN
    last.  (numpy arrays hold one kind; numbers before strings makes the
    order total on the model's cells.) *)
Definition scalar_leb (x y : scalar) : bool :=
  match x, y with
  | Num a, Num b => bool_decide (a ≤ b)%Qc
  | Num _, _ => true
  | Str _, Num _ => false
  | Str a, Str b => String.leb a b
  | Str _, NaN => true
  | NaN, NaN => true
  | NaN, _ => false
  end.
Definition scalar_le (x y : scalar) : Prop := scalar_leb x y.

#[global] Instance scalar_le_dec : RelDecision scalar_le.
Proof. intros x y. unfold scalar_le. apply _. Defined.

(** [x in arr] for an ndarray, and [np.isin(arr, test)]. *)
Definition np_contains (arr : list scalar) (x : scalar) : bool :=
  existsb (np_eq x) arr.
Definition np_isin (arr test : list scalar) : list bool :=
  (np_contains test) <$> arr.

(** [np.unique]: ascending, one copy of each value, one NaN at the end. *)
Fixpoint dedup_sorted (l : list scalar) : list scalar :=
  match l with
  | x :: ((y :: _) as l') =>
      if decide (x = y) then dedup_sorted l' else x :: dedup_sorted l'
  | _ => l
  end.
Definition np_unique (l : list scalar) : list scalar :=
  dedup_sorted (merge_sort scalar_le l).

(** The cells of a value array: a finite number or NaN.  Finite numbers are
    integers, on which float64 arithmetic is exact. *)
Inductive value : Type :=
  | V (z : Z)
  | VNaN.

#[global] Instance value_eq_dec : EqDecision value.
Proof. solve_decision. Defined.

Definition is_vnan (v : value) : bool :=
  match v with VNaN => true | V _ => false end.

(** An N-dimensional array: its shape and its cells in row-major order. *)
Record ndarray (A : Type) : Type := NdArray {
  shape : list Z;
  data : list A
}.
Arguments NdArray {A} shape data.
Arguments shape {A} n.
Arguments data {A} n.

(** [np.prod] of a shape. *)
Definition np_prod (l : list Z) : Z := foldr Z.mul 1 l.

(** A 1-D array. *)
Definition arr1 {A} (l : list A) : ndarray A :=
  NdArray [Z.of_nat (length l)] l.

(** Python's [sh[:-k]] and [sh[-k:]] for [0 <= k]; [sh[:-0]] is empty and
    [sh[-0:]] is all of [sh]. *)
Definition shape_lead (sh : list Z) (k : nat) : list Z :=
  match k with
  | O => []
  | _ => take (length sh - k) sh
  end.
Definition shape_trail (sh : list Z) (k : nat) : list Z :=
  match k with
  | O => sh
  | _ => drop (length sh - k) sh
  end.

(** ** numpy_groupies.aggregate

    [aggregate(group_idx, a, func, size, fill_value)] groups the cells of [a]
    by the code at the same position of [group_idx] and applies [func] to each
    group; slot [g] of the output holds the result for code [g], or
    [fill_value] when no cell has that code.  A kernel is the per-group
    function: it sees the members of one group, in array order, each with its
    position in the flattened input.  The [nan...] kernels drop NaN cells
    before grouping ([k_keep]). *)

Record kernel (A : Type) : Type := Kernel {
  k_keep : A → bool;
  k_red : list (Z * A) → A
}.
Arguments Kernel {A} k_keep k_red.
Arguments k_keep {A} k.
Arguments k_red {A} k.

(** Cells of one row carrying code [g], with their flat positions;
    [off] is the flat position of the row's first cell. *)
Definition npg_members {A} (off : Z) (group_idx : list Z) (row : list A) (g : Z)
    : list (Z * A) :=
  omap (λ '(i, c, x), if c =? g then Some (off + Z.of_nat i, x) else None)
       (zip (zip (seq 0 (length row)) group_idx) row).

Definition npg_slot {A} (k : kernel A) (fill : A) (off : Z)
    (group_idx : list Z) (row : list A) (g : Z) : A :=
  match filter (λ p, k_keep k p.2 = true) (npg_members off group_idx row g) with
  | [] => fill
  | ms => k_red k ms
  end.

Definition npg_row {A} (k : kernel A) (fill : A) (size : Z) (off : Z)
    (group_idx : list Z) (row : list A) : list A :=
  npg_slot k fill off group_idx row <$> np_arange size.

(** [max(l)]; the caller has checked that [l] is not empty. *)
Definition maxZ (l : list Z) : Z :=
  match l with
  | [] => 0
  | x :: l' => foldr Z.max x l'
  end.

Definition msg_negative : string := "negative indices not supported".
Definition msg_empty_max : string :=
  "zero-size array to reduction operation maximum which has no identity".
Definition msg_len : string := "group_idx and a must be of the same length".
Definition msg_axis_len : string :=
  "a.shape[axis] doesn't match length of group_idx.".
Definition msg_ravel : string := "invalid entry in index array".

(** [aggregate(group_idx, a, func=k)] on 1-D [a], no [axis], no [size]. *)
Definition npg_aggregate {A} (group_idx : list Z) (a : list A) (k : kernel A)
    (fill : A) : result (list A) :=
  if existsb (λ c, c <? 0) group_idx then Err (ValueError msg_negative)
  else if negb (length group_idx =? length a)%nat then Err (ValueError msg_len)
  else if (length group_idx =? 0)%nat then Err (ValueError msg_empty_max)
  else Ok (npg_row k fill (maxZ group_idx + 1) 0 group_idx a).

(** Row [r] of the flat data of an array whose last axis has length [n]. *)
Definition nd_row {A} (n : nat) (d : list A) (r : nat) : list A :=
  take n (drop (r * n) d).

(** [aggregate(group_idx, a, axis=-1, func=k, size=size, fill_value=fill)]
    on N-D [a] with 1-D [group_idx] along the last axis.  With [axis] given,
    the codes are turned into flat output positions by
    [np.ravel_multi_index(..., mode='raise')], which refuses a code outside
    [0 <= c < size]. *)
Definition npg_aggregate_axis {A} (group_idx : list Z) (a : ndarray A)
    (k : kernel A) (size : option Z) (fill : A) : result (ndarray A) :=
  let n := length group_idx in
  if existsb (λ c, c <? 0) group_idx then Err (ValueError msg_negative)
  else if negb (bool_decide (shape_trail (shape a) 1 = [Z.of_nat n]))
       then Err (ValueError msg_axis_len)
  else
    size_in ← match size with
              | Some s => Ok s
              | None => if (n =? 0)%nat then Err (ValueError msg_empty_max)
                        else Ok (maxZ group_idx + 1)
              end;
    if existsb (λ c, size_in <=? c) group_idx then Err (ValueError msg_ravel)
    else
      let lead := shape_lead (shape a) 1 in
      let rows := Z.to_nat (np_prod lead) in
      Ok (NdArray (lead ++ [size_in])
            (mjoin ((λ r, npg_row k fill size_in (Z.of_nat (r * n)) group_idx
                                (nd_row n (data a) r)) <$> seq 0 rows))).

(** The kernels the engine itself names. *)
Definition value_add (x y : value) : value :=
  match x, y with
  | V a, V b => V (a + b)
  | _, _ => VNaN
  end.
Definition k_sum : kernel value :=
  Kernel (λ _, true) (λ ms, foldr value_add (V 0) (snd <$> ms)).
Definition k_nansum : kernel value :=
  Kernel (λ v, negb (is_vnan v)) (λ ms, foldr value_add (V 0) (snd <$> ms)).
Definition k_nanlen : kernel value :=
  Kernel (λ v, negb (is_vnan v)) (λ ms, V (Z.of_nat (length ms))).
Definition k_first {A} (d : A) : kernel A :=
  Kernel (λ _, true) (λ ms, from_option snd d (head ms)).
Definition k_last {A} (d : A) : kernel A :=
  Kernel (λ _, true) (λ ms, from_option snd d (last ms)).

(** ** Rechunk planners *)

(** [_get_optimal_chunks_for_groups(chunks, labels)]: [labels] are integer
    group codes (the caller factorizes them first). *)
Definition optimal_step (newchunkidx : list Z) (cfl : Z * Z * Z) : list Z :=
  let '(c, f, l) := cfl in
  let Δf := Z.abs (c - f) in
  let Δl := Z.abs (c - l) in
  if (c =? 0) || (l <? last_or 0 newchunkidx) then newchunkidx
  else if (Δf <? Δl) && (last_or 0 newchunkidx <? f)
       then newchunkidx ++ [f]
       else newchunkidx ++ [l + 1].

Definition _get_optimal_chunks_for_groups (chunks labels : list Z)
    : result (list Z) :=
  let chunkidx := (λ c, c - 1) <$> np_cumsum chunks in
  at_bounds ← np_take labels chunkidx;
  let labels_at_chunk_bounds := np_uniqueZ at_bounds in
  last_indexes ←
    npg_aggregate labels (np_arange (Z.of_nat (length labels))) (k_last 0) 0;
  lastidx ← np_take last_indexes labels_at_chunk_bounds;
  if (length chunkidx =? length lastidx)%nat
     && bool_decide (chunkidx = lastidx)
  then Ok chunks
  else
    first_indexes ←
      npg_aggregate labels (np_arange (Z.of_nat (length labels))) (k_first 0) 0;
    firstidx ← np_take first_indexes labels_at_chunk_bounds;
    let newchunkidx :=
      fold_left optimal_step (zip (zip chunkidx firstidx) lastidx) [0] in
    last_c ← py_index chunkidx (-1);
    let newchunkidx :=
      if last_or 0 newchunkidx =? last_c + 1 then newchunkidx
      else newchunkidx ++ [last_c + 1] in
    let newchunks := np_diff newchunkidx in
    if sumZ newchunks =? sumZ chunks then Ok newchunks
    else Err AssertionError.

(** [rechunk_for_cohorts(array, axis, labels, force_new_chunk_at, chunksize)].
    Of [array] only its chunks along [axis] matter: [oldchunks]; the length of
    that axis is their sum.  The result is the chunking of the returned array
    along [axis]. *)
Definition msg_labels_len : string :=
  "labels must be equal to array.shape[axis].".
Definition msg_not_present : string :=
  "One or more labels in ``force_new_chunk_at`` not present in ``labels``.".

(** [np.nonzero(mask)[0]] *)
Definition np_nonzero (mask : list bool) : list Z :=
  omap (λ '(i, b), if b : bool then Some (Z.of_nat i) else None)
       (zip (seq 0 (length mask)) mask).

(** One turn of the loop over [enumerate(labels)]; the state is
    [(divisions, counter)]. *)
Definition cohorts_step (force : list scalar) (oldbreaks : list Z)
    (isbreak : list bool) (chunksize : Z)
    (st : list Z * Z) (il : nat * scalar) : list Z * Z :=
  let '(divisions, counter) := st in
  let '(idx, lab) := il in
  if np_contains force lab then (divisions ++ [Z.of_nat idx], 1)
  else
    let next_break := np_nonzero (drop idx isbreak) in
    let next_break_is_close :=
      if existsb (λ i, negb (i =? 0)) next_break
      then match next_break with
           | b :: _ => b <=? chunksize `div` 2
           | [] => false
           end
      else false in
    if inZ (Z.of_nat idx) oldbreaks
       || ((chunksize <=? counter) && negb next_break_is_close)
    then (divisions ++ [Z.of_nat idx], 1)
    else (divisions, counter + 1).

Definition cohorts_divisions (force : list scalar) (oldchunks : list Z)
    (labels : list scalar) (chunksize : Z) : list Z :=
  let oldbreaks := 0 :: np_cumsum oldchunks in
  let isbreak := np_isin labels force in
  (fold_left (cohorts_step force oldbreaks isbreak chunksize)
             (zip (seq 0 (length labels)) labels) ([], 1)).1
  ++ [Z.of_nat (length labels)].

Definition rechunk_for_cohorts (oldchunks : list Z) (labels : list scalar)
    (force_new_chunk_at : list scalar) (chunksize : option Z)
    : result (list Z) :=
  let chunksize :=
    match chunksize with
    | None => np_median_int oldchunks
    | Some c => c
    end in
  if negb (Z.of_nat (length labels) =? sumZ oldchunks)
  then Err (ValueError msg_labels_len)
  else
    let isbreak := np_isin labels force_new_chunk_at in
    if negb (existsb id isbreak) then Err (ValueError msg_not_present)
    else
      let divisions :=
        cohorts_divisions force_new_chunk_at oldchunks labels chunksize in
      let newchunks := np_diff divisions in
      if sumZ newchunks =? Z.of_nat (length labels) then Ok newchunks
      else Err AssertionError.

(** ** Cohort analyzer *)

Definition msg_repeats : string := "repeats may not contain negative values.".

(** [np.repeat(a, repeats)] *)
Definition np_repeat (a : list Z) (repeats : list Z) : result (list Z) :=
  if existsb (λ c, c <? 0) repeats then Err (ValueError msg_repeats)
  else Ok (mjoin ((λ '(x, r), replicate (Z.to_nat r) x) <$> zip a repeats)).

(** [a[mask]] for a boolean mask: the mask must be as long as [a]. *)
Definition np_mask_index {A} (a : list A) (mask : list bool) : result (list A) :=
  if negb (length a =? length mask)%nat then Err IndexError
  else Ok (omap (λ '(x, b), if b : bool then Some x else None) (zip a mask)).

(** A Python [dict] in insertion order. *)
Definition dict (K V : Type) : Type := list (K * V).

Definition dict_get {K V} `{EqDecision K} (d : dict K V) (k : K) : option V :=
  (λ p, p.2.2) <$> list_find (λ kv, kv.1 = k) d.
Definition dict_keys {K V} (d : dict K V) : list K := fst <$> d.
Definition dict_values {K V} (d : dict K V) : list V := snd <$> d.

(** [d[k].append(x)] on a dict of lists, creating the entry at the end when
    [k] is new. *)
Fixpoint dict_append {K V} `{EqDecision K} (d : dict K (list V)) (k : K) (x : V)
    : dict K (list V) :=
  match d with
  | [] => [(k, [x])]
  | (k', xs) :: d' =>
      if decide (k' = k) then (k', xs ++ [x]) :: d'
      else (k', xs) :: dict_append d' k x
  end.

(** [toolz.groupby(key, seq)] *)
Definition tlz_groupby {A K} `{EqDecision K} (key : A → K) (seq : list A)
    : dict K (list A) :=
  fold_left (λ d x, dict_append d (key x) x) seq [].

(** The merge pass: cohort [k2] is folded into an earlier cohort [k1] when its
    chunks are a subset of [k1]'s. *)
Definition chunks_subset (k2 k1 : option (list Z)) : bool :=
  match k2, k1 with
  | Some a, Some b => forallb (λ x, inZ x b) a
  | _, _ => false
  end.

Definition merge_inner (k1 : option (list Z))
    (st : list scalar * list (option (list Z)))
    (kv : option (list Z) * list scalar)
    : list scalar * list (option (list Z)) :=
  let '(cohort, merged_keys) := st in
  let '(k2, v2) := kv in
  if bool_decide (k2 ∈ merged_keys) then st
  else if chunks_subset k2 k1 then (cohort ++ v2, merged_keys ++ [k2])
  else st.

Fixpoint merge_outer (items : list (option (list Z) * list scalar))
    (merged_keys : list (option (list Z)))
    : dict (option (list Z)) (list scalar) :=
  match items with
  | [] => []
  | (k1, v1) :: rest =>
      if bool_decide (k1 ∈ merged_keys) then merge_outer rest merged_keys
      else
        let '(cohort, merged_keys') :=
          fold_left (merge_inner k1) rest (v1, merged_keys) in
        (k1, cohort) :: merge_outer rest merged_keys'
  end.

Definition find_group_cohorts (labels : list scalar) (chunks : list Z)
    (merge : bool) : result (list (list scalar)) :=
  which_chunk ← np_repeat (np_arange (Z.of_nat (length chunks))) chunks;
  label_chunks ←
    mapM (λ lab, present ← np_mask_index which_chunk (np_eq lab <$> labels);
                 Ok (lab, np_uniqueZ present))
         (np_unique labels);
  let chunks_cohorts :=
    tlz_groupby (dict_get label_chunks) (dict_keys label_chunks) in
  if merge then Ok (dict_values (merge_outer chunks_cohorts []))
  else Ok (dict_values chunks_cohorts).

(** ** Reindexing *)

Definition msg_filling : string :=
  "Filling is required. fill_value cannot be None.".

(** What a float array stores when given [fill_value]: Python's [None] is
    cast to NaN. *)
Definition cast_fill (fill_value : option value) : value :=
  default VNaN fill_value.

(** [np.argwhere(from_ == label)[0, 0] if label in from_ else -1] *)
Definition index_in (from_ : list scalar) (label : scalar) : Z :=
  match list_find (λ x, np_eq x label = true) from_ with
  | Some (i, _) => Z.of_nat i
  | None => -1
  end.

(** [row[idx]] for an integer index array, then [row[idx == -1] = fill]. *)
Definition take_row (idx : list Z) (row : list value) : result (list value) :=
  np_take row idx.
Definition fill_row (idx : list Z) (fill : value) (row : list value)
    : list value :=
  (λ '(i, x), if i =? -1 then fill else x) <$> zip idx row.

(** [reindex_(array, from_, to, fill_value)], along the last axis (the
    [axis=-1] every caller uses).  Label cells are scalars, so the refusal of
    object arrays of tuples never applies.  An empty [to] gives an empty
    float index array, which numpy refuses as an index. *)
Definition reindex_ (array : ndarray value) (from_ to : list scalar)
    (fill_value : option value) : result (ndarray value) :=
  if (length from_ =? length to)%nat
     && forallb (λ p, np_eq p.1 p.2) (zip from_ to)
  then Ok array
  else
    n ← py_index (shape array) (-1);
    let lead := shape_lead (shape array) 1 in
    let rows := Z.to_nat (np_prod lead) in
    if n =? 0 then
      Ok (NdArray (lead ++ [Z.of_nat (length to)])
                  (replicate (rows * length to) (cast_fill fill_value)))
    else
      let idx := index_in from_ <$> to in
      if (length to =? 0)%nat then Err IndexError
      else
        taken ← mapM (λ r, take_row idx (nd_row (Z.to_nat n) (data array) r))
                     (seq 0 rows);
        if existsb (λ i, i =? -1) idx then
          match fill_value with
          | None => Err (ValueError msg_filling)
          | Some fv =>
              Ok (NdArray (lead ++ [Z.of_nat (length to)])
                          (mjoin (fill_row idx fv <$> taken)))
          end
        else Ok (NdArray (lead ++ [Z.of_nat (length to)]) (mjoin taken)).

(** ** Label factorizer *)

(** The [axis] argument: [None], one integer, or a sequence. *)
Inductive axis_t : Type :=
  | AxNone
  | AxInt (a : Z)
  | AxSeq (l : list Z).

(** [np.isscalar(axis)] *)
Definition np_isscalar (axis : axis_t) : bool :=
  match axis with AxInt _ => true | _ => false end.

(** [pd.factorize(values)]: the distinct non-missing values in order of first
    appearance, and for each cell the position of its value among them, [-1]
    for a missing cell. *)
Definition pd_uniques (values : list scalar) : list scalar :=
  fold_left (λ acc x, if isnull x || bool_decide (x ∈ acc) then acc
                      else acc ++ [x]) values [].
Definition pd_code (uniques : list scalar) (x : scalar) : Z :=
  if isnull x then -1
  else match list_find (λ u, u = x) uniques with
       | Some (i, _) => Z.of_nat i
       | None => -1
       end.
Definition pd_factorize (values : list scalar) : list Z * list scalar :=
  let uniques := pd_uniques values in
  (pd_code uniques <$> values, uniques).

(** [np.digitize(x, bins)] with [right=False]: for increasing [bins] the
    number of edges [<= x], for decreasing bins the number of edges [>= x]...
    NaN sorts after every edge.  Edges and values must be numbers. *)
Definition msg_monotonic : string :=
  "bins must be monotonically increasing or decreasing".

Definition as_number (x : scalar) : result (option Qc) :=
  match x with
  | Num q => Ok (Some q)
  | NaN => Ok None
  | Str _ => Err TypeError
  end.

Fixpoint nondecreasing (l : list Qc) : bool :=
  match l with
  | x :: ((y :: _) as l') => bool_decide (x ≤ y)%Qc && nondecreasing l'
  | _ => true
  end.

Definition digitize1 (increasing : bool) (bins : list Qc) (x : option Qc) : Z :=
  match x with
  | None => if increasing then Z.of_nat (length bins) else 0
  | Some q =>
      if increasing
      then Z.of_nat (length (filter (λ b, (b ≤ q)%Qc) bins))
      else Z.of_nat (length (filter (λ b, (q ≤ b)%Qc) bins))
  end.

Definition np_digitize (x bins : list scalar) : result (list Z) :=
  bs ← (mapM as_number bins : result (list (option Qc)));
  xs ← (mapM as_number x : result (list (option Qc)));
  let xs : list (option Qc) := xs in
  if existsb (λ b : option Qc, bool_decide (b = None)) bs
  then Err (ValueError msg_monotonic)
  else
    let edges := omap id bs in
    if nondecreasing edges then Ok (digitize1 true edges <$> xs)
    else if nondecreasing (reverse edges) then Ok (digitize1 false edges <$> xs)
    else Err (ValueError msg_monotonic).

(** [np.ravel_multi_index(multi_index, dims)], row-major, [mode='raise']. *)
Fixpoint ravel1 (dims : list Z) (index : list Z) : result Z :=
  match dims, index with
  | [], [] => Ok 0
  | d :: dims', i :: index' =>
      if (i <? 0) || (d <=? i) then Err (ValueError msg_ravel)
      else rest ← ravel1 dims' index'; Ok (i * np_prod dims' + rest)
  | _, _ => Err (ValueError msg_ravel)
  end.

(** The columns of a list of equally long rows. *)
Fixpoint transpose_lists (n : nat) (ls : list (list Z)) : list (list Z) :=
  match n with
  | O => []
  | S n' => omap head ls :: transpose_lists n' (tail <$> ls)
  end.

Definition np_ravel_multi_index (multi_index : list (list Z)) (dims : list Z)
    : result (list Z) :=
  match multi_index with
  | [] => Err (ValueError msg_ravel)
  | first :: _ =>
      if negb (forallb (λ l, (length l =? length first)%nat) multi_index)
      then Err (ValueError msg_ravel)
      else mapM (ravel1 dims) (transpose_lists (length first) multi_index)
  end.

(** [offset_labels(labels)] *)
Definition offset_labels (labels : ndarray Z) : result (ndarray Z * Z * Z) :=
  if (length (data labels) =? 0)%nat then Err (ValueError msg_empty_max)
  else
    let ngroups := maxZ (data labels) + 1 in
    n ← py_index (shape labels) (-1);
    let rows := np_prod (shape_lead (shape labels) 1) in
    let offset :=
      (λ '(p, l), if l =? -1 then -1
                  else l + (Z.of_nat p `div` n) * ngroups)
        <$> zip (seq 0 (length (data labels))) (data labels) in
    Ok (NdArray (shape labels) offset, ngroups, rows * ngroups).

Record FactorProps : Type := mkFactorProps {
  offset_group : bool;
  nan_sentinel : Z
}.

Record Factorized : Type := mkFactorized {
  f_group_idx : ndarray Z;
  f_found_groups : list (list scalar);
  f_grp_shape : list Z;
  f_ngroups : Z;
  f_size : option Z;
  f_props : FactorProps
}.

Definition msg_bin_edges : string := "Please pass bin_edges in expected_groups.".

(** One turn of the loop over [zip(by, expected_groups, isbin)]: the codes of
    one grouping array and the groups found in it. *)
Definition factorize_var (groupvar : ndarray scalar)
    (expect : option (list scalar)) (tobin : bool)
    : result (ndarray Z * list scalar) :=
  if tobin then
    match expect with
    | None => Err (ValueError msg_bin_edges)
    | Some edges =>
        d ← np_digitize (data groupvar) edges;
        let idx := (λ i, i - 1) <$> d in
        if (length idx =? 0)%nat then Err (ValueError msg_empty_max)
        else Ok (NdArray (shape groupvar) idx, num <$> np_arange (maxZ idx + 1))
    end
  else
    let '(idx, groups) := pd_factorize (data groupvar) in
    Ok (NdArray [Z.of_nat (length idx)] idx, groups).

(** [zip] of three tuples. *)
Definition zip3 {A B C} (a : list A) (b : list B) (c : list C)
    : list (A * B * C) :=
  zip (zip a b) c.

(** [factorize_(by, axis, expected_groups, isbin)] *)
Definition factorize_ (by_ : list (ndarray scalar)) (axis : axis_t)
    (expected_groups : option (list (option (list scalar))))
    (isbin : option (list bool)) : result Factorized :=
  let isbin := default (replicate (length by_) false) isbin in
  let expected_groups :=
    default (replicate (length by_) None) expected_groups in
  vars ← mapM (λ '(groupvar, expect, tobin), factorize_var groupvar expect tobin)
              (zip3 by_ expected_groups isbin);
  let factorized := fst <$> vars in
  let found_groups := snd <$> vars in
  let grp_shape := (λ grp, Z.of_nat (length grp)) <$> found_groups in
  let ngroups := np_prod grp_shape in
  by0 ← match by_ with b :: _ => Ok b | [] => Err IndexError end;
  group_idx ←
    (if (1 <? length by_)%nat then
       flat ← np_ravel_multi_index (data <$> factorized) grp_shape;
       Ok (NdArray (shape by0) flat)
     else match factorized with
          | f :: _ => Ok f
          | [] => Err IndexError
          end);
  groupvar ← match last (take (length vars) by_) with
             | Some g => Ok g
             | None => Err IndexError
             end;
  off ← (if np_isscalar axis && (1 <? length (shape groupvar))%nat
         then o ← offset_labels (NdArray (shape by0) (data group_idx));
              Ok (Some o)
         else Ok None : result (option (ndarray Z * Z * Z)));
  let '(group_idx, ngroups, size, offset_group) :=
    match off with
    | Some (o, ng, sz) =>
        (NdArray [Z.of_nat (length (data o))] (data o), ng, Some sz, true)
    | None => (group_idx, ngroups, None, false)
    end in
  let nan_sentinel :=
    match offset_group, size with
    | true, Some sz => sz + 1
    | _, _ => ngroups + 1
    end in
  let group_idx :=
    NdArray (shape group_idx)
            ((λ c, if c =? -1 then nan_sentinel else c) <$> data group_idx) in
  Ok (mkFactorized group_idx found_groups grp_shape ngroups size
        (mkFactorProps offset_group nan_sentinel)).

(** ** Chunk reducer *)

Record IntermediateDict : Type := mkResults {
  groups : ndarray scalar;
  intermediates : list (ndarray value)
}.

Definition msg_reshape : string := "cannot reshape array".

(** [a.reshape(newshape)] *)
Definition np_reshape {A} (a : ndarray A) (newshape : list Z)
    : result (ndarray A) :=
  if np_prod newshape =? Z.of_nat (length (data a))
  then Ok (NdArray newshape (data a))
  else Err (ValueError msg_reshape).

(** [sh[:k]] for any integer [k]. *)
Definition shape_upto (sh : list Z) (k : Z) : list Z :=
  if k <? 0 then take (Z.to_nat (Z.of_nat (length sh) + k)) sh
  else take (Z.to_nat k) sh.

(** [_collapse_axis(arr, naxis)] *)
Definition _collapse_axis {A} (arr : ndarray A) (naxis : nat) : result (ndarray A) :=
  np_reshape arr (shape_lead (shape arr) naxis
                  ++ [np_prod (shape_trail (shape arr) naxis)]).

(** [np.argsort(l)]: the positions of the cells in ascending order. *)
Definition np_argsort (l : list scalar) : list Z :=
  (λ p, Z.of_nat p.2)
    <$> merge_sort (λ a b, scalar_le a.1 b.1) (zip l (seq 0 (length l))).

(** [a[..., idx]]: the cells [idx] of every row. *)
Definition take_last_axis {A} (a : ndarray A) (idx : list Z)
    : result (ndarray A) :=
  n ← py_index (shape a) (-1);
  let lead := shape_lead (shape a) 1 in
  taken ← mapM (λ r, np_take (nd_row (Z.to_nat n) (data a) r) idx)
               (seq 0 (Z.to_nat (np_prod lead)));
  Ok (NdArray (lead ++ [Z.of_nat (length idx)]) (mjoin taken)).

(** [a[..., :-1]] *)
Definition drop_last_column {A} (a : ndarray A) : result (ndarray A) :=
  n ← py_index (shape a) (-1);
  let lead := shape_lead (shape a) 1 in
  let m := Z.to_nat n in
  Ok (NdArray (lead ++ [Z.of_nat (m - 1)])
        (mjoin ((λ r, take (m - 1) (nd_row m (data a) r))
                  <$> seq 0 (Z.to_nat (np_prod lead))))).

(** [np.full(shape, fill_value)]; a [None] fill is held as NaN. *)
Definition np_full (sh : list Z) (fill_value : option value) : ndarray value :=
  NdArray sh (replicate (Z.to_nat (np_prod sh)) (cast_fill fill_value)).

(** One turn of the loop over [zip(func, fill_value)] of [chunk_reduce], for
    a block that is not empty. *)
Definition reduce_one (group_idx : list Z) (array : ndarray value)
    (size : option Z) (any_masked : bool) (offset : bool) (ngroups : Z)
    (final_array_shape : list Z)
    (reindex_to : option (list scalar)) (found : list scalar)
    (sortidx : list Z) (reduction : kernel value) (fv : option value)
    : result (ndarray value) :=
  result ← npg_aggregate_axis group_idx array reduction size (cast_fill fv);
  result ← (if any_masked then drop_last_column result else Ok result);
  result ← (if offset
            then np_reshape result (shape_lead final_array_shape 1 ++ [ngroups])
            else Ok result);
  result ← match reindex_to with
           | Some expected => reindex_ result found expected fv
           | None => take_last_axis result sortidx
           end;
  np_reshape result final_array_shape.

(** When [axis] is a sequence shorter than [by.ndim], that many trailing axes
    of [by] and [array] are collapsed into one. *)
Definition collapse_axes (by_ : ndarray scalar) (axis : axis_t) : option nat :=
  match axis with
  | AxSeq l => if (length l <? length (shape by_))%nat then Some (length l)
               else None
  | _ => None
  end.

(** [chunk_reduce(array, by, func, expected_groups, axis, fill_value,
    reindex=reindex, isbin=isbin)].  [func] lists the kernels numpy_groupies
    runs (a reduction given as a callable does its own grouping and is not
    modelled); [fill_value] is the tuple of their fill values. *)
Definition chunk_reduce (array : ndarray value) (by_ : ndarray scalar)
    (func : list (kernel value)) (expected_groups : option (list scalar))
    (axis : axis_t) (fill_value : list (option value))
    (reindex isbin : bool) : result IntermediateDict :=
  let nax := match axis with
             | AxSeq l => length l
             | _ => length (shape by_)
             end in
  let final_array_shape :=
    shape_lead (shape array) nax ++ replicate (nax - 1) 1 in
  let final_groups_shape := replicate (nax - 1) 1 in
  let axis := match axis with
              | AxSeq [a] => AxInt a
              | _ => axis
              end in
  let collapse := collapse_axes by_ axis in
  by_ ← match collapse with
        | Some k => _collapse_axis by_ k
        | None => Ok by_
        end;
  array ← match collapse with
          | Some k => _collapse_axis array k
          | None => Ok array
          end;
  let axis := match collapse with
              | Some _ => AxInt (-1)
              | None => axis
              end in
  let axis := if (length (shape by_) =? 1)%nat then AxInt (-1) else axis in
  f ← factorize_ [by_] axis (Some [expected_groups]) (Some [isbin]);
  found ← match f_found_groups f with
          | g :: _ => Ok g
          | [] => Err IndexError
          end;
  let ndim_by := length (shape by_) in
  array ← np_reshape array
            (shape_upto (shape array)
                        (Z.of_nat (length (shape array)) - Z.of_nat ndim_by)
             ++ [np_prod (shape_trail (shape array) ndim_by)]);
  if negb (length (shape (f_group_idx f)) =? 1)%nat then Err AssertionError
  else
    let group_idx := data (f_group_idx f) in
    let sentinel := nan_sentinel (f_props f) in
    let mask := (λ c, negb (c =? sentinel)) <$> group_idx in
    let empty := forallb negb mask || (np_prod (shape by_) =? 0) in
    let reindex_to := if reindex then expected_groups else None in
    let sortidx := np_argsort found in
    sorted ← np_take found sortidx;
    let result_groups :=
      match reindex_to with
      | Some expected => expected
      | None => if empty then [NaN] else sorted
      end in
    let final_array_shape :=
      final_array_shape ++ [Z.of_nat (length result_groups)] in
    let final_groups_shape :=
      final_groups_shape ++ [Z.of_nat (length result_groups)] in
    inter ← mapM (λ '(reduction, fv),
                    if empty then Ok (np_full final_array_shape fv)
                    else reduce_one group_idx array (f_size f)
                           (existsb negb mask) (offset_group (f_props f))
                           (f_ngroups f) final_array_shape reindex_to found
                           sortidx reduction fv)
                 (zip func fill_value);
    Ok (mkResults (NdArray final_groups_shape result_groups) inter).

(** ** Aggregation descriptors and named kernels *)

Inductive reduction_type_t : Type := Reduce | ArgReduce.

(** An [Aggregation]: the names of its chunk and combine kernels, its
    finalize function, the fill values of the intermediates and the final
    fill value.  The catalog of aggregations ([aggregations.py]) is a
    parameter of the functions that look a name up in it. *)
Record Aggregation : Type := mkAggregation {
  agg_name : string;
  agg_chunk : list string;
  agg_combine : list string;
  agg_finalize : option (list (ndarray value) → result (ndarray value));
  agg_fill_intermediate : list (option value);
  agg_fill_final : option value;
  agg_reduction_type : reduction_type_t
}.

Definition catalog : Type := string → option Aggregation.

Definition value_mul (x y : value) : value :=
  match x, y with
  | V a, V b => V (a * b)
  | _, _ => VNaN
  end.
Definition value_max (x y : value) : value :=
  match x, y with
  | V a, V b => V (Z.max a b)
  | _, _ => VNaN
  end.
Definition value_min (x y : value) : value :=
  match x, y with
  | V a, V b => V (Z.min a b)
  | _, _ => VNaN
  end.

(** Fold of a non-empty member list. *)
Definition fold_members (op : value → value → value) (ms : list (Z * value))
    : value :=
  match snd <$> ms with
  | [] => VNaN
  | x :: xs => fold_left op xs x
  end.

Definition all_cells : value → bool := λ _, true.
Definition not_nan : value → bool := λ v, negb (is_vnan v).

Definition msg_no_func : string := "No such func".

(** The kernels of numpy_groupies by name, for the names modelled. *)
Definition npg_func (name : string) : result (kernel value) :=
  if String.eqb name "sum" then Ok k_sum
  else if String.eqb name "nansum" then Ok k_nansum
  else if String.eqb name "nanlen" then Ok k_nanlen
  else if String.eqb name "len"
       then Ok (Kernel all_cells (λ ms, V (Z.of_nat (length ms))))
  else if String.eqb name "prod"
       then Ok (Kernel all_cells (λ ms, foldr value_mul (V 1) (snd <$> ms)))
  else if String.eqb name "nanprod"
       then Ok (Kernel not_nan (λ ms, foldr value_mul (V 1) (snd <$> ms)))
  else if String.eqb name "max" then Ok (Kernel all_cells (fold_members value_max))
  else if String.eqb name "nanmax" then Ok (Kernel not_nan (fold_members value_max))
  else if String.eqb name "min" then Ok (Kernel all_cells (fold_members value_min))
  else if String.eqb name "nanmin" then Ok (Kernel not_nan (fold_members value_min))
  else if String.eqb name "first" then Ok (k_first VNaN)
  else if String.eqb name "last" then Ok (k_last VNaN)
  else Err (NotImplementedError msg_no_func).

(** [chunk_reduce] with the kernels given by name. *)
Definition chunk_reduce_named (array : ndarray value) (by_ : ndarray scalar)
    (func : list string) (expected_groups : option (list scalar))
    (axis : axis_t) (fill_value : list (option value))
    (reindex isbin : bool) : result IntermediateDict :=
  kernels ← mapM npg_func func;
  chunk_reduce array by_ kernels expected_groups axis fill_value reindex isbin.

(** ** Finalizer *)

(** [np.squeeze(a, axis=axes)]: drop the listed axes, each of length one. *)
Definition np_squeeze {A} (a : ndarray A) (axes : list nat) : ndarray A :=
  NdArray (omap (λ '(i, d), if bool_decide (i ∈ axes) then None else Some d)
                (zip (seq 0 (length (shape a))) (shape a)))
          (data a).

(** [_squeeze_results(results, axis)] *)
Definition _squeeze_results (results : IntermediateDict) (axis : list Z)
    : result IntermediateDict :=
  let g := groups results in
  let gaxes :=
    filter (λ ax, shape g !! ax = Some 1) (seq 0 (length (shape g) - 1)) in
  let sorted_axis := merge_sort Z.le axis in
  let candidates := take (length sorted_axis - 1) sorted_axis in
  inter ← mapM (λ v : ndarray value,
                  dims ← mapM (λ ax, d ← py_index (shape v) ax; Ok (ax, d))
                              candidates;
                  let squeeze_ax :=
                    omap (λ '(ax, d),
                            if d =? 1
                            then Some (Z.to_nat (if ax <? 0
                                                 then ax + Z.of_nat (length (shape v))
                                                 else ax))
                            else None) dims in
                  Ok (np_squeeze v squeeze_ax))
               (intermediates results);
  Ok (mkResults (np_squeeze g gaxes) inter).

Record FinalResultsDict : Type := mkFinal {
  final_value : ndarray value;
  final_groups : option (list scalar)
}.

Definition msg_broadcast : string := "operands could not be broadcast together".

(** [np.where(counts >= min_count, result, fill_value)] for arrays of one
    shape; a [None] fill is held as NaN. *)
Definition value_ge (c : value) (m : Z) : bool :=
  match c with
  | V z => m <=? z
  | VNaN => false
  end.
Definition np_where_counts (counts : ndarray value) (min_count : Z)
    (result_ : ndarray value) (fill_value : option value)
    : result (ndarray value) :=
  if negb (bool_decide (shape counts = shape result_))
  then Err (ValueError msg_broadcast)
  else Ok (NdArray (shape result_)
             ((λ '(c, x), if value_ge c min_count then x
                          else cast_fill fill_value)
                <$> zip (data counts) (data result_))).

(** [l[-1]] and [l[:-1]] of a Python list. *)
Definition split_last {A} (l : list A) : result (list A * A) :=
  match last l with
  | Some x => Ok (take (length l - 1) l, x)
  | None => Err IndexError
  end.

Definition py_first {A} (l : list A) : result A :=
  match l with
  | x :: _ => Ok x
  | [] => Err IndexError
  end.

(** [_finalize_results(results, agg, axis, expected_groups, fill_value,
    min_count)] *)
Definition _finalize_results (results : IntermediateDict) (agg : Aggregation)
    (axis : list Z) (expected_groups : option (list scalar))
    (fill_value : option value) (min_count : option Z)
    : result FinalResultsDict :=
  squeezed ← _squeeze_results results axis;
  result_ ←
    match agg_finalize agg with
    | None =>
        match min_count with
        | Some mc =>
            '(inter, counts) ← split_last (intermediates squeezed);
            r ← py_first inter;
            np_where_counts counts mc r fill_value
        | None => py_first (intermediates squeezed)
        end
    | Some finalize =>
        match fill_value with
        | Some _ =>
            '(inter, counts) ← split_last (intermediates squeezed);
            r ← finalize inter;
            np_where_counts counts (default 1 min_count) r fill_value
        | None =>
            r ← finalize (intermediates squeezed);
            Err NameError
        end
    end;
  match expected_groups with
  | Some expected =>
      r ← reindex_ result_ (data (groups squeezed)) expected fill_value;
      Ok (mkFinal r (Some expected))
  | None => Ok (mkFinal result_ None)
  end.

(** ** [groupby_reduce] on numpy arrays *)

(** [np.unravel_index(p, sh)] and the row-major flat position of an index. *)
Fixpoint unravel (sh : list Z) (p : Z) : list Z :=
  match sh with
  | [] => []
  | _ :: sh' => (p `div` np_prod sh') :: unravel sh' (p `mod` np_prod sh')
  end.
Fixpoint ravel (sh idx : list Z) : Z :=
  match sh, idx with
  | _ :: sh', i :: idx' => i * np_prod sh' + ravel sh' idx'
  | _, _ => 0
  end.

Definition msg_axes : string := "axes don't match array".

(** [arr.transpose(order)] *)
Definition np_transpose {A} (arr : ndarray A) (order : list Z)
    : result (ndarray A) :=
  let nd := length (shape arr) in
  let order := (λ o, if o <? 0 then o + Z.of_nat nd else o) <$> order in
  if negb (bool_decide (merge_sort Z.le order = np_arange (Z.of_nat nd)))
  then Err (ValueError msg_axes)
  else
    newshape ← np_take (shape arr) order;
    cells ← mapM (λ p,
                    let idx' := unravel newshape p in
                    let idx :=
                      (λ j, default 0
                              ((λ q, q.2.2)
                                 <$> list_find (λ oi, oi.1 = j) (zip order idx')))
                        <$> np_arange (Z.of_nat nd) in
                    py_index (data arr) (ravel (shape arr) idx))
                 (np_arange (np_prod newshape));
    Ok (NdArray newshape cells).

(** [_move_reduce_dims_to_end(arr, axis)] *)
Definition _move_reduce_dims_to_end {A} (arr : ndarray A) (axis : list Z)
    : result (ndarray A) :=
  let nd := Z.of_nat (length (shape arr)) in
  np_transpose arr (filter (λ ax, inZ ax axis = false) (np_arange nd) ++ axis).

Definition msg_axis_bounds : string := "axis is out of bounds for array".
Definition msg_axis_repeat : string := "repeated axis".

(** [np.core.numeric.normalize_axis_tuple(axis, ndim)] *)
Definition normalize_axis_tuple (axis : list Z) (ndim : nat) : result (list Z) :=
  norm ← mapM (λ a, if (a <? - Z.of_nat ndim) || (Z.of_nat ndim <=? a)
                    then Err (ValueError msg_axis_bounds)
                    else Ok (if a <? 0 then a + Z.of_nat ndim else a)) axis;
  if bool_decide (NoDup norm) then Ok norm
  else Err (ValueError msg_axis_repeat).

Definition msg_aligned : string :=
  "array and by must be aligned i.e. array.shape[-by.ndim :] == by.shape.".
Definition msg_skipna : string := "skipna cannot be truthy for reductions.".
Definition msg_min_count : string :=
  "min_count can be > 1 only for nansum, nanprod. or for sum, prod with skipna=True. This is an Xarray limitation.".
Definition msg_not_implemented : string := "Reduction not implemented yet".
Definition msg_expected : string :=
  "Please provide ``expected_groups`` when not reducing along all axes.".

(** ["nan" in func] *)
Definition has_nan (func : string) : bool :=
  bool_decide (is_Some (String.index 0 "nan" func)).

Definition in_names (func : string) (names : list string) : bool :=
  bool_decide (func ∈ names).

(** The name of the reduction after the [skipna] and [min_count] rules; the
    arrays hold floats, for which [skipna=None] means skipping. *)
Definition resolve_func (func : string) (skipna : option bool)
    (min_count : option Z) : result string :=
  if default false skipna && in_names func ["all"; "any"; "count"]
  then Err (ValueError msg_skipna)
  else
    let func :=
      if default true skipna
         && negb (has_nan func) && negb (in_names func ["all"; "any"; "count"])
      then ("nan" +:+ func) else func in
    match min_count with
    | Some mc =>
        if (1 <? mc) && negb (in_names func ["nansum"; "nanprod"])
        then Err (ValueError msg_min_count)
        else Ok func
    | None => Ok func
    end.

(** The reduction axes as a tuple of non-negative positions. *)
Definition resolve_axis (axis : axis_t) (array_ndim by_ndim : nat)
    : result (list Z) :=
  match axis with
  | AxNone =>
      Ok ((λ i, Z.of_nat array_ndim + i)
            <$> ((λ i, i - Z.of_nat by_ndim) <$> np_arange (Z.of_nat by_ndim)))
  | AxInt a => normalize_axis_tuple [a] array_ndim
  | AxSeq l => normalize_axis_tuple l array_ndim
  end.

(** The numpy branch of [groupby_reduce]: one call of [chunk_reduce] on the
    whole array, the repairs for the arg and variance kernels, and
    [_finalize_results] with [finalize = None]. *)
Definition reduce_numpy (array : ndarray value) (by_ : ndarray scalar)
    (reduction : Aggregation) (expected_groups : option (list scalar))
    (isbin : bool) (axis : list Z) (fill_value : option value)
    (min_count : option Z) : result (ndarray value * list scalar) :=
  let reduction :=
    mkAggregation (agg_name reduction) (agg_chunk reduction)
      (agg_combine reduction) None (agg_fill_intermediate reduction)
      (agg_fill_final reduction) (agg_reduction_type reduction) in
  let func := if String.eqb (agg_name reduction) "count" then "nanlen"
              else agg_name reduction in
  let append_nanlen :=
    bool_decide (is_Some min_count)
    || in_names (agg_name reduction) ["nanvar"; "nanstd"] in
  results ←
    chunk_reduce_named array by_
      (if append_nanlen then [func; "nanlen"] else [func])
      (if isbin then expected_groups else None)
      (AxSeq axis)
      (if append_nanlen then [fill_value; Some (V 0)] else [fill_value])
      false isbin;
  results ←
    (if in_names (agg_name reduction)
                 ["argmin"; "argmax"; "nanargmax"; "nanargmin"]
     then
       if (1 <? length (shape array))%nat && (length (shape by_) =? 1)%nat
       then
         n ← py_index (shape array) (-1);
         '(first, rest) ← match intermediates results with
                          | v :: rest => Ok (v, rest)
                          | [] => Err IndexError
                          end;
         let fixed :=
           NdArray (shape first)
             ((λ x, match x with V z => V (z `mod` n) | VNaN => VNaN end)
                <$> data first) in
         Ok (mkResults (groups results) (fixed :: rest))
       else Ok results
     else if in_names (agg_name reduction) ["nanvar"; "nanstd"]
     then
       match intermediates results with
       | [val; counts] =>
           Ok (mkResults (groups results)
                 [NdArray (shape val)
                    ((λ '(c, x), match c with
                                 | V z => if z <=? 0 then VNaN else x
                                 | VNaN => x
                                 end)
                       <$> zip (data counts) (data val))])
       | _ => Err (ValueError "not enough values to unpack")
       end
     else Ok results);
  let expected_groups :=
    if isbin
    then (λ e, num <$> np_arange (Z.of_nat (length e) - 1)) <$> expected_groups
    else expected_groups in
  final ← _finalize_results results reduction axis expected_groups fill_value
            min_count;
  match final_groups final with
  | Some g => Ok (final_value final, g)
  | None => Err KeyError
  end.

(** ** Combiner *)

Definition msg_concat : string := "need at least one array to concatenate".
Definition msg_concat_dims : string :=
  "all the input array dimensions except for the concatenation axis must match exactly".

(** [np.concatenate(arrays, axis=-1)] *)
Definition concat_last_axis {A} (arrays : list (ndarray A))
    : result (ndarray A) :=
  match arrays with
  | [] => Err (ValueError msg_concat)
  | first :: _ =>
      let lead := shape_lead (shape first) 1 in
      if negb (forallb (λ a, bool_decide (shape_lead (shape a) 1 = lead)
                             && (0 <? length (shape a))%nat) arrays)
      then Err (ValueError msg_concat_dims)
      else
        lens ← mapM (λ a, py_index (shape a) (-1)) arrays;
        let rows := Z.to_nat (np_prod lead) in
        Ok (NdArray (lead ++ [sumZ lens])
              (mjoin ((λ r, mjoin ((λ '(a, n), nd_row (Z.to_nat n) (data a) r)
                                     <$> zip arrays lens))
                        <$> seq 0 rows)))
  end.

(** [reindex_intermediates(x)] inside [_npg_combine] *)
Definition reindex_intermediates (agg : Aggregation)
    (unique_groups : list scalar) (x : IntermediateDict)
    : result IntermediateDict :=
  let new_shape := shape_lead (shape (groups x)) 1
                   ++ [Z.of_nat (length unique_groups)] in
  inter ← mapM (λ '(v, f), reindex_ v (data (groups x)) unique_groups f)
               (zip (intermediates x) (agg_fill_intermediate agg));
  Ok (mkResults
        (NdArray new_shape
           (mjoin (replicate (Z.to_nat (np_prod (shape_lead new_shape 1)))
                             unique_groups)))
        inter).

Definition msg_argreduce : string := "arg-reductions are outside the model".

(** Whether a label is a string. *)
Definition is_str (x : scalar) : bool :=
  match x with Str _ => true | _ => false end.

(** [np.asarray(t)] for the tuple [t] of group labels that
    [np.unique(tuple(...))] is given.  With a string among the labels numpy
    makes an array of strings, and the float nan with which a block without
    groups marks its result becomes the string ["nan"], a label like any
    other.  (A number would become its decimal string there; label arrays
    hold one kind, so numbers and strings do not meet in one tuple, and
    numbers are left as they are.) *)
Definition np_asarray_labels (t : list scalar) : list scalar :=
  if existsb is_str t
  then (λ x, match x with NaN => Str "nan" | _ => x end) <$> t
  else t.

(** [_npg_combine(x_chunk, agg, axis, keepdims, group_ndim, backend)] for
    blocks along one reduction axis, the last, and a one-dimensional grouping
    array ([group_ndim == 1]).  The branch for arg-reductions needs the index
    array that the aggregation's preprocessing attaches and is not
    modelled. *)
Definition _npg_combine (x_chunk : list IntermediateDict) (agg : Aggregation)
    (axis : list Z) : result IntermediateDict :=
  let unique_groups :=
    np_unique (np_asarray_labels (mjoin ((λ x, data (groups x)) <$> x_chunk))) in
  x_chunk ← mapM (reindex_intermediates agg unique_groups) x_chunk;
  groups_ ← concat_last_axis (groups <$> x_chunk);
  match agg_reduction_type agg with
  | ArgReduce => Err (NotImplementedError msg_argreduce)
  | Reduce =>
      kernels ← mapM npg_func (agg_combine agg);
      channels ←
        mapM (λ '(idx, (combine, fv)),
                arrays ← mapM (λ x, match intermediates x !! idx with
                                    | Some v => Ok v
                                    | None => Err IndexError
                                    end) x_chunk;
                array ← concat_last_axis arrays;
                n ← py_index (shape array) (-1);
                if n =? 0 then
                  Ok (NdArray (replicate (length axis - 1) 1 ++ [0]) [],
                      NdArray [0] [])
                else
                  r ← chunk_reduce array groups_ [combine] None (AxSeq axis)
                        [fv] false false;
                  v ← match intermediates r with
                      | [v] => Ok v
                      | _ => Err TypeError
                      end;
                  Ok (v, groups r))
             (zip (seq 0 (length kernels))
                  (zip kernels (agg_fill_intermediate agg)));
      match last channels with
      | Some (_, g) => Ok (mkResults g (fst <$> channels))
      | None => Err AttributeError
      end
  end.

(** [_npg_aggregate]: the last combine step and the finalizer. *)
Definition _npg_aggregate (x_chunk : list IntermediateDict) (agg : Aggregation)
    (expected_groups : option (list scalar)) (axis : list Z)
    (fill_value : option value) (min_count : option Z)
    : result FinalResultsDict :=
  results ← _npg_combine x_chunk agg axis;
  _finalize_results results agg axis expected_groups fill_value min_count.

(** ** The mapreduce strategy *)

(** The blocks of an array chunked along its last axis. *)
Definition block_offsets (chunks : list Z) : list Z :=
  0 :: take (length chunks - 1) (np_cumsum chunks).

Definition split_last_axis {A} (a : ndarray A) (chunks : list Z)
    : result (list (ndarray A)) :=
  n ← py_index (shape a) (-1);
  if existsb (λ c, c <? 0) chunks || negb (sumZ chunks =? n)
  then Err (ValueError "chunks do not add up to the shape")
  else
    let lead := shape_lead (shape a) 1 in
    let rows := Z.to_nat (np_prod lead) in
    Ok ((λ '(o, c),
           NdArray (lead ++ [c])
             (mjoin ((λ r, take (Z.to_nat c)
                             (drop (Z.to_nat o) (nd_row (Z.to_nat n) (data a) r)))
                       <$> seq 0 rows)))
          <$> zip (block_offsets chunks) chunks).

(** Consecutive groups of the given sizes; what is left over forms one more
    group. *)
Fixpoint group_by_sizes {A} (sizes : list nat) (l : list A) : list (list A) :=
  match sizes with
  | [] => match l with [] => [] | _ => [l] end
  | s :: sizes' =>
      match l with
      | [] => []
      | _ => match s with
             | O => group_by_sizes sizes' l
             | _ => take s l :: group_by_sizes sizes' (drop s l)
             end
      end
  end.

(** The tree reduction of the execution substrate: at each level of [plan]
    neighbouring blocks are combined in groups of the sizes the level lists;
    at the root the blocks that remain are aggregated.  The plan stands for
    the scheduler's choice of depth and fan-in. *)
Definition tree_reduce {B C} (combine : list B → result B)
    (aggregate : list B → result C) (plan : list (list nat)) (blocks : list B)
    : result C :=
  blocks ← fold_left (λ acc sizes, bs ← acc; mapM combine (group_by_sizes sizes bs))
                     plan (Ok blocks);
  aggregate blocks.

(** [groupby_agg] with [method="mapreduce"] and [split_out=1], for an array
    chunked along its last axis, which is the reduction axis, and a
    one-dimensional [by].  The result is the reduced array and the group
    labels; the labels are [None] when [expected_groups] is unknown, where the
    task that would fetch them finds no "groups" entry. *)
Definition groupby_agg (array : ndarray value) (chunks : list Z)
    (plan : list (list nat)) (by_ : ndarray scalar) (agg : Aggregation)
    (expected_groups : option (list scalar)) (axis : list Z)
    (fill_value : option value) (min_count : option Z) (isbin : bool)
    : result (ndarray value * option (list scalar)) :=
  if negb (forallb (λ ax, 0 <=? ax) axis) then Err AssertionError
  else
    array_blocks ← split_last_axis array chunks;
    by_blocks ← split_last_axis by_ chunks;
    match agg_reduction_type agg with
    | ArgReduce => Err (NotImplementedError msg_argreduce)
    | Reduce =>
        applied ←
          mapM (λ '(a, b),
                  chunk_reduce_named a b (agg_chunk agg)
                    (if isbin then expected_groups else None) (AxSeq axis)
                    (agg_fill_intermediate agg) false isbin)
               (zip array_blocks by_blocks);
        let expected_groups :=
          if isbin
          then (λ e, num <$> np_arange (Z.of_nat (length e) - 1))
                 <$> expected_groups
          else expected_groups in
        reduced ←
          tree_reduce (λ xs, _npg_combine xs agg axis)
            (λ xs, _npg_aggregate xs agg expected_groups axis fill_value
                     min_count)
            plan applied;
        Ok (final_value reduced, expected_groups)
    end.

(** ** [groupby_reduce] *)

Definition msg_first_last : string :=
  "first, last not implemented for dask arrays".

(** [groupby_reduce(array, by, func, expected_groups=..., isbin=...,
    axis=..., fill_value=..., skipna=..., min_count=...)] with [by] a numpy
    array.  [chunks = None] is a numpy [array]; [chunks = Some (cs, plan)] is
    a dask array chunked as [cs] along its last axis and reduced with
    [method="mapreduce"], [split_out=1], the scheduler following [plan]. *)
Definition groupby_reduce (aggregations : catalog) (array : ndarray value)
    (chunks : option (list Z * list (list nat))) (by_ : ndarray scalar)
    (func : string) (expected_groups : option (list scalar)) (isbin : bool)
    (axis : axis_t) (fill_value : option value) (skipna : option bool)
    (min_count : option Z)
    : result (ndarray value * option (list scalar)) :=
  if negb (bool_decide (shape_trail (shape array) (length (shape by_))
                        = shape by_))
  then Err (ValueError msg_aligned)
  else
    func ← resolve_func func skipna min_count;
    axis ← resolve_axis axis (length (shape array)) (length (shape by_));
    let expected_groups :=
      match expected_groups with
      | None => Some (np_unique (filter (λ x, isnull x = false) (data by_)))
      | Some e => Some e
      end in
    '(by_, array, axis) ←
      (if (length axis <? length (shape by_))%nat
       then
         b ← _move_reduce_dims_to_end by_
                ((λ ax, - Z.of_nat (length (shape array)) + ax
                        + Z.of_nat (length (shape by_))) <$> axis);
         a ← _move_reduce_dims_to_end array axis;
         Ok (b, a, (λ i, Z.of_nat (length (shape a)) + i)
                     <$> ((λ i, i - Z.of_nat (length axis))
                            <$> np_arange (Z.of_nat (length axis))))
       else Ok (by_, array, axis));
    reduction ← match aggregations func with
                | Some r => Ok r
                | None => Err (NotImplementedError msg_not_implemented)
                end;
    let fill_value :=
      match fill_value with
      | None => agg_fill_final reduction
      | Some fv => Some fv
      end in
    fill_value ←
      match min_count with
      | Some _ => if in_names func ["nansum"; "nanprod"] then Ok (Some VNaN)
                  else Err AssertionError
      | None => Ok fill_value
      end;
    match chunks with
    | None =>
        '(r, g) ← reduce_numpy array by_ reduction expected_groups isbin axis
                    fill_value min_count;
        Ok (r, Some g)
    | Some (cs, plan) =>
        if in_names func ["first"; "last"]
        then Err (NotImplementedError msg_first_last)
        else
          let reduction :=
            if bool_decide (is_Some fill_value) || bool_decide (is_Some min_count)
            then mkAggregation (agg_name reduction)
                   (agg_chunk reduction ++ ["nanlen"])
                   (agg_combine reduction ++ ["sum"])
                   (agg_finalize reduction)
                   (agg_fill_intermediate reduction ++ [Some (V 0)])
                   (agg_fill_final reduction) (agg_reduction_type reduction)
            else reduction in
          groupby_agg array cs plan by_ reduction expected_groups axis
            fill_value min_count isbin
    end.

(** ** The catalog of aggregations *)

(** Modelled from the spec: [aggregations.py] is not among the sources.  The
    spec describes an aggregation as chunk kernels, combine kernels, an
    optional finalize step and per-stage fill values, a missing partial sum
    combining as 0; the entries below are the sums and the count the
    scenarios use. *)
Definition aggregations : catalog := λ name,
  if String.eqb name "sum"
  then Some (mkAggregation "sum" ["sum"] ["sum"] None [Some (V 0)]
               (Some (V 0)) Reduce)
  else if String.eqb name "nansum"
  then Some (mkAggregation "nansum" ["nansum"] ["sum"] None [Some (V 0)]
               (Some (V 0)) Reduce)
  else if String.eqb name "count"
  then Some (mkAggregation "count" ["nanlen"] ["sum"] None [Some (V 0)]
               (Some (V 0)) Reduce)
  else None.

(** The labels and values of the scenarios. *)
Definition scenario_labels : list scalar :=
  Str <$> ["a"; "a"; "c"; "c"; "c"; "b"; "b"; "c"; "c"; "b"; "b"; "f"]%string.
Definition scenario_ones : list value := replicate 12 (V 1).

(** A decimal fraction [n / d] as a label. *)
Definition frac (n : Z) (d : positive) : scalar := Num (Q2Qc (n # d)).

(** ** Predicates the properties are stated with *)

(** What C8 states of a list of cohorts: together they hold exactly the
    labels present, and no label is in two of them. *)
Definition cohorts_cover (cohorts : list (list scalar)) (labels : list scalar)
    : Prop :=
  ∀ lab, lab ∈ labels ↔ ∃ c, c ∈ cohorts ∧ lab ∈ c.
Definition cohorts_disjoint (cohorts : list (list scalar)) : Prop :=
  ∀ i j ci cj lab,
    cohorts !! i = Some ci → cohorts !! j = Some cj → i ≠ j →
    lab ∈ ci → lab ∉ cj.

(** An array is well formed when it holds as many cells as its shape says. *)
Definition wf_array {A} (a : ndarray A) : Prop :=
  Forall (Z.le 0) (shape a)
  ∧ length (data a) = Z.to_nat (np_prod (shape a)).



(** *** The chunk reducer on one-dimensional input, as a list function *)

(** The cells of [vals] whose label is [g]. *)
Definition group_values (labs : list scalar) (vals : list value) (g : scalar)
    : list value :=
  omap (λ '(l, v), if bool_decide (l = g) then Some v else None)
       (zip labs vals).

(** A kernel on the values of one group: the fill value when, after the
    kernel has dropped the cells it skips, none is left. *)
Definition slot_value (k : kernel value) (fill : value) (xs : list value)
    : value :=
  match filter (λ v, k_keep k v = true) xs with
  | [] => fill
  | ys => k_red k ((λ v, (0, v)) <$> ys)
  end.

(** The groups observed: the distinct labels that are not missing, in
    ascending order. *)
Definition observed_groups (labs : list scalar) : list scalar :=
  np_unique (filter (λ x, isnull x = false) labs).

(** What [chunk_reduce] returns on one-dimensional [labs] and [vals]. *)
Definition spec_reduce (labs : list scalar) (vals : list value)
    (kernels : list (kernel value * option value)) : IntermediateDict :=
  match observed_groups labs with
  | [] => mkResults (arr1 [NaN])
            ((λ '(_, fv), arr1 [cast_fill fv]) <$> kernels)
  | gs => mkResults (arr1 gs)
            ((λ '(k, fv),
                arr1 ((λ g, slot_value k (cast_fill fv)
                              (group_values labs vals g)) <$> gs))
               <$> kernels)
  end.

(** A kernel that does not look at the positions of the cells. *)
Definition position_free (k : kernel value) : Prop :=
  ∀ ms ms' : list (Z * value), snd <$> ms = snd <$> ms' → k_red k ms = k_red k ms'.

(** A chunk kernel and a combine kernel decompose a reduction when combining
    the results of the parts gives the result of the whole; a part without
    cells stands for the fill value. *)
Definition decomposes (chunk combine : kernel value) (fill : value) : Prop :=
  position_free chunk ∧ position_free combine
  ∧ ∀ xss : list (list value), xss ≠ [] →
      slot_value combine fill (slot_value chunk fill <$> xss)
      = slot_value chunk fill (mjoin xss).


(** The cells paired with their positions, in the order [np.argsort] puts
    them. *)
Definition sorted_pairs (l : list scalar) : list (scalar * nat) :=
  merge_sort (λ a b, scalar_le a.1 b.1) (zip l (seq 0 (length l))).

(** The codes [factorize_] gives one-dimensional labels: the position of each
    label among the labels found, the sentinel for a missing label. *)
Definition codes_1d (labs : list scalar) : list Z :=
  (λ c, if c =? -1 then np_prod [Z.of_nat (length (pd_uniques labs))] + 1
        else c)
    <$> (pd_code (pd_uniques labs) <$> labs).

(** The groups a chunk result lists: the observed ones, or the missing-value
    marker alone when there is none. *)
Definition result_groups (labs : list scalar) : list scalar :=
  match observed_groups labs with
  | [] => [NaN]
  | gs => gs
  end.

(** What a block holds for group [g] in the channel of kernel [k]. *)
Definition block_slot (k : kernel value) (fill : value)
    (labs : list scalar) (vals : list value) (g : scalar) : value :=
  if isnull g then fill else slot_value k fill (group_values labs vals g).

(** Neighbouring blocks seen as one block. *)
Definition merge_blocks (bs : list (list scalar * list value))
    : list scalar * list value :=
  (mjoin (fst <$> bs), mjoin (snd <$> bs)).



(** *** [groupby_reduce] on one-dimensional numpy arrays, as list functions *)

(** The cells of group [g] that are not NaN. *)
Definition group_valid (labs : list scalar) (vals : list value) (g : scalar)
    : list value :=
  filter (λ v, is_vnan v = false) (group_values labs vals g).

(** The sum of a list of cells; NaN if one of them is NaN. *)
Definition vsum (xs : list value) : value := foldr value_add (V 0) xs.

(** What the numpy branch holds for group [g] before the final reindexing:
    the kernel over the cells of the group, masked by the count of its valid
    cells when [min_count] is given. *)
Definition numpy_cell (k : kernel value) (fill_value : option value)
    (min_count : option Z) (labs : list scalar) (vals : list value)
    (g : scalar) : value :=
  let x := block_slot k (cast_fill fill_value) labs vals g in
  match min_count with
  | None => x
  | Some m =>
      if value_ge (block_slot k_nanlen (V 0) labs vals g) m then x
      else cast_fill fill_value
  end.

(** *** Cohorts *)

(** The entry of [label_chunks] for [lab]: the chunks where the label is
    present. *)
Definition label_chunk_set (labels : list scalar) (chunks : list Z)
    (lab : scalar) : result (list Z) :=
  which_chunk ← np_repeat (np_arange (Z.of_nat (length chunks))) chunks;
  present ← np_mask_index which_chunk (np_eq lab <$> labels);
  Ok (np_uniqueZ present).

(** A dict of lists as [toolz.groupby] builds it: no key twice, no list
    empty, and every element under its own key. *)
Definition grouped_by {A K} (key : A → K) (d : dict K (list A)) : Prop :=
  NoDup (dict_keys d)
  ∧ Forall (λ kv, kv.2 ≠ [] ∧ Forall (λ x, key x = kv.1) kv.2) d.

(** *** Rechunking to group boundaries *)

(** [rechunk_for_blockwise(array, axis, labels)].  Of [array] only its chunks
    along [axis] matter: [chunks]; the result is the chunking of the returned
    array along [axis]. *)
Definition rechunk_for_blockwise (chunks : list Z) (labels : ndarray scalar)
    : result (list Z) :=
  f ← factorize_ [labels] AxNone None None;
  let labels := data (f_group_idx f) in
  newchunks ← _get_optimal_chunks_for_groups chunks labels;
  if bool_decide (newchunks = chunks) then Ok chunks else Ok newchunks.

(** *** Combined results *)






(** * Properties *)

(** ** The error monad *)

Lemma bind_Ok {A B} (r : result A) (k : A → result B) (b : B) :
  r ≫= k = Ok b → ∃ a, r = Ok a ∧ k a = Ok b.
Proof. destruct r as [a|e]; simpl; [eauto | discriminate]. Qed.

Lemma mapM_Ok_length {A B} (f : A → result B) l ys :
  mapM f l = Ok ys → length ys = length l.
Proof.
  revert ys. induction l as [|x l IH]; intros ys; simpl.
  - by intros [= <-].
  - destruct (f x) as [y|]; simpl; [|done].
    destruct (mapM f l) as [ys'|]; simpl; [|done].
    intros [= <-]. simpl. f_equal. by apply IH.
Qed.

Lemma mapM_total {A B} (f : A → result B) (P : A → Prop) l :
  (∀ x, P x → ∃ y, f x = Ok y) → Forall P l → ∃ ys, mapM f l = Ok ys.
Proof.
  intros Hf. induction 1 as [|x l Hx _ [ys IH]]; simpl; [eauto|].
  destruct (Hf x Hx) as [y ->]. rewrite IH. simpl. eauto.
Qed.

Lemma mapM_Ok_Forall2 {A B} (f : A → result B) l ys :
  mapM f l = Ok ys → Forall2 (λ x y, f x = Ok y) l ys.
Proof.
  revert ys. induction l as [|x l IH]; intros ys; simpl.
  - intros [= <-]. constructor.
  - destruct (f x) as [y|] eqn:Hy; simpl; [|done].
    destruct (mapM f l) as [ys'|]; simpl; [|done].
    intros [= <-]. constructor; auto.
Qed.

(** ** Sums, prefix sums and differences *)

Lemma sumZ_cons x l : sumZ (x :: l) = x + sumZ l.
Proof. reflexivity. Qed.

Lemma sumZ_app l1 l2 : sumZ (l1 ++ l2) = sumZ l1 + sumZ l2.
Proof. induction l1 as [|x l1 IH]; simpl; lia. Qed.

Lemma sumZ_nonneg l : Forall (Z.le 0) l → 0 ≤ sumZ l.
Proof. induction 1; simpl; lia. Qed.

(** The differences of a list telescope to its last element minus its first. *)
Lemma sumZ_np_diff x l : sumZ (np_diff (x :: l)) = List.last (x :: l) 0 - x.
Proof.
  revert x. induction l as [|y l IH]; intros x.
  - simpl. lia.
  - change (np_diff (x :: y :: l)) with ((y - x) :: np_diff (y :: l)).
    change (List.last (x :: y :: l) 0) with (List.last (y :: l) 0).
    rewrite sumZ_cons, IH. lia.
Qed.

Lemma last_snoc (l : list Z) x d : List.last (l ++ [x]) d = x.
Proof. apply List.last_last. Qed.

Lemma cumsum_from_length acc l : length (cumsum_from acc l) = length l.
Proof. revert acc. induction l; intros; simpl; auto. Qed.

Lemma cumsum_from_last acc l d :
  l ≠ [] → List.last (cumsum_from acc l) d = acc + sumZ l.
Proof.
  revert acc. induction l as [|x l IH]; intros acc Hne; [done|].
  destruct l as [|y l].
  - simpl. lia.
  - change (cumsum_from acc (x :: y :: l))
      with ((acc + x) :: cumsum_from (acc + x) (y :: l)).
    assert (cumsum_from (acc + x) (y :: l) ≠ []) as Hne' by (simpl; done).
    destruct (cumsum_from (acc + x) (y :: l)) as [|c cs] eqn:Hc; [done|].
    change (List.last (acc + x :: c :: cs) d) with (List.last (c :: cs) d).
    rewrite <- Hc, IH by done. simpl. lia.
Qed.

Lemma cumsum_from_bounds acc l :
  Forall (Z.le 0) l → Forall (λ c, acc ≤ c ≤ acc + sumZ l) (cumsum_from acc l).
Proof.
  intros H. revert acc. induction H as [|x l Hx Hl IH]; intros acc; simpl.
  - constructor.
  - pose proof (sumZ_nonneg l Hl). constructor; [lia|].
    eapply Forall_impl; [apply IH|]. simpl. intros; lia.
Qed.

(** ** The boundary-forcing planner *)

Lemma cohorts_step_extends force oldbreaks isbreak chunksize st il :
  ∃ ext, (cohorts_step force oldbreaks isbreak chunksize st il).1 = st.1 ++ ext.
Proof.
  destruct st as [divisions counter], il as [idx lab]. unfold cohorts_step.
  repeat case_match; simpl; eauto using app_nil_r.
  all: by exists [].
Qed.

Lemma cohorts_fold_extends force oldbreaks isbreak chunksize items st :
  ∃ ext, (fold_left (cohorts_step force oldbreaks isbreak chunksize) items st).1
         = st.1 ++ ext.
Proof.
  revert st. induction items as [|il items IH]; intros st; simpl.
  - exists []. by rewrite app_nil_r.
  - destruct (IH (cohorts_step force oldbreaks isbreak chunksize st il)) as [e2 ->].
    destruct (cohorts_step_extends force oldbreaks isbreak chunksize st il)
      as [e1 ->].
    exists (e1 ++ e2). by rewrite app_assoc.
Qed.

(** The first label always opens a block: position 0 is an old break. *)
Lemma cohorts_step_first force cs isbreak chunksize lab :
  cohorts_step force (0 :: cs) isbreak chunksize ([], 1) (0%nat, lab) = ([0], 1).
Proof.
  unfold cohorts_step. destruct (np_contains force lab); [done|].
  by simpl.
Qed.

Lemma cohorts_divisions_shape force oldchunks labels chunksize :
  labels ≠ [] →
  ∃ ext, cohorts_divisions force oldchunks labels chunksize
         = 0 :: ext ++ [Z.of_nat (length labels)].
Proof.
  intros Hne. destruct labels as [|lab rest]; [done|].
  unfold cohorts_divisions.
  change (zip (seq 0 (length (lab :: rest))) (lab :: rest))
    with ((0%nat, lab) :: zip (seq 1 (length rest)) rest).
  cbn [fold_left]. rewrite cohorts_step_first.
  destruct (cohorts_fold_extends force (0 :: np_cumsum oldchunks)
              (np_isin (lab :: rest) force) chunksize
              (zip (seq 1 (length rest)) rest) ([0], 1)) as [ext ->].
  by exists ext.
Qed.

Lemma cohorts_divisions_sum force oldchunks labels chunksize :
  labels ≠ [] →
  sumZ (np_diff (cohorts_divisions force oldchunks labels chunksize))
  = Z.of_nat (length labels).
Proof.
  intros Hne.
  destruct (cohorts_divisions_shape force oldchunks labels chunksize Hne)
    as [ext ->].
  rewrite sumZ_np_diff, app_comm_cons, last_snoc. lia.
Qed.

Lemma existsb_id_isin_nonempty labels force :
  existsb id (np_isin labels force) = true → labels ≠ [].
Proof. by destruct labels. Qed.

Lemma np_isin_none labels force :
  Forall (λ lab, np_contains force lab = false) labels →
  existsb id (np_isin labels force) = false.
Proof.
  induction 1 as [|lab labels Hlab _ IH]; [done|].
  unfold np_isin in *. rewrite fmap_cons. cbn [existsb id orb].
  rewrite Hlab. exact IH.
Qed.

Lemma rechunk_for_cohorts_ok oldchunks labels force chunksize :
  Z.of_nat (length labels) = sumZ oldchunks →
  existsb id (np_isin labels force) = true →
  ∃ newchunks,
    rechunk_for_cohorts oldchunks labels force chunksize = Ok newchunks
    ∧ sumZ newchunks = sumZ oldchunks.
Proof.
  intros Hlen Hbreak. unfold rechunk_for_cohorts.
  rewrite (proj2 (Z.eqb_eq _ _) Hlen). simpl negb. cbv iota.
  rewrite Hbreak. simpl negb. cbv iota.
  pose proof (existsb_id_isin_nonempty _ _ Hbreak) as Hne.
  rewrite cohorts_divisions_sum, Z.eqb_refl by done.
  eexists. split; [done|].
  rewrite cohorts_divisions_sum by done. done.
Qed.

(** ** The group-boundary-snapping planner *)

Lemma py_index_Ok {A} (l : list A) (i : Z) :
  - Z.of_nat (length l) ≤ i < Z.of_nat (length l) →
  ∃ x, py_index l i = Ok x ∧ x ∈ l.
Proof.
  intros Hi. unfold py_index.
  set (n := Z.of_nat (length l)) in *.
  set (j := if i <? 0 then i + n else i).
  assert (0 ≤ j < n) as Hj by (subst j; destruct (Z.ltb_spec i 0); lia).
  destruct (Z.ltb_spec j 0); [lia|]. destruct (Z.leb_spec n j); [lia|].
  simpl. destruct (lookup_lt_is_Some_2 l (Z.to_nat j)) as [x Hx]; [subst n; lia|].
  rewrite Hx. exists x. split; [done|]. by eapply list_elem_of_lookup_2.
Qed.

Lemma np_take_Ok {A} (a : list A) (idx : list Z) :
  Forall (λ i, - Z.of_nat (length a) ≤ i < Z.of_nat (length a)) idx →
  ∃ ys, np_take a idx = Ok ys ∧ Forall (λ y, y ∈ a) ys.
Proof.
  unfold np_take. induction 1 as [|i idx Hi _ [ys [IH Hys]]]; simpl.
  - eauto.
  - destruct (py_index_Ok a i Hi) as [x [-> Hx]]. rewrite IH. simpl. eauto.
Qed.

Lemma dedup_sortedZ_subseteq l : dedup_sortedZ l ⊆ l.
Proof.
  induction l as [|x l IH]; [done|].
  destruct l as [|y l]; [done|].
  change (dedup_sortedZ (x :: y :: l))
    with (if x =? y then dedup_sortedZ (y :: l) else x :: dedup_sortedZ (y :: l)).
  destruct (x =? y).
  - by apply list_subseteq_cons.
  - by apply list_subseteq_skip.
Qed.

Lemma np_uniqueZ_subseteq l : np_uniqueZ l ⊆ l.
Proof.
  unfold np_uniqueZ. etrans; [apply dedup_sortedZ_subseteq|].
  intros x. by rewrite merge_sort_Permutation.
Qed.

Lemma foldr_max_ge y l x : x = y ∨ x ∈ l → x ≤ foldr Z.max y l.
Proof.
  induction l as [|z l IH]; simpl.
  - intros [->|?%elem_of_nil]; [lia|done].
  - rewrite elem_of_cons. intros [Hx|[Hx|Hx]].
    + specialize (IH (or_introl Hx)). lia.
    + lia.
    + specialize (IH (or_intror Hx)). lia.
Qed.

Lemma maxZ_ge l x : x ∈ l → x ≤ maxZ l.
Proof.
  destruct l as [|y l]; [by intros ?%elem_of_nil|]. simpl.
  rewrite elem_of_cons. apply foldr_max_ge.
Qed.

Lemma np_arange_length n : length (np_arange n) = Z.to_nat n.
Proof. unfold np_arange. by rewrite length_fmap, length_seq. Qed.

Lemma npg_row_length {A} (k : kernel A) fill size off group_idx row :
  length (npg_row k fill size off group_idx row) = Z.to_nat size.
Proof. unfold npg_row. by rewrite length_fmap, np_arange_length. Qed.

Lemma npg_aggregate_Ok {A} (group_idx : list Z) (a : list A) k fill :
  Forall (Z.le 0) group_idx → length group_idx = length a → group_idx ≠ [] →
  ∃ out, npg_aggregate group_idx a k fill = Ok out
         ∧ length out = Z.to_nat (maxZ group_idx + 1).
Proof.
  intros Hpos Hlen Hne. unfold npg_aggregate.
  assert (existsb (λ c, c <? 0) group_idx = false) as ->.
  { apply not_true_is_false. intros (c & Hc & Hneg)%existsb_exists.
    apply List.Forall_forall with (x := c) in Hpos; [|done].
    apply Z.ltb_lt in Hneg. lia. }
  rewrite Hlen, Nat.eqb_refl. simpl negb. cbv iota.
  destruct a as [|x a]; [by destruct group_idx|]. simpl Nat.eqb. cbv iota.
  eexists. split; [done|]. apply npg_row_length.
Qed.

Lemma optimal_fold_head items acc :
  ∃ ext, fold_left optimal_step items (0 :: acc) = 0 :: ext.
Proof.
  revert acc. induction items as [|[[c f] l] items IH]; intros acc; simpl.
  - eauto.
  - repeat case_match; try apply IH.
    all: rewrite <- app_comm_cons; apply IH.
Qed.

Lemma np_cumsum_last chunks d :
  chunks ≠ [] → List.last ((λ c, c - 1) <$> np_cumsum chunks) d = sumZ chunks - 1.
Proof.
  intros Hne. unfold np_cumsum.
  assert (cumsum_from 0 chunks ≠ []) as Hc by (by destruct chunks).
  rewrite <- (cumsum_from_last 0 chunks 0 Hne) at 1. simpl.
  generalize dependent (cumsum_from 0 chunks). intros l Hl.
  induction l as [|x l IH]; [done|].
  destruct l as [|y l]; [simpl; lia|].
  rewrite !fmap_cons in *.
  change (List.last (x - 1 :: y - 1 :: ((λ c, c - 1) <$> l)) d)
    with (List.last (y - 1 :: ((λ c, c - 1) <$> l)) d).
  change (List.last (x :: y :: l) 0) with (List.last (y :: l) 0).
  apply IH. done.
Qed.

Lemma List_last_default {A} (l : list A) d : List.last l d = default d (last l).
Proof.
  induction l as [|x l IH]; [done|]. destruct l as [|y l]; [done|].
  change (List.last (x :: y :: l) d) with (List.last (y :: l) d).
  by rewrite last_cons_cons.
Qed.

Lemma py_index_last (l : list Z) :
  l ≠ [] → py_index l (-1) = Ok (List.last l 0).
Proof.
  intros Hne. unfold py_index.
  assert (0 < Z.of_nat (length l)) by (destruct l; simpl; [done|lia]).
  change (-1 <? 0) with true. cbv iota.
  destruct (Z.ltb_spec (-1 + Z.of_nat (length l)) 0); [lia|].
  destruct (Z.leb_spec (Z.of_nat (length l)) (-1 + Z.of_nat (length l))); [lia|].
  simpl. replace (Z.to_nat (-1 + Z.of_nat (length l))) with (pred (length l)) by lia.
  rewrite <- last_lookup, List_last_default.
  destruct (last l) eqn:E; [done|]. by apply last_None in E.
Qed.

Lemma get_optimal_chunks_ok chunks labels :
  labels ≠ [] → Forall (Z.le 0) labels → Forall (Z.le 0) chunks →
  sumZ chunks = Z.of_nat (length labels) →
  ∃ newchunks,
    _get_optimal_chunks_for_groups chunks labels = Ok newchunks
    ∧ sumZ newchunks = sumZ chunks.
Proof.
  intros Hne Hlab Hch Hsum. unfold _get_optimal_chunks_for_groups.
  assert (0 < Z.of_nat (length labels)) as Hn by (destruct labels; simpl; [done|lia]).
  assert (chunks ≠ []) as Hcne by (intros ->; simpl in Hsum; lia).
  (* the labels at the old chunk boundaries *)
  destruct (np_take_Ok labels ((λ c, c - 1) <$> np_cumsum chunks))
    as [at_bounds [-> Hin]].
  { apply Forall_fmap. eapply Forall_impl; [apply (cumsum_from_bounds 0 _ Hch)|].
    simpl. intros c Hc. lia. }
  cbn [mbind result_bind].
  (* the last index of every group *)
  destruct (npg_aggregate_Ok labels (np_arange (Z.of_nat (length labels)))
              (k_last 0) 0 Hlab) as [last_indexes [-> Hlast]]; [|done|].
  { by rewrite np_arange_length, Nat2Z.id. }
  cbn [mbind result_bind].
  assert (Forall (λ i, - Z.of_nat (Z.to_nat (maxZ labels + 1)) ≤ i
                       < Z.of_nat (Z.to_nat (maxZ labels + 1)))
                 (np_uniqueZ at_bounds)) as Hidx.
  { apply List.Forall_forall. intros g Hg%list_elem_of_In%np_uniqueZ_subseteq.
    apply List.Forall_forall with (x := g) in Hin; [|by apply list_elem_of_In].
    pose proof (maxZ_ge _ _ Hin).
    apply List.Forall_forall with (x := g) in Hlab; [|by apply list_elem_of_In].
    lia. }
  destruct (np_take_Ok last_indexes (np_uniqueZ at_bounds)) as [lastidx [-> _]].
  { by rewrite Hlast. }
  cbn [mbind result_bind].
  destruct (_ && _); [eauto|].
  destruct (npg_aggregate_Ok labels (np_arange (Z.of_nat (length labels)))
              (k_first 0) 0 Hlab) as [first_indexes [-> Hfirst]]; [|done|].
  { by rewrite np_arange_length, Nat2Z.id. }
  cbn [mbind result_bind].
  destruct (np_take_Ok first_indexes (np_uniqueZ at_bounds)) as [firstidx [-> _]].
  { by rewrite Hfirst. }
  cbn [mbind result_bind].
  rewrite py_index_last by (by destruct chunks).
  cbn [mbind result_bind].
  rewrite (np_cumsum_last chunks 0 Hcne).
  replace (sumZ chunks - 1 + 1) with (sumZ chunks) by lia.
  destruct (optimal_fold_head
              (zip (zip ((λ c, c - 1) <$> np_cumsum chunks) firstidx) lastidx) [])
    as [ext ->].
  set (idx := if last_or 0 (0 :: ext) =? sumZ chunks
              then 0 :: ext else (0 :: ext) ++ [sumZ chunks]).
  assert (∃ ext', idx = 0 :: ext' ∧ List.last idx 0 = sumZ chunks)
    as (ext' & Hidx' & Hl).
  { subst idx. unfold last_or. destruct (Z.eqb_spec (List.last (0 :: ext) 0) (sumZ chunks)).
    - eauto.
    - exists (ext ++ [sumZ chunks]). split; [done|]. apply last_snoc. }
  assert (sumZ (np_diff idx) = sumZ chunks) as Hd.
  { rewrite Hidx' in *. rewrite sumZ_np_diff, Hl. lia. }
  rewrite Hd, Z.eqb_refl. eauto.
Qed.

(** ** Claims about the rechunk planners *)

(** C9 (rechunk size conservation).  Both planners return block sizes that
    sum to the length of the axis.  The boundary-forcing planner
    [rechunk_for_cohorts] does so whenever [labels] is as long as the axis and
    holds at least one forcing label (otherwise it raises); the
    group-boundary-snapping planner [_get_optimal_chunks_for_groups] does so
    for non-negative group codes, one per element of a non-empty axis cut into
    non-negative chunks.  In both cases the planner returns: its own assertion
    on the sum never fails. *)
Theorem rechunk_size_conservation :
  (∀ oldchunks labels force chunksize,
     Z.of_nat (length labels) = sumZ oldchunks →
     existsb id (np_isin labels force) = true →
     ∃ newchunks,
       rechunk_for_cohorts oldchunks labels force chunksize = Ok newchunks
       ∧ sumZ newchunks = sumZ oldchunks)
  ∧ (∀ chunks labels,
       labels ≠ [] → Forall (Z.le 0) labels → Forall (Z.le 0) chunks →
       sumZ chunks = Z.of_nat (length labels) →
       ∃ newchunks,
         _get_optimal_chunks_for_groups chunks labels = Ok newchunks
         ∧ sumZ newchunks = sumZ chunks).
Proof.
  split.
  - apply rechunk_for_cohorts_ok.
  - apply get_optimal_chunks_ok.
Qed.

Lemma rechunk_size_conservation_witness :
  (∃ newchunks,
     rechunk_for_cohorts [4; 4; 4]
       (num <$> [1; 2; 3; 1; 2; 3; 4; 1; 2; 3; 4; 5]) [num 1] None
     = Ok newchunks
     ∧ sumZ newchunks = sumZ [4; 4; 4])
  ∧ (∃ newchunks,
       _get_optimal_chunks_for_groups [4; 4; 2] [0; 0; 0; 1; 1; 2; 2; 3; 3; 3]
       = Ok newchunks
       ∧ sumZ newchunks = sumZ [4; 4; 2]).
Proof.
  split.
  - apply (proj1 rechunk_size_conservation); reflexivity.
  - apply (proj2 rechunk_size_conservation).
    + discriminate.
    + repeat constructor; discriminate.
    + repeat constructor; discriminate.
    + reflexivity.
Defined.

(** The planners on the inputs of the repository's tests. *)
Example rechunk_to_group_boundaries_ones :
  _get_optimal_chunks_for_groups [1; 1; 1; 1; 1; 1; 1; 1; 1; 1]
    [0; 0; 0; 1; 1; 2; 2; 3; 3; 3] = Ok [3; 2; 2; 3].
Proof. reflexivity. Qed.

Example rechunk_to_group_boundaries_442 :
  _get_optimal_chunks_for_groups [4; 4; 2] [0; 0; 0; 1; 1; 2; 2; 3; 3; 3]
  = Ok [3; 4; 3].
Proof. reflexivity. Qed.

Example rechunk_to_group_boundaries_same :
  _get_optimal_chunks_for_groups [3; 2; 2; 3] [0; 0; 0; 1; 1; 2; 2; 3; 3; 3]
  = Ok [3; 2; 2; 3].
Proof. reflexivity. Qed.

Example rechunk_for_cohorts_repeating :
  rechunk_for_cohorts [4; 4; 4]
    (num <$> [1; 2; 3; 1; 2; 3; 4; 1; 2; 3; 4; 5]) [num 1] None
  = Ok [3; 1; 3; 1; 4].
Proof. vm_compute. reflexivity. Qed.

(** C10.  When no label of [labels] is one of [force_new_chunk_at],
    [rechunk_for_cohorts] raises [ValueError] and returns no chunking: the
    message is the one of the missing-label check, or the one of the earlier
    length check when [labels] is not as long as the axis. *)
Theorem rechunk_for_cohorts_missing_label oldchunks labels force chunksize :
  Forall (λ lab, np_contains force lab = false) labels →
  rechunk_for_cohorts oldchunks labels force chunksize
  = Err (ValueError
           (if Z.of_nat (length labels) =? sumZ oldchunks
            then msg_not_present else msg_labels_len)).
Proof.
  intros Hnone. unfold rechunk_for_cohorts.
  destruct (Z.of_nat (length labels) =? sumZ oldchunks); [|done].
  simpl negb. cbv iota. by rewrite np_isin_none.
Qed.

Lemma rechunk_for_cohorts_missing_label_witness :
  rechunk_for_cohorts [2; 2] (num <$> [1; 2; 3; 1]) [num 9] (Some 2)
  = Err (ValueError msg_not_present).
Proof.
  refine (rechunk_for_cohorts_missing_label [2; 2] (num <$> [1; 2; 3; 1])
            [num 9] (Some 2) _).
  repeat constructor.
Defined.

(** ** The order on labels and [np.unique] *)

#[global] Instance scalar_le_refl : Reflexive scalar_le.
Proof.
  intros [q|s|]; unfold scalar_le; simpl; [|apply (reflexivity (R := String.le))|done].
  apply bool_decide_pack. reflexivity.
Qed.

#[global] Instance scalar_le_trans : Transitive scalar_le.
Proof.
  intros [q1|s1|] [q2|s2|] [q3|s3|]; unfold scalar_le; simpl; try done.
  - intros H1%bool_decide_unpack H2%bool_decide_unpack.
    apply bool_decide_pack. by etrans.
  - apply (transitivity (R := String.le)).
Qed.

#[global] Instance scalar_le_antisym : AntiSymm (=) scalar_le.
Proof.
  intros [q1|s1|] [q2|s2|]; unfold scalar_le; simpl; try done.
  - intros H1%bool_decide_unpack H2%bool_decide_unpack.
    f_equal. by apply (anti_symm Qcle).
  - intros H1 H2. f_equal. by apply (anti_symm String.le).
Qed.

#[global] Instance scalar_le_total : Total scalar_le.
Proof.
  intros [q1|s1|] [q2|s2|]; unfold scalar_le; simpl; auto.
  - destruct (total Qcle q1 q2); [left|right]; by apply bool_decide_pack.
  - apply (total String.le).
Qed.

Lemma dedup_sorted_subseteq l : dedup_sorted l ⊆ l.
Proof.
  induction l as [|x l IH]; [done|].
  destruct l as [|y l]; [done|].
  change (dedup_sorted (x :: y :: l))
    with (if decide (x = y) then dedup_sorted (y :: l)
          else x :: dedup_sorted (y :: l)).
  destruct (decide (x = y)).
  - by apply list_subseteq_cons.
  - by apply list_subseteq_skip.
Qed.

Lemma dedup_sorted_supseteq l : l ⊆ dedup_sorted l.
Proof.
  induction l as [|x l IH]; [done|].
  destruct l as [|y l]; [done|].
  change (dedup_sorted (x :: y :: l))
    with (if decide (x = y) then dedup_sorted (y :: l)
          else x :: dedup_sorted (y :: l)).
  destruct (decide (x = y)) as [->|].
  - intros z [->|Hz]%elem_of_cons; apply IH; [left|done].
  - by apply list_subseteq_skip.
Qed.

Lemma dedup_sorted_NoDup l : StronglySorted scalar_le l → NoDup (dedup_sorted l).
Proof.
  induction 1 as [|x l Hl IH Hx]; [constructor|].
  destruct l as [|y l]; [apply NoDup_singleton|].
  change (dedup_sorted (x :: y :: l))
    with (if decide (x = y) then dedup_sorted (y :: l)
          else x :: dedup_sorted (y :: l)).
  destruct (decide (x = y)) as [->|Hne]; [done|].
  constructor; [|done].
  intros Hin%dedup_sorted_subseteq.
  apply elem_of_cons in Hin as [->|Hin]; [done|].
  apply StronglySorted_inv in Hl as [_ Hy].
  apply Hne, (anti_symm scalar_le).
  - by eapply Forall_inv.
  - by eapply List.Forall_forall in Hy; [|apply list_elem_of_In].
Qed.

Lemma np_unique_elem_of l x : x ∈ np_unique l ↔ x ∈ l.
Proof.
  unfold np_unique. rewrite <- (merge_sort_Permutation scalar_le l) at 2. split.
  - apply dedup_sorted_subseteq.
  - apply dedup_sorted_supseteq.
Qed.

Lemma np_unique_NoDup l : NoDup (np_unique l).
Proof. apply dedup_sorted_NoDup, StronglySorted_merge_sort; apply _. Qed.

Lemma np_unique_sorted_dedup l :
  StronglySorted scalar_le l → StronglySorted scalar_le (dedup_sorted l).
Proof.
  induction 1 as [|x l Hl IH Hx]; [constructor|].
  destruct l as [|y l]; [by repeat constructor|].
  change (dedup_sorted (x :: y :: l))
    with (if decide (x = y) then dedup_sorted (y :: l)
          else x :: dedup_sorted (y :: l)).
  destruct (decide (x = y)); [done|].
  constructor; [done|].
  apply List.Forall_forall. intros z Hz%list_elem_of_In%dedup_sorted_subseteq.
  by eapply List.Forall_forall in Hx; [|apply list_elem_of_In].
Qed.

Lemma np_unique_sorted l : StronglySorted scalar_le (np_unique l).
Proof. apply np_unique_sorted_dedup, StronglySorted_merge_sort; apply _. Qed.

(** ** Cohorts *)

Lemma dict_append_values {K V} `{EqDecision K} (d : dict K (list V)) k x :
  mjoin (dict_values (dict_append d k x)) ≡ₚ mjoin (dict_values d) ++ [x].
Proof.
  unfold dict_values. induction d as [|[k' xs] d IH]; simpl; [done|].
  destruct (decide (k' = k)); simpl.
  - by rewrite <- !app_assoc, (Permutation_app_comm [x]).
  - by rewrite IH, app_assoc.
Qed.

(** [toolz.groupby] distributes the sequence over the groups: together the
    groups hold every element once. *)
Lemma tlz_groupby_fold_values {A K} `{EqDecision K} (key : A → K) seq d :
  mjoin (dict_values (fold_left (λ d x, dict_append d (key x) x) seq d))
  ≡ₚ mjoin (dict_values d) ++ seq.
Proof.
  revert d. induction seq as [|x seq IH]; intros d; simpl.
  - by rewrite app_nil_r.
  - by rewrite IH, dict_append_values, <- app_assoc.
Qed.

Lemma tlz_groupby_values {A K} `{EqDecision K} (key : A → K) seq :
  mjoin (dict_values (tlz_groupby key seq)) ≡ₚ seq.
Proof. unfold tlz_groupby. by rewrite tlz_groupby_fold_values. Qed.

Lemma np_repeat_Ok a repeats out :
  np_repeat a repeats = Ok out → length a = length repeats →
  Forall (Z.le 0) repeats ∧ Z.of_nat (length out) = sumZ repeats.
Proof.
  unfold np_repeat. destruct (existsb _ repeats) eqn:Hneg; [done|].
  intros [= <-] Hlen.
  assert (Forall (Z.le 0) repeats) as Hpos.
  { apply List.Forall_forall. intros c Hc.
    destruct (Z.ltb_spec c 0) as [Hlt|]; [|done].
    assert (existsb (λ c, c <? 0) repeats = true) as Hex; [|congruence].
    apply existsb_exists. exists c. split; [done|]. by apply Z.ltb_lt. }
  split; [done|]. clear Hneg.
  revert a Hlen. induction Hpos as [|r repeats Hr _ IH]; intros [|x a] Hlen;
    simplify_eq/=; [done|].
  rewrite length_app, length_replicate, Nat2Z.inj_add, IH by done. lia.
Qed.

Lemma np_repeat_Err a repeats e :
  np_repeat a repeats = Err e → ∃ c, c ∈ repeats ∧ c < 0.
Proof.
  unfold np_repeat. destruct (existsb _ repeats) eqn:Hneg; [|done].
  intros _. apply existsb_exists in Hneg as (c & Hc & Hlt).
  exists c. split; [by apply list_elem_of_In|]. by apply Z.ltb_lt.
Qed.

Lemma mapM_Err {A B} (f : A → result B) l e :
  mapM f l = Err e → ∃ x, x ∈ l ∧ f x = Err e.
Proof.
  induction l as [|x l IH]; simpl; [done|].
  destruct (f x) as [y|e'] eqn:Hx; simpl.
  - destruct (mapM f l) as [ys|e'']; simpl; [done|].
    intros [= ->]. destruct IH as (z & Hz & Hfz); [done|].
    exists z. split; [by right|done].
  - intros [= ->]. exists x. split; [by left|done].
Qed.

Lemma label_chunks_keys (which_chunk : list Z) labels uniq label_chunks :
  mapM (λ lab, present ← np_mask_index which_chunk (np_eq lab <$> labels);
               Ok (lab, np_uniqueZ present)) uniq = Ok label_chunks →
  dict_keys label_chunks = uniq.
Proof.
  revert label_chunks. induction uniq as [|lab uniq IH]; intros lc; simpl.
  - by intros [= <-].
  - destruct (np_mask_index _ _) as [present|]; simpl; [|done].
    destruct (mapM _ uniq) as [lc'|]; simpl; [|done].
    intros [= <-]. unfold dict_keys in *. simpl. f_equal. by apply IH.
Qed.

Lemma NoDup_mjoin_disjoint (cohorts : list (list scalar)) :
  NoDup (mjoin cohorts) → cohorts_disjoint cohorts.
Proof.
  intros Hnd. assert (∀ i j ci cj lab,
    cohorts !! i = Some ci → cohorts !! j = Some cj → (i < j)%nat →
    lab ∈ ci → lab ∉ cj) as Hlt.
  { induction cohorts as [|c cohorts IH]; [done|].
    simpl in Hnd. apply NoDup_app in Hnd as (_ & Hdis & Hnd).
    intros [|i] [|j] ci cj lab Hi Hj Hij Hci Hcj; simplify_eq/=; [lia| |lia|].
    - apply (Hdis lab Hci). apply list_elem_of_join. exists cj.
      split; [done|]. by eapply list_elem_of_lookup_2.
    - eapply (IH Hnd i j); eauto. lia. }
  intros i j ci cj lab Hi Hj Hij Hci Hcj.
  destruct (Nat.lt_total i j) as [?|[?|?]]; [|done|].
  - by eapply (Hlt i j).
  - by eapply (Hlt j i cj ci lab).
Qed.

(** C8 (cohort partition totality).  For every label array and chunk tuple,
    [find_group_cohorts] with [merge=False] either returns cohorts that are
    pairwise disjoint and whose union is the set of labels present, or it
    raises, and it raises only on a negative chunk size or when a non-empty
    label array is not as long as the chunks say. *)
Theorem find_group_cohorts_partition labels chunks :
  match find_group_cohorts labels chunks false with
  | Ok cohorts => cohorts_cover cohorts labels ∧ cohorts_disjoint cohorts
  | Err _ => (∃ c, c ∈ chunks ∧ c < 0)
             ∨ (labels ≠ [] ∧ sumZ chunks ≠ Z.of_nat (length labels))
  end.
Proof.
  unfold find_group_cohorts.
  destruct (np_repeat _ chunks) as [which_chunk|e] eqn:Hrep; simpl.
  2: { left. by eapply np_repeat_Err. }
  apply np_repeat_Ok in Hrep as [Hpos Hwc];
    [|by rewrite np_arange_length, Nat2Z.id].
  destruct (mapM _ (np_unique labels)) as [label_chunks|e] eqn:Hmap; simpl.
  - apply label_chunks_keys in Hmap. rewrite Hmap.
    pose proof (tlz_groupby_values (dict_get label_chunks) (np_unique labels))
      as Hperm.
    split.
    + intros lab. rewrite <- np_unique_elem_of, <- Hperm, list_elem_of_join.
      split; intros (c & ? & ?); eauto.
    + apply NoDup_mjoin_disjoint. rewrite Hperm. apply np_unique_NoDup.
  - right. apply mapM_Err in Hmap as (lab & Hlab & Herr).
    apply np_unique_elem_of in Hlab. split; [by intros ->; inv Hlab|].
    unfold np_mask_index in Herr. rewrite length_fmap in Herr.
    destruct (Nat.eqb_spec (length which_chunk) (length labels)) as [Heq|Hne];
      [done|]. lia.
Qed.

Example find_group_cohorts_repeating :
  find_group_cohorts (num <$> [1; 2; 3; 1; 2; 3; 4; 1; 2; 3; 4; 5]) [4; 4; 4]
    false
  = Ok [[num 1]; [num 2; num 3]; [num 4]; [num 5]].
Proof. vm_compute. reflexivity. Qed.

Example find_group_cohorts_repeating_merged :
  find_group_cohorts (num <$> [1; 2; 3; 1; 2; 3; 4; 1; 2; 3; 4; 5]) [4; 4; 4]
    true
  = Ok [[num 1]; [num 2; num 3; num 4; num 5]].
Proof. vm_compute. reflexivity. Qed.

(** ** Reindexing *)

Lemma np_eq_refl x : isnull x = false → np_eq x x = true.
Proof. destruct x; simpl; [| |done]; intros _; by apply bool_decide_eq_true. Qed.

Lemma np_eq_eq x y : np_eq x y = true → x = y ∧ isnull x = false.
Proof.
  destruct x, y; simpl; try done;
    intros ->%bool_decide_eq_true; done.
Qed.

Lemma forallb_np_eq_diag g :
  NaN ∉ g → forallb (λ p, np_eq p.1 p.2) (zip g g) = true.
Proof.
  induction g as [|x g IH]; [done|]. intros Hnan. simpl.
  rewrite np_eq_refl, IH; [done| |].
  - intros ?. apply Hnan. by right.
  - destruct x; try done. exfalso. apply Hnan. by left.
Qed.

Lemma np_contains_true from_ label :
  np_contains from_ label = true ↔ label ∈ from_ ∧ isnull label = false.
Proof.
  unfold np_contains. rewrite existsb_exists. split.
  - intros (x & Hx & [-> Hn]%np_eq_eq). split; [by apply list_elem_of_In|done].
  - intros [Hin Hn]. exists label. split; [by apply list_elem_of_In|].
    by apply np_eq_refl.
Qed.

Lemma index_in_range from_ label :
  -1 ≤ index_in from_ label < Z.of_nat (length from_).
Proof.
  unfold index_in. destruct (list_find _ from_) as [[i x]|] eqn:Hf; [|lia].
  apply list_find_Some in Hf as (Hi%lookup_lt_Some & _). lia.
Qed.

Lemma index_in_absent from_ label :
  index_in from_ label = -1 ↔ np_contains from_ label = false.
Proof.
  unfold index_in, np_contains.
  destruct (list_find _ from_) as [[i x]|] eqn:Hf.
  - apply list_find_Some in Hf as (Hi & Hx & _). split; [lia|].
    intros Hex. exfalso.
    assert (existsb (np_eq label) from_ = true) as Ht; [|congruence].
    apply existsb_exists. exists x. split.
    + apply list_elem_of_In. by eapply list_elem_of_lookup_2.
    + apply np_eq_eq in Hx as [-> Hn]. by apply np_eq_refl.
  - split; [intros _|done]. apply not_true_is_false.
    intros (x & Hx & Heq)%existsb_exists.
    apply list_find_None in Hf.
    apply List.Forall_forall with (x := x) in Hf; [|done].
    apply Hf. apply np_eq_eq in Heq as [-> Hn]. by apply np_eq_refl.
Qed.

Lemma existsb_index_absent from_ to :
  existsb (λ i, i =? -1) (index_in from_ <$> to) = true
  ↔ ∃ label, label ∈ to ∧ np_contains from_ label = false.
Proof.
  rewrite existsb_exists. split.
  - intros (i & Hi%list_elem_of_In & Heq%Z.eqb_eq).
    apply list_elem_of_fmap in Hi as (label & -> & Hl).
    exists label. split; [done|]. by apply index_in_absent.
  - intros (label & Hl & Habs). exists (index_in from_ label). split.
    + apply list_elem_of_In, list_elem_of_fmap. eauto.
    + apply Z.eqb_eq. by apply index_in_absent.
Qed.

Example reindex_fill :
  reindex_ (arr1 [V 3; V 2]) [num 0; num 1] [num 0; num 1; num 2] (Some (V 0))
  = Ok (arr1 [V 3; V 2; V 0]).
Proof. vm_compute. reflexivity. Qed.

Example reindex_reorder_rows :
  reindex_ (NdArray [2; 2] [V 1; V 2; V 3; V 4]) [Str "a"; Str "b"]
    [Str "b"; Str "a"] None
  = Ok (NdArray [2; 2] [V 2; V 1; V 4; V 3]).
Proof. vm_compute. reflexivity. Qed.

Lemma shape_trail_1 (sh : list Z) x :
  shape_trail sh 1 = [x] →
  py_index sh (-1) = Ok x ∧ sh = shape_lead sh 1 ++ [x].
Proof.
  unfold shape_trail, shape_lead. intros Hd.
  assert (sh = take (length sh - 1) sh ++ [x]) as Hsh.
  { rewrite <- Hd. by rewrite take_drop. }
  split; [|done].
  rewrite py_index_last by (intros ->; done).
  f_equal. rewrite Hsh at 1. apply last_snoc.
Qed.

Lemma np_prod_app l1 l2 : np_prod (l1 ++ l2) = np_prod l1 * np_prod l2.
Proof. induction l1 as [|x l1 IH]; simpl; [lia|]. rewrite IH. lia. Qed.

Lemma np_prod_nonneg l : Forall (Z.le 0) l → 0 ≤ np_prod l.
Proof. induction 1; simpl; lia. Qed.

Lemma nd_row_length {A} (n rows r : nat) (d : list A) :
  length d = (rows * n)%nat → (r < rows)%nat → length (nd_row n d r) = n.
Proof.
  intros Hd Hr. unfold nd_row. rewrite length_take, length_drop. nia.
Qed.

(** Rows cut from well-formed data can be read at every index the reindexer
    computes. *)
Lemma take_rows_Ok (idx : list Z) (n rows : nat) (d : list value) :
  length d = (rows * n)%nat → (0 < n)%nat →
  Forall (λ i, -1 ≤ i < Z.of_nat n) idx →
  ∃ taken, mapM (λ r, take_row idx (nd_row n d r)) (seq 0 rows) = Ok taken.
Proof.
  intros Hd Hn Hidx.
  apply (mapM_total _ (λ r, (r < rows)%nat)).
  - intros r Hr. unfold take_row.
    destruct (np_take_Ok (nd_row n d r) idx) as [ys [-> _]]; [|eauto].
    rewrite (nd_row_length n rows r d Hd Hr).
    eapply Forall_impl; [exact Hidx|]. simpl. intros; lia.
  - apply List.Forall_forall. intros r Hr%in_seq. lia.
Qed.

Lemma wf_array_rows {A} (a : ndarray A) x :
  wf_array a → shape_trail (shape a) 1 = [x] →
  0 ≤ x ∧ length (data a)
          = (Z.to_nat (np_prod (shape_lead (shape a) 1)) * Z.to_nat x)%nat.
Proof.
  intros [Hpos Hlen] Htr. apply shape_trail_1 in Htr as [_ Hsh].
  rewrite Hsh in Hpos. apply Forall_app in Hpos as [Hlead Hx].
  apply Forall_inv in Hx. split; [done|].
  rewrite Hlen. rewrite Hsh at 1. rewrite np_prod_app. simpl.
  pose proof (np_prod_nonneg _ Hlead). rewrite Z.mul_1_r. lia.
Qed.

Lemma reindex_missing_fill_iff array from_ to fill_value :
  wf_array array →
  shape_trail (shape array) 1 = [Z.of_nat (length from_)] →
  reindex_ array from_ to fill_value = Err (ValueError msg_filling)
  ↔ fill_value = None ∧ from_ ≠ []
    ∧ ∃ label, label ∈ to ∧ np_contains from_ label = false.
Proof.
  intros Hwf Htr. unfold reindex_.
  destruct (_ && _) eqn:Hsame.
  { (* the short circuit: every target label equals a source label *)
    split; [done|]. intros (_ & _ & label & Hl & Habs). exfalso.
    apply andb_true_iff in Hsame as [Hlen%Nat.eqb_eq Hall].
    rewrite forallb_forall in Hall.
    apply list_elem_of_lookup in Hl as [i Hi].
    destruct (lookup_lt_is_Some_2 from_ i) as [x Hx];
      [rewrite Hlen; by eapply lookup_lt_Some|].
    specialize (Hall (x, label)). simpl in Hall.
    assert (np_eq x label = true) as Heq.
    { apply Hall, list_elem_of_In, list_elem_of_lookup. exists i.
      by apply lookup_zip_with_Some; eauto. }
    apply np_eq_eq in Heq as [-> Hn].
    assert (np_contains from_ label = true); [|congruence].
    apply np_contains_true. split; [|done]. by eapply list_elem_of_lookup_2. }
  destruct (shape_trail_1 _ _ Htr) as [-> _]. cbn [mbind result_bind].
  destruct (wf_array_rows array _ Hwf Htr) as [_ Hrows].
  rewrite Nat2Z.id in Hrows.
  destruct (Z.eqb_spec (Z.of_nat (length from_)) 0) as [H0|H0].
  { split; [done|]. intros (_ & Hne & _). destruct from_; [done|simpl in H0; lia]. }
  destruct (Nat.eqb_spec (length to) 0) as [Ht|Ht].
  { split; [done|]. intros (_ & _ & label & Hl & _).
    destruct to; [by apply elem_of_nil in Hl|done]. }
  rewrite Nat2Z.id.
  destruct (take_rows_Ok (index_in from_ <$> to) (length from_)
              (Z.to_nat (np_prod (shape_lead (shape array) 1))) (data array))
    as [taken ->]; [done|lia| |].
  { apply Forall_fmap, List.Forall_forall. intros label _. simpl.
    apply index_in_range. }
  cbn [mbind result_bind].
  destruct (existsb _ _) eqn:Hex.
  - apply existsb_index_absent in Hex.
    destruct fill_value as [fv|].
    + split; [done|]. by intros [? _].
    + split; [|done]. intros _. split; [done|]. split; [|done].
      intros ->. simpl in H0. lia.
  - split; [done|]. intros (_ & _ & Habs). apply existsb_index_absent in Habs.
    congruence.
Qed.

Lemma reindex_all_present_ok array from_ to fill_value :
  wf_array array →
  shape_trail (shape array) 1 = [Z.of_nat (length from_)] →
  to ≠ [] → (∀ label, label ∈ to → np_contains from_ label = true) →
  is_ok (reindex_ array from_ to fill_value) = true.
Proof.
  intros Hwf Htr Hto Hall. unfold reindex_.
  destruct (_ && _); [done|].
  destruct (shape_trail_1 _ _ Htr) as [-> _]. cbn [mbind result_bind].
  destruct (wf_array_rows array _ Hwf Htr) as [_ Hrows].
  rewrite Nat2Z.id in Hrows.
  destruct (Z.eqb_spec (Z.of_nat (length from_)) 0) as [H0|H0]; [done|].
  destruct (Nat.eqb_spec (length to) 0) as [Ht|Ht]; [by destruct to|].
  rewrite Nat2Z.id.
  destruct (take_rows_Ok (index_in from_ <$> to) (length from_)
              (Z.to_nat (np_prod (shape_lead (shape array) 1))) (data array))
    as [taken ->]; [done|lia| |].
  { apply Forall_fmap, List.Forall_forall. intros label _. simpl.
    apply index_in_range. }
  cbn [mbind result_bind].
  destruct (existsb _ _) eqn:Hex; [|done].
  apply existsb_index_absent in Hex as (label & Hl & Habs).
  rewrite Hall in Habs; done.
Qed.

(** C6 (idempotent reindex), amended.  Reindexing an array onto the group set
    [g] it is already labelled by returns it unchanged, for every fill value,
    [None] included, when [g] holds no NaN marker. *)
Theorem reindex_same_groups_noop r g fill_value :
  NaN ∉ g → reindex_ r g g fill_value = Ok r.
Proof.
  intros Hnan. unfold reindex_.
  by rewrite Nat.eqb_refl, forallb_np_eq_diag.
Qed.

Lemma reindex_same_groups_noop_witness :
  reindex_ (arr1 [V 2; V 4; V 5; V 1]) [Str "a"; Str "b"; Str "c"; Str "f"]
    [Str "a"; Str "b"; Str "c"; Str "f"] None
  = Ok (arr1 [V 2; V 4; V 5; V 1]).
Proof.
  refine (reindex_same_groups_noop (arr1 [V 2; V 4; V 5; V 1])
            [Str "a"; Str "b"; Str "c"; Str "f"] None _).
  intros H. repeat (apply elem_of_cons in H as [H|H]; [discriminate H|]).
  by apply elem_of_nil in H.
Defined.

(** C6 as stated fails on a group set with the NaN marker, such as the one an
    all-missing block is given: NaN equals nothing, so the short circuit is
    not taken and the cell is refilled, or the call raises without a fill
    value. *)
Lemma reindex_nan_groups_not_noop :
  reindex_ (arr1 [V 5]) [NaN] [NaN] (Some (V 0)) = Ok (arr1 [V 0])
  ∧ reindex_ (arr1 [V 5]) [NaN] [NaN] None = Err (ValueError msg_filling)
  ∧ ¬ (∀ r g fill_value,
         shape_trail (shape r) 1 = [Z.of_nat (length g)] →
         reindex_ r g g fill_value = Ok r).
Proof.
  split; [done|]. split; [done|].
  intros H. specialize (H (arr1 [V 5]) [NaN] None eq_refl). discriminate H.
Qed.

(** C7 (missing-fill-value error), amended.  On a well-formed array whose last
    axis is labelled by [from_], [reindex_] raises the missing-fill-value
    error exactly when [fill_value] is [None], the axis is not empty, and
    [to] holds a group equal to no group of [from_]; and when [to] is not
    empty and all its groups are in [from_], the call succeeds whatever
    [fill_value] is. *)
Theorem reindex_missing_fill_error array from_ to fill_value :
  wf_array array →
  shape_trail (shape array) 1 = [Z.of_nat (length from_)] →
  (reindex_ array from_ to fill_value = Err (ValueError msg_filling)
   ↔ fill_value = None ∧ from_ ≠ []
     ∧ ∃ label, label ∈ to ∧ np_contains from_ label = false)
  ∧ (to ≠ [] → (∀ label, label ∈ to → np_contains from_ label = true) →
     is_ok (reindex_ array from_ to fill_value) = true).
Proof.
  intros Hwf Htr. split.
  - by apply reindex_missing_fill_iff.
  - by apply reindex_all_present_ok.
Qed.

Lemma reindex_missing_fill_error_witness :
  (reindex_ (arr1 [V 3; V 2]) [num 0; num 1] [num 0; num 2] None
   = Err (ValueError msg_filling)
   ↔ @None value = None ∧ [num 0; num 1] ≠ []
     ∧ ∃ label, label ∈ [num 0; num 2]
                ∧ np_contains [num 0; num 1] label = false)
  ∧ ([num 0; num 2] ≠ [] →
     (∀ label, label ∈ [num 0; num 2] →
               np_contains [num 0; num 1] label = true) →
     is_ok (reindex_ (arr1 [V 3; V 2]) [num 0; num 1] [num 0; num 2] None)
     = true).
Proof.
  refine (reindex_missing_fill_error (arr1 [V 3; V 2]) [num 0; num 1]
            [num 0; num 2] None _ _).
  - split; [repeat constructor; discriminate|reflexivity].
  - reflexivity.
Defined.

(** C7 as stated fails on an array that is empty along the group axis (every
    group was missing): the absent target group is filled although
    [fill_value] is [None], and nothing is raised. *)
Lemma reindex_empty_axis_no_error :
  np_contains [] (num 1) = false
  ∧ reindex_ (arr1 []) [] [num 1] None = Ok (arr1 [VNaN]).
Proof. split; reflexivity. Qed.

Example reindex_missing_fill_raises :
  reindex_ (arr1 [V 3; V 2]) [num 0; num 1] [num 0; num 2] None
  = Err (ValueError msg_filling).
Proof. vm_compute. reflexivity. Qed.

Example reindex_permutation_without_fill :
  reindex_ (arr1 [V 3; V 2]) [num 0; num 1] [num 1; num 0] None
  = Ok (arr1 [V 2; V 3]).
Proof. vm_compute. reflexivity. Qed.

(** ** The label factorizer *)






(** ** Sentinel isolation in the chunk reducer *)

Lemma mapM_ext {A B} (f g : A → result B) l :
  (∀ x, x ∈ l → f x = g x) → mapM f l = mapM g l.
Proof.
  induction l as [|x l IH]; intros Hfg; simpl; [done|].
  rewrite (Hfg x) by left. rewrite IH; [done|].
  intros y Hy. apply Hfg. by right.
Qed.


Lemma nd_row_mjoin {A} (m : nat) (ls : list (list A)) (r : nat) l :
  Forall (λ l, length l = m) ls → ls !! r = Some l →
  nd_row m (mjoin ls) r = l.
Proof.
  intros Hlen. revert r l.
  induction Hlen as [|l0 ls Hl0 Hls IH]; intros r l Hr; [done|].
  unfold nd_row in *. destruct r as [|r]; simpl in *.
  - injection Hr as ->. by rewrite drop_0, take_app_length'.
  - rewrite drop_app_add' by done. by apply IH.
Qed.







Lemma maxZ_elem_of l : l ≠ [] → maxZ l ∈ l.
Proof.
  destruct l as [|y l]; [done|]. intros _. simpl.
  induction l as [|z l IH] in y |- *; simpl; [left|].
  destruct (Z.max_spec z (foldr Z.max y l)) as [[_ ->]|[_ ->]].
  - specialize (IH y). apply elem_of_cons in IH as [->|IH]; [left|].
    by right; right.
  - right; left.
Qed.

(** When a cell carries the largest code that occurs, that code is [maxZ]. *)
Lemma maxZ_eq l s : Forall (λ c, c ≤ s) l → s ∈ l → maxZ l = s.
Proof.
  intros Hle Hin. apply Z.le_antisymm.
  - assert (l ≠ []) as Hne by (intros ->; by apply elem_of_nil in Hin).
    pose proof (maxZ_elem_of l Hne) as Hm.
    by eapply List.Forall_forall in Hle; [|apply list_elem_of_In].
  - by apply maxZ_ge.
Qed.










Example chunk_reduce_missing_label :
  chunk_reduce (arr1 [V 1; V 99; V 3]) (arr1 [Str "b"; NaN; Str "a"])
    [k_nansum; k_nanlen] None (AxSeq [0]) [Some (V 0); Some (V 0)] false false
  = Ok (mkResults (arr1 [Str "a"; Str "b"])
                  [arr1 [V 3; V 1]; arr1 [V 1; V 1]]).
Proof. vm_compute. reflexivity. Qed.

Example chunk_reduce_all_missing :
  chunk_reduce (arr1 [V 1; V 2; V 3]) (arr1 [NaN; NaN; NaN])
    [k_nansum] None (AxSeq [0]) [Some (V 0)] false false
  = Ok (mkResults (arr1 [NaN]) [arr1 [V 0]]).
Proof. vm_compute. reflexivity. Qed.

(** In offset mode a missing label makes numpy_groupies refuse the codes: the
    sentinel [size + 1] is not below the [size] it is given. *)
Example chunk_reduce_offset_missing :
  chunk_reduce (NdArray [2; 3] [V 1; V 2; V 3; V 4; V 5; V 6])
    (NdArray [2; 3] [Str "a"; Str "b"; Str "a"; Str "b"; NaN; Str "a"])
    [k_nansum] None (AxSeq [1]) [Some (V 0)] false false
  = Err (ValueError msg_ravel).
Proof. vm_compute. reflexivity. Qed.

Example chunk_reduce_offset :
  chunk_reduce (NdArray [2; 3] [V 1; V 2; V 3; V 4; V 5; V 6])
    (NdArray [2; 3] [Str "a"; Str "b"; Str "a"; Str "b"; Str "b"; Str "a"])
    [k_nansum] None (AxSeq [1]) [Some (V 0)] false false
  = Ok (mkResults (arr1 [Str "a"; Str "b"])
                  [NdArray [2; 2] [V 4; V 2; V 6; V 9]]).
Proof. vm_compute. reflexivity. Qed.

(** ** Scenarios of [groupby_reduce] on numpy arrays *)

(** C2.  Twelve ones labelled a a c c c b b c c b b f, kernel ["sum"],
    [min_count=None]: the groups are a, b, c, f and their sums 2, 4, 5, 1.
    This holds whatever [skipna] is, and for every catalog whose entry for
    the kernel's name carries that name, whatever its fill values. *)
Theorem groupby_reduce_sum_scenario (aggs : catalog) (skipna : option bool)
    (fills : list (option value)) (final : option value)
    (chunk combine : list string) fin rt :
  let func := if default true skipna then "nansum" else "sum" in
  aggs func = Some (mkAggregation func chunk combine fin fills final rt) →
  groupby_reduce aggs (arr1 scenario_ones) None (arr1 scenario_labels) "sum"
    None false AxNone None skipna None
  = Ok (arr1 [V 2; V 4; V 5; V 1],
        Some [Str "a"; Str "b"; Str "c"; Str "f"]).
Proof.
  intros func Hagg. unfold groupby_reduce.
  assert (resolve_func "sum" skipna None = Ok func) as ->.
  { subst func. by destruct skipna as [[]|]. }
  cbn [mbind result_bind negb bool_decide]. 
  change (resolve_axis AxNone (length (shape (arr1 scenario_ones)))
            (length (shape (arr1 scenario_labels)))) with (Ok [0] : result (list Z)).
  cbn [mbind result_bind]. 
  change ((length [0] <? length (shape (arr1 scenario_labels)))%nat) with false.
  cbn [mbind result_bind]. rewrite Hagg. cbn [mbind result_bind].
  subst func. destruct (default true skipna); destruct final; vm_compute; reflexivity.
Qed.

Lemma groupby_reduce_sum_scenario_witness :
  groupby_reduce aggregations (arr1 scenario_ones) None (arr1 scenario_labels)
    "sum" None false AxNone None None None
  = Ok (arr1 [V 2; V 4; V 5; V 1],
        Some [Str "a"; Str "b"; Str "c"; Str "f"]).
Proof.
  exact (groupby_reduce_sum_scenario aggregations None [Some (V 0)]
           (Some (V 0)) ["nansum"] ["sum"] None Reduce eq_refl).
Defined.

(** C5.  Bin edges 1, 2, 4, 5 ([isbin=True]), labels 1, 1.5, 1.9, 2, 3, kernel
    ["count"], [fill_value=0]: the counts per interval are 3, 2, 0.  Every
    label lies in the half-open interval that starts at the largest edge not
    above it, so 3 falls in [2, 4); the last interval is empty and takes the
    fill value.  The five counted values are arbitrary numbers, and the
    catalog any that has an entry named ["count"]. *)
Theorem groupby_reduce_bins_scenario (aggs : catalog) (v1 v2 v3 v4 v5 : Z)
    (fills : list (option value)) (final : option value)
    (chunk combine : list string) fin rt (skipna : option bool) :
  skipna ≠ Some true →
  aggs "count" = Some (mkAggregation "count" chunk combine fin fills final rt) →
  groupby_reduce aggs (arr1 [V v1; V v2; V v3; V v4; V v5]) None
    (arr1 [frac 1 1; frac 3 2; frac 19 10; frac 2 1; frac 3 1]) "count"
    (Some (num <$> [1; 2; 4; 5])) true AxNone (Some (V 0)) skipna None
  = Ok (arr1 [V 3; V 2; V 0], Some (num <$> [0; 1; 2]))
  ∧ np_digitize [frac 1 1; frac 3 2; frac 19 10; frac 2 1; frac 3 1]
      (num <$> [1; 2; 4; 5])
    = Ok [1; 1; 1; 2; 2].
Proof.
  intros Hskip Hagg. split; [|vm_compute; reflexivity].
  unfold groupby_reduce.
  assert (resolve_func "count" skipna None = Ok "count") as ->.
  { destruct skipna as [[]|]; [done|done..]. }
  cbn [mbind result_bind negb bool_decide].
  change (resolve_axis AxNone (length (shape (arr1 [V v1; V v2; V v3; V v4; V v5])))
            (length (shape (arr1 [frac 1 1; frac 3 2; frac 19 10; frac 2 1;
                                  frac 3 1]))))
    with (Ok [0] : result (list Z)).
  cbn [mbind result_bind].
  change ((length [0] <? length (shape (arr1 [frac 1 1; frac 3 2; frac 19 10;
                                              frac 2 1; frac 3 1])))%nat)
    with false.
  cbn [mbind result_bind]. rewrite Hagg. cbn [mbind result_bind].
  vm_compute. reflexivity.
Qed.

Lemma groupby_reduce_bins_scenario_witness :
  groupby_reduce aggregations (arr1 [V 1; V 1; V 1; V 1; V 1]) None
    (arr1 [frac 1 1; frac 3 2; frac 19 10; frac 2 1; frac 3 1]) "count"
    (Some (num <$> [1; 2; 4; 5])) true AxNone (Some (V 0)) None None
  = Ok (arr1 [V 3; V 2; V 0], Some (num <$> [0; 1; 2]))
  ∧ np_digitize [frac 1 1; frac 3 2; frac 19 10; frac 2 1; frac 3 1]
      (num <$> [1; 2; 4; 5])
    = Ok [1; 1; 1; 2; 2].
Proof.
  refine (groupby_reduce_bins_scenario aggregations 1 1 1 1 1 [Some (V 0)]
            (Some (V 0)) ["nanlen"] ["sum"] None Reduce None _ eq_refl).
  discriminate.
Defined.

(** The same bins on a dask array cut into blocks of 2, 2 and 1. *)
Example groupby_reduce_bins_chunked :
  groupby_reduce aggregations (arr1 [V 1; V 1; V 1; V 1; V 1])
    (Some ([2; 2; 1], [])) 
    (arr1 [frac 1 1; frac 3 2; frac 19 10; frac 2 1; frac 3 1]) "count"
    (Some (num <$> [1; 2; 4; 5])) true AxNone (Some (V 0)) None None
  = Ok (arr1 [V 3; V 2; V 0], Some (num <$> [0; 1; 2])).
Proof. vm_compute. reflexivity. Qed.

(** ** Chunk invariance of the mapreduce strategy *)

(** *** [pd.factorize] *)

Lemma pd_uniques_fold acc l :
  let r := fold_left (λ acc x, if isnull x || bool_decide (x ∈ acc) then acc
                               else acc ++ [x]) l acc in
  (NoDup acc → NoDup r)
  ∧ (∀ x, x ∈ r ↔ x ∈ acc ∨ (x ∈ l ∧ isnull x = false)).
Proof.
  revert acc. induction l as [|y l IH]; intros acc; simpl.
  - split; [done|]. intros x. split; [by left|].
    intros [?|[?%elem_of_nil _]]; done.
  - destruct (isnull y) eqn:Hy; simpl.
    + destruct (IH acc) as [Hnd Hin]. split; [done|]. intros x.
      rewrite Hin, elem_of_cons. split; [naive_solver|].
      intros [?|[[->|?] ?]]; [by left|congruence|by right].
    + case_bool_decide as Hacc.
      * destruct (IH acc) as [Hnd Hin]. split; [done|]. intros x.
        rewrite Hin, elem_of_cons. split; [naive_solver|].
        intros [?|[[->|?] ?]]; [by left|by left|by right].
      * destruct (IH (acc ++ [y])) as [Hnd Hin]. split.
        { intros Ha. apply Hnd. apply NoDup_app. split; [done|].
          split; [|apply NoDup_singleton].
          by intros x Hx ->%list_elem_of_singleton. }
        intros x. rewrite Hin, elem_of_app, list_elem_of_singleton, elem_of_cons.
        split; [naive_solver|].
        intros [?|[[->|?] ?]]; [by left; left|by left; right|by right].
Qed.

Lemma pd_uniques_NoDup l : NoDup (pd_uniques l).
Proof. apply (pd_uniques_fold [] l), NoDup_nil_2. Qed.

Lemma pd_uniques_elem_of l x :
  x ∈ pd_uniques l ↔ x ∈ l ∧ isnull x = false.
Proof.
  unfold pd_uniques. rewrite (proj2 (pd_uniques_fold [] l) x).
  split; [by intros [?%elem_of_nil|?]|by right].
Qed.

Lemma pd_code_lookup uniques x i :
  NoDup uniques → uniques !! i = Some x → isnull x = false →
  pd_code uniques x = Z.of_nat i.
Proof.
  intros Hnd Hi Hx. unfold pd_code. rewrite Hx.
  destruct (list_find _ uniques) as [[j y]|] eqn:Hf.
  - apply list_find_Some in Hf as (Hj & -> & _).
    by rewrite (NoDup_lookup uniques i j x Hnd Hi Hj).
  - apply list_find_None in Hf.
    apply List.Forall_forall with (x := x) in Hf; [done|].
    apply list_elem_of_In. by eapply list_elem_of_lookup_2.
Qed.

Lemma pd_code_inj uniques x i :
  NoDup uniques → x ∈ uniques → pd_code uniques x = Z.of_nat i →
  uniques !! i = Some x.
Proof.
  intros Hnd Hx. unfold pd_code. destruct (isnull x); [lia|].
  destruct (list_find _ uniques) as [[j y]|] eqn:Hf; [|lia].
  apply list_find_Some in Hf as (Hj & -> & _). intros ->%Nat2Z.inj. done.
Qed.

(** *** [np.argsort] *)

Lemma mapM_fmap_Ok {A B} (f : A → result B) (g : A → B) l :
  (∀ x, x ∈ l → f x = Ok (g x)) → mapM f l = Ok (g <$> l).
Proof.
  induction l as [|x l IH]; intros Hfg; simpl; [done|].
  rewrite (Hfg x) by left. rewrite IH; [done|].
  intros y Hy. apply Hfg. by right.
Qed.

Lemma elem_of_zip_seq {A} (l : list A) s x i :
  (x, i) ∈ zip l (seq s (length l)) → (s ≤ i)%nat ∧ l !! (i - s)%nat = Some x.
Proof.
  revert s. induction l as [|y l IH]; intros s; simpl.
  - by intros ?%elem_of_nil.
  - intros [[= -> ->]|Hin]%elem_of_cons.
    + split; [lia|]. by rewrite Nat.sub_diag.
    + apply IH in Hin as [Hle Hl]. split; [lia|].
      replace (i - s)%nat with (S (i - S s)) by lia. done.
Qed.

Lemma py_index_lookup {A} (l : list A) i x :
  l !! i = Some x → py_index l (Z.of_nat i) = Ok x.
Proof.
  intros Hi. pose proof (lookup_lt_Some _ _ _ Hi). unfold py_index.
  destruct (Z.ltb_spec (Z.of_nat i) 0); [lia|].
  destruct (Z.ltb_spec (Z.of_nat i) 0); [lia|].
  destruct (Z.leb_spec (Z.of_nat (length l)) (Z.of_nat i)); [lia|].
  simpl. by rewrite Nat2Z.id, Hi.
Qed.

Lemma np_argsort_pairs l : np_argsort l = (λ p, Z.of_nat p.2) <$> sorted_pairs l.
Proof. done. Qed.

Lemma sorted_pairs_lookup l x i :
  (x, i) ∈ sorted_pairs l → l !! i = Some x.
Proof.
  unfold sorted_pairs. rewrite merge_sort_Permutation.
  intros [_ H]%elem_of_zip_seq. by rewrite Nat.sub_0_r in H.
Qed.

Lemma sorted_pairs_fst l :
  NoDup l → fst <$> sorted_pairs l = np_unique l.
Proof.
  intros Hnd.
  apply (Sorted_unique scalar_le).
  - unfold sorted_pairs. 
    eapply Sorted_fmap; [|apply Sorted_merge_sort; intros a b; apply (total scalar_le)].
    done.
  - apply StronglySorted_Sorted, np_unique_sorted.
  - unfold sorted_pairs. rewrite merge_sort_Permutation.
    rewrite fst_zip by (rewrite length_seq; lia).
    apply NoDup_Permutation; [done|apply np_unique_NoDup|].
    intros x. by rewrite np_unique_elem_of.
Qed.

Lemma mapM_fmap {A B C} (f : B → result C) (h : A → B) l :
  mapM f (h <$> l) = mapM (λ x, f (h x)) l.
Proof.
  induction l as [|x l IH]; [done|]. rewrite fmap_cons. simpl. by rewrite IH.
Qed.

Lemma np_take_argsort l :
  np_take l (np_argsort l) = Ok (fst <$> sorted_pairs l).
Proof.
  unfold np_take. rewrite np_argsort_pairs, mapM_fmap.
  apply mapM_fmap_Ok. intros [x i] Hin. simpl.
  by apply py_index_lookup, sorted_pairs_lookup.
Qed.

(** *** Group members *)

Lemma filter_snd_fmap {A} (P : A → bool) (ms : list (Z * A)) :
  snd <$> filter (λ p, P p.2 = true) ms = filter (λ v, P v = true) (snd <$> ms).
Proof.
  induction ms as [|[i v] ms IH]; [done|].
  rewrite fmap_cons, !filter_cons. simpl.
  destruct (decide (P v = true)); [rewrite fmap_cons|]; by rewrite IH.
Qed.

Lemma npg_slot_slot_value (k : kernel value) fill off codes row g :
  position_free k →
  npg_slot k fill off codes row g
  = slot_value k fill (snd <$> npg_members off codes row g).
Proof.
  intros Hk. unfold npg_slot, slot_value. rewrite <- filter_snd_fmap.
  destruct (filter _ (npg_members off codes row g)) as [|m ms] eqn:Hf; [done|].
  rewrite fmap_cons. simpl. apply Hk. rewrite !fmap_cons. simpl. f_equal.
  rewrite <- !list_fmap_compose. by apply list_fmap_ext.
Qed.

Lemma npg_members_values {A} (code : scalar → Z) off s labs (vals : list A) c :
  length labs = length vals →
  snd <$> omap (λ '(i, c', x), if c' =? c then Some (off + Z.of_nat i, x) else None)
               (zip (zip (seq s (length vals)) (code <$> labs)) vals)
  = omap (λ '(l, v), if code l =? c then Some v else None) (zip labs vals).
Proof.
  revert s vals. induction labs as [|l labs IH]; intros s [|v vals]; simpl; try done.
  intros [= Hlen]. destruct (code l =? c); simpl; by rewrite IH.
Qed.

Lemma group_values_ext {A} (P Q : scalar → bool) labs (vals : list A) :
  (∀ l, l ∈ labs → P l = Q l) →
  omap (λ '(l, v), if P l then Some v else None) (zip labs vals)
  = omap (λ '(l, v), if Q l then Some v else None) (zip labs vals).
Proof.
  revert vals. induction labs as [|l labs IH]; intros [|v vals] HPQ; simpl; try done.
  rewrite (HPQ l) by left. rewrite IH; [done|]. intros ??. apply HPQ. by right.
Qed.

Lemma codes_1d_members {A} off labs (vals : list A) i g :
  pd_uniques labs !! i = Some g → length labs = length vals →
  snd <$> npg_members off (codes_1d labs) vals (Z.of_nat i)
  = omap (λ '(l, v), if bool_decide (l = g) then Some v else None) (zip labs vals).
Proof.
  intros Hi Hlen. unfold codes_1d, npg_members.
  rewrite <- list_fmap_compose, npg_members_values by done.
  apply group_values_ext. intros l Hl. simpl.
  pose proof (pd_uniques_NoDup labs) as Hnd.
  pose proof (lookup_lt_Some _ _ _ Hi) as Hlt.
  assert (isnull g = false) as Hg.
  { by eapply pd_uniques_elem_of, list_elem_of_lookup_2. }
  unfold np_prod. simpl.
  destruct (isnull l) eqn:Hnull.
  - unfold pd_code. rewrite Hnull. simpl.
    destruct (Z.eqb_spec (Z.of_nat (length (pd_uniques labs)) * 1 + 1) (Z.of_nat i)); [lia|].
    symmetry. apply bool_decide_eq_false. congruence.
  - assert (l ∈ pd_uniques labs) as [j Hj]%list_elem_of_lookup_1
      by by apply pd_uniques_elem_of.
    rewrite (pd_code_lookup _ _ j) by done.
    destruct (Z.eqb_spec (Z.of_nat j) (-1)); [lia|].
    destruct (Z.eqb_spec (Z.of_nat j) (Z.of_nat i)) as [Heq|Hne]; symmetry.
    + apply Nat2Z.inj in Heq as ->. apply bool_decide_eq_true. congruence.
    + apply bool_decide_eq_false. intros ->.
      apply Hne. f_equal. by eapply NoDup_lookup.
Qed.

Lemma factorize_1d labs :
  factorize_ [arr1 labs] (AxInt (-1)) (Some [None]) (Some [false])
  = Ok (mkFactorized (NdArray [Z.of_nat (length (codes_1d labs))] (codes_1d labs))
          [pd_uniques labs] [Z.of_nat (length (pd_uniques labs))]
          (np_prod [Z.of_nat (length (pd_uniques labs))]) None
          (mkFactorProps false (np_prod [Z.of_nat (length (pd_uniques labs))] + 1))).
Proof.
  unfold factorize_, codes_1d.
  cbn -[pd_uniques pd_code Z.mul Z.add Z.of_nat np_prod].
  by rewrite !length_fmap.
Qed.

(** *** One-dimensional arrays *)

Lemma np_prod_1 x : np_prod [x] = x.
Proof. unfold np_prod. simpl. lia. Qed.

Lemma nd_row_0 {A} (d : list A) : nd_row (length d) d 0 = d.
Proof. unfold nd_row. simpl. by rewrite drop_0, firstn_all. Qed.

Lemma codes_1d_length labs : length (codes_1d labs) = length labs.
Proof. unfold codes_1d. by rewrite !length_fmap. Qed.

Lemma codes_1d_range labs c :
  c ∈ codes_1d labs →
  (∃ i g, c = Z.of_nat i ∧ pd_uniques labs !! i = Some g ∧ g ∈ labs)
  ∨ (c = Z.of_nat (length (pd_uniques labs)) + 1 ∧ ∃ l, l ∈ labs ∧ isnull l = true).
Proof.
  unfold codes_1d. rewrite np_prod_1, <- list_fmap_compose.
  intros (l & -> & Hl)%list_elem_of_fmap. simpl.
  destruct (isnull l) eqn:Hnull.
  - right. unfold pd_code. rewrite Hnull. simpl. eauto.
  - left. assert (l ∈ pd_uniques labs) as [j Hj]%list_elem_of_lookup_1
      by by apply pd_uniques_elem_of.
    rewrite (pd_code_lookup _ _ j) by (done || apply pd_uniques_NoDup).
    destruct (Z.eqb_spec (Z.of_nat j) (-1)); [lia|]. eauto.
Qed.

Lemma codes_1d_elem_of labs i g :
  pd_uniques labs !! i = Some g → Z.of_nat i ∈ codes_1d labs.
Proof.
  intros Hi.
  assert (g ∈ labs ∧ isnull g = false) as [Hg Hnull].
  { by eapply pd_uniques_elem_of, list_elem_of_lookup_2. }
  unfold codes_1d. rewrite <- list_fmap_compose.
  apply list_elem_of_fmap. exists g. split; [|done]. simpl.
  rewrite (pd_code_lookup _ _ i) by (done || apply pd_uniques_NoDup).
  by destruct (Z.eqb_spec (Z.of_nat i) (-1)); [lia|].
Qed.

Lemma codes_1d_sentinel labs l :
  l ∈ labs → isnull l = true →
  Z.of_nat (length (pd_uniques labs)) + 1 ∈ codes_1d labs.
Proof.
  intros Hl Hnull. unfold codes_1d. rewrite np_prod_1, <- list_fmap_compose.
  apply list_elem_of_fmap. exists l. split; [|done]. simpl.
  unfold pd_code. by rewrite Hnull.
Qed.

Lemma existsb_false {A} (P : A → bool) l :
  (∀ x, x ∈ l → P x = false) → existsb P l = false.
Proof.
  intros H. destruct (existsb P l) eqn:E; [|done].
  apply existsb_exists in E as (x & Hx%list_elem_of_In & HP).
  by rewrite H in HP.
Qed.

Lemma npg_aggregate_axis_1d (k : kernel value) codes vals fill :
  Forall (Z.le 0) codes → length codes = length vals → codes ≠ [] →
  npg_aggregate_axis codes (NdArray [Z.of_nat (length vals)] vals) k None fill
  = Ok (NdArray [maxZ codes + 1]
          (npg_row k fill (maxZ codes + 1) 0 codes vals)).
Proof.
  intros Hnn Hlen Hne. unfold npg_aggregate_axis.
  rewrite existsb_false; cycle 1.
  { intros c Hc. apply List.Forall_forall with (x := c) in Hnn;
      [|by apply list_elem_of_In]. lia. }
  cbn -[Z.of_nat maxZ Z.add npg_row nd_row np_prod].
  rewrite Hlen, bool_decide_eq_true_2 by done.
  destruct (Nat.eqb_spec (length vals) 0) as [Hn|Hn].
  { destruct codes; [done|simpl in Hlen; lia]. }
  cbn -[Z.of_nat maxZ Z.add npg_row nd_row np_prod].
  rewrite existsb_false; cycle 1.
  { intros c Hc. pose proof (maxZ_ge _ _ Hc). lia. }
  cbn -[Z.of_nat maxZ Z.add npg_row nd_row].
  change (Z.to_nat 1) with 1%nat. simpl seq. rewrite fmap_cons, fmap_nil.
  simpl mjoin. by rewrite nd_row_0, app_nil_r.
Qed.

Lemma py_index_1 {A} (x : A) : py_index [x] (-1) = Ok x.
Proof. done. Qed.

Lemma drop_last_column_1d {A} (r : list A) :
  drop_last_column (NdArray [Z.of_nat (length r)] r)
  = Ok (NdArray [Z.of_nat (length r - 1)] (take (length r - 1) r)).
Proof.
  unfold drop_last_column.
  cbn -[Z.of_nat nd_row Z.to_nat py_index].
  rewrite py_index_1.
  cbn -[Z.of_nat nd_row Z.to_nat].
  change (Z.to_nat 1) with 1%nat. simpl seq. rewrite fmap_cons, fmap_nil.
  simpl mjoin. by rewrite Nat2Z.id, nd_row_0, app_nil_r.
Qed.

Lemma take_last_axis_1d {A} (r : list A) idx out :
  np_take r idx = Ok out →
  take_last_axis (NdArray [Z.of_nat (length r)] r) idx
  = Ok (NdArray [Z.of_nat (length idx)] out).
Proof.
  intros Hout. unfold take_last_axis.
  cbn -[Z.of_nat nd_row Z.to_nat np_take py_index].
  rewrite py_index_1.
  cbn -[Z.of_nat nd_row Z.to_nat np_take].
  change (Z.to_nat 1) with 1%nat. simpl seq. simpl mapM.
  rewrite Nat2Z.id, nd_row_0, Hout. simpl. by rewrite app_nil_r.
Qed.

Lemma np_unique_ext l1 l2 :
  (∀ x, x ∈ l1 ↔ x ∈ l2) → np_unique l1 = np_unique l2.
Proof.
  intros H. apply (Sorted_unique scalar_le).
  - apply StronglySorted_Sorted, np_unique_sorted.
  - apply StronglySorted_Sorted, np_unique_sorted.
  - apply NoDup_Permutation; [apply np_unique_NoDup..|].
    intros x. by rewrite !np_unique_elem_of.
Qed.

Lemma observed_groups_uniques labs :
  np_unique (pd_uniques labs) = observed_groups labs.
Proof.
  apply np_unique_ext. intros x.
  rewrite pd_uniques_elem_of, list_elem_of_filter. tauto.
Qed.

Lemma observed_groups_length labs :
  length (observed_groups labs) = length (pd_uniques labs).
Proof.
  rewrite <- observed_groups_uniques.
  rewrite <- sorted_pairs_fst by apply pd_uniques_NoDup.
  unfold sorted_pairs. rewrite length_fmap, merge_sort_Permutation.
  rewrite length_zip, length_seq. lia.
Qed.

(** The block is empty when no label is found in it. *)
Lemma chunk_empty_iff labs :
  forallb negb ((λ c, negb (c =? Z.of_nat (length (pd_uniques labs)) + 1))
                  <$> codes_1d labs)
  || (Z.of_nat (length labs) =? 0)
  = bool_decide (pd_uniques labs = []).
Proof.
  case_bool_decide as HU.
  - apply orb_true_iff. left. apply forallb_forall.
    intros b (c & -> & Hc)%list_elem_of_In%list_elem_of_fmap.
    apply codes_1d_range in Hc as [(i & g & _ & Hi & _)|[-> _]].
    + by rewrite HU in Hi.
    + by rewrite Z.eqb_refl.
  - apply orb_false_iff.
    assert (∃ g, pd_uniques labs !! 0%nat = Some g) as [g H0].
    { destruct (pd_uniques labs); [done|]. eauto. }
    split.
    + pose proof (codes_1d_elem_of _ _ _ H0) as Hin.
      pose proof (lookup_lt_Some _ _ _ H0) as Hlt.
      destruct (forallb _ _) eqn:E; [|done].
      rewrite forallb_forall in E.
      pose proof (E (negb (Z.of_nat 0 =? Z.of_nat (length (pd_uniques labs)) + 1))) as E'.
      destruct (Z.eqb_spec (Z.of_nat 0) (Z.of_nat (length (pd_uniques labs)) + 1));
        [lia|].
      simpl in E'. symmetry. apply E'.
      apply list_elem_of_In, list_elem_of_fmap. exists (Z.of_nat 0). split; [|done].
      by destruct (Z.eqb_spec (Z.of_nat 0) (Z.of_nat (length (pd_uniques labs)) + 1)).
    + assert (g ∈ labs) as Hg.
      { eapply pd_uniques_elem_of. by eapply list_elem_of_lookup_2. }
      destruct labs; [by apply elem_of_nil in Hg|]. simpl. lia.
Qed.



Lemma np_take_slots {A} labs (r : list A) (H : scalar → A) :
  (∀ i g, pd_uniques labs !! i = Some g → r !! i = Some (H g)) →
  np_take r (np_argsort (pd_uniques labs)) = Ok (H <$> observed_groups labs).
Proof.
  intros Hr. unfold np_take. rewrite np_argsort_pairs, mapM_fmap.
  rewrite <- observed_groups_uniques, <- sorted_pairs_fst by apply pd_uniques_NoDup.
  rewrite <- list_fmap_compose. apply mapM_fmap_Ok.
  intros [g i] Hin%sorted_pairs_lookup. simpl. by apply py_index_lookup, Hr.
Qed.

Lemma codes_1d_nonneg labs : Forall (Z.le 0) (codes_1d labs).
Proof.
  apply List.Forall_forall. intros c Hc%list_elem_of_In.
  apply codes_1d_range in Hc as [(i & g & -> & _)|[-> _]]; lia.
Qed.

Lemma codes_1d_le labs :
  Forall (λ c, c ≤ Z.of_nat (length (pd_uniques labs)) + 1) (codes_1d labs).
Proof.
  apply List.Forall_forall. intros c Hc%list_elem_of_In.
  apply codes_1d_range in Hc as [(i & g & -> & Hi%lookup_lt_Some & _)|[-> _]]; lia.
Qed.

Lemma npg_row_lookup (k : kernel value) fill size off codes row i :
  (Z.of_nat i < size) →
  npg_row k fill size off codes row !! i
  = Some (npg_slot k fill off codes row (Z.of_nat i)).
Proof.
  intros Hi. unfold npg_row, np_arange.
  rewrite !list_lookup_fmap, lookup_seq_lt by lia. done.
Qed.

Lemma reduce_one_1d labs vals k fv ng :
  length labs = length vals → position_free k → pd_uniques labs ≠ [] →
  reduce_one (codes_1d labs) (NdArray [Z.of_nat (length vals)] vals) None
    (existsb negb ((λ c, negb (c =? Z.of_nat (length (pd_uniques labs)) + 1))
                     <$> codes_1d labs))
    false ng [Z.of_nat (length (observed_groups labs))] None
    (pd_uniques labs) (np_argsort (pd_uniques labs)) k fv
  = Ok (arr1 ((λ g, slot_value k (cast_fill fv) (group_values labs vals g))
                <$> observed_groups labs)).
Proof.
  intros Hlen Hk HU. unfold reduce_one.
  assert (codes_1d labs ≠ []) as Hne.
  { intros E. destruct (pd_uniques labs) as [|g U] eqn:EU; [done|].
    assert (pd_uniques labs !! 0%nat = Some g) as H0 by by rewrite EU.
    apply codes_1d_elem_of in H0. rewrite E in H0. by apply elem_of_nil in H0. }
  rewrite npg_aggregate_axis_1d
    by (apply codes_1d_nonneg || by rewrite codes_1d_length || done).
  set (size := maxZ (codes_1d labs) + 1).
  set (row := npg_row k (cast_fill fv) size 0 (codes_1d labs) vals).
  assert (0 ≤ maxZ (codes_1d labs)) as Hmax0.
  { pose proof (maxZ_elem_of _ Hne) as Hm.
    pose proof (codes_1d_nonneg labs) as Hnn.
    by eapply List.Forall_forall in Hnn; [|apply list_elem_of_In]. }
  assert (length row = Z.to_nat size) as Hrow by apply npg_row_length.
  assert (size = Z.of_nat (length row)) as Hsize by lia.
  assert (∀ i g, pd_uniques labs !! i = Some g →
            row !! i = Some (slot_value k (cast_fill fv) (group_values labs vals g)))
    as Hslots.
  { intros i g Hi. pose proof (codes_1d_elem_of _ _ _ Hi) as Hin.
    pose proof (maxZ_ge _ _ Hin). unfold row.
    rewrite npg_row_lookup by lia. f_equal.
    rewrite npg_slot_slot_value by done. f_equal.
    by apply codes_1d_members. }
  cbn -[Z.of_nat maxZ Z.add np_argsort drop_last_column take_last_axis].
  rewrite Hsize.
  destruct (existsb negb _) eqn:Hmasked.
  - apply existsb_exists in Hmasked as (b & (c & -> & Hc)%list_elem_of_In%list_elem_of_fmap & Hb).
    destruct (Z.eqb_spec c (Z.of_nat (length (pd_uniques labs)) + 1)) as [->|];
      [|done].
    pose proof (maxZ_eq _ _ (codes_1d_le labs) Hc) as Hmax.
    rewrite drop_last_column_1d.
    cbn -[Z.of_nat maxZ Z.add np_argsort drop_last_column take_last_axis].
    assert (length (take (length row - 1) row) = (length row - 1)%nat) as Htake
      by (rewrite length_take; lia).
    rewrite <- Htake at 1.
    erewrite take_last_axis_1d; cycle 1.
    { apply np_take_slots. intros i g Hi. rewrite lookup_take_lt; [by apply Hslots|].
      apply lookup_lt_Some in Hi. lia. }
    unfold np_reshape. cbn -[Z.of_nat np_prod].
    rewrite np_prod_1, length_fmap, Z.eqb_refl.
    unfold arr1. by rewrite length_fmap.
  - cbn -[Z.of_nat maxZ Z.add np_argsort drop_last_column take_last_axis].
    erewrite take_last_axis_1d; cycle 1.
    { apply np_take_slots. intros i g Hi. by apply Hslots. }
    unfold np_reshape. cbn -[Z.of_nat np_prod].
    rewrite np_prod_1, length_fmap, Z.eqb_refl.
    unfold arr1. by rewrite length_fmap.
Qed.

Lemma chunk_reduce_1d labs vals ks fvs :
  length labs = length vals → Forall position_free ks →
  chunk_reduce (arr1 vals) (arr1 labs) ks None (AxSeq [0]) fvs false false
  = Ok (spec_reduce labs vals (zip ks fvs)).
Proof.
  intros Hlen Hks. unfold chunk_reduce.
  cbn -[factorize_ pd_uniques pd_code Z.mul Z.add Z.of_nat np_prod np_argsort np_take reduce_one np_full].
  rewrite factorize_1d.
  cbn -[factorize_ pd_uniques pd_code Z.mul Z.add Z.of_nat np_prod np_argsort np_take reduce_one np_full].
  rewrite !np_prod_1. change (Z.of_nat 1 - Z.of_nat 1) with 0.
  unfold shape_upto, np_reshape.
  cbn -[factorize_ pd_uniques pd_code Z.mul Z.add Z.of_nat np_prod np_argsort np_take reduce_one np_full].
  change (take (Z.to_nat 0) [Z.of_nat (length vals)] ++ [Z.of_nat (length vals)])
    with [Z.of_nat (length vals)].
  rewrite np_prod_1, Z.eqb_refl.
  cbn -[factorize_ pd_uniques pd_code Z.mul Z.add Z.of_nat np_prod np_argsort np_take reduce_one np_full].
  rewrite np_take_argsort, sorted_pairs_fst, observed_groups_uniques
    by apply pd_uniques_NoDup.
  cbn -[factorize_ pd_uniques pd_code Z.mul Z.add Z.of_nat np_prod np_argsort np_take reduce_one np_full].
  rewrite chunk_empty_iff.
  pose proof (observed_groups_length labs) as HG.
  unfold spec_reduce.
  case_bool_decide as HU.
  - rewrite HU in HG. destruct (observed_groups labs); [|done].
    erewrite mapM_fmap_Ok; [done|]. by intros [k fv] _.
  - destruct (observed_groups labs) as [|g0 G] eqn:EG.
    { destruct (pd_uniques labs); done. }
    rewrite <- EG. erewrite mapM_fmap_Ok; [by rewrite EG|].
    intros [k fv] Hin%elem_of_zip_l. rewrite EG, <- EG.
    apply reduce_one_1d; [done| |done].
    by eapply List.Forall_forall in Hks; [|apply list_elem_of_In].
Qed.

(** *** The reindexer on one-dimensional arrays *)

Lemma zip_np_eq_eq from_ to :
  length from_ = length to →
  forallb (λ p, np_eq p.1 p.2) (zip from_ to) = true → from_ = to.
Proof.
  revert to. induction from_ as [|x from_ IH]; intros [|y to]; simpl; try done.
  intros [= Hlen] [Hxy Hrest]%andb_true_iff.
  apply np_eq_eq in Hxy as [-> _]. f_equal. by apply IH.
Qed.

Lemma index_in_found from_ g i :
  index_in from_ g = Z.of_nat i → from_ !! i = Some g.
Proof.
  unfold index_in. destruct (list_find _ from_) as [[j x]|] eqn:Hf; [|lia].
  apply list_find_Some in Hf as (Hj & [-> _]%np_eq_eq & _).
  by intros ->%Nat2Z.inj.
Qed.

Lemma index_in_missing from_ g :
  index_in from_ g = -1 → isnull g = true ∨ g ∉ from_.
Proof.
  intros Hidx. destruct (isnull g) eqn:Hg; [by left|right].
  intros Hin. apply index_in_absent in Hidx.
  assert (np_contains from_ g = true) as Ht; [|congruence].
  apply existsb_exists. exists g. split; [by apply list_elem_of_In|].
  by apply np_eq_refl.
Qed.

Lemma reindex_1d (R : scalar → value) from_ to f :
  from_ ≠ [] → to ≠ [] →
  (∀ g, g ∈ to → isnull g = true ∨ g ∉ from_ → R g = f) →
  reindex_ (arr1 (R <$> from_)) from_ to (Some f) = Ok (arr1 (R <$> to)).
Proof.
  intros Hfrom Hto HR. unfold reindex_.
  destruct (_ && _) eqn:Hsc.
  { apply andb_true_iff in Hsc as [Hlen%Nat.eqb_eq Hall].
    by rewrite (zip_np_eq_eq from_ to). }
  clear Hsc.
  cbn -[Z.of_nat nd_row Z.to_nat py_index take_row index_in].
  rewrite py_index_1.
  cbn -[Z.of_nat nd_row Z.to_nat py_index take_row index_in].
  rewrite length_fmap.
  destruct (Z.eqb_spec (Z.of_nat (length from_)) 0) as [E|_].
  { destruct from_; [done|simpl in E; lia]. }
  destruct (Nat.eqb_spec (length to) 0) as [E|_].
  { by destruct to. }
  change (Z.to_nat 1) with 1%nat. simpl seq. simpl mapM.
  rewrite Nat2Z.id, <- (length_fmap R from_), nd_row_0.
  set (T := λ g, match py_index (R <$> from_) (index_in from_ g) with
                 | Ok x => x
                 | Err _ => f
                 end).
  assert (take_row (index_in from_ <$> to) (R <$> from_) = Ok (T <$> to)) as ->.
  { unfold take_row, np_take. rewrite mapM_fmap. apply mapM_fmap_Ok.
    intros g _. unfold T.
    destruct (py_index_Ok (R <$> from_) (index_in from_ g)) as (x & -> & _); [|done].
    pose proof (index_in_range from_ g). rewrite length_fmap.
    assert (length from_ ≠ 0%nat) by by destruct from_. lia. }
  assert (∀ g, g ∈ to → index_in from_ g ≠ -1 → T g = R g) as HT.
  { intros g Hg Hidx. unfold T. pose proof (index_in_range from_ g) as Hr.
    assert (index_in from_ g = Z.of_nat (Z.to_nat (index_in from_ g))) as Hi by lia.
    pose proof (index_in_found _ _ _ Hi) as Hl.
    rewrite Hi. erewrite py_index_lookup; [done|].
    by rewrite list_lookup_fmap, Hl. }
  simpl.
  destruct (existsb _ _) eqn:Hex.
  - f_equal. unfold arr1. rewrite length_fmap, app_nil_r. f_equal.
    unfold fill_row. clear Hex Hto. induction to as [|g to IH]; [done|].
    rewrite !fmap_cons. simpl. f_equal.
    + destruct (Z.eqb_spec (index_in from_ g) (-1)) as [E|E].
      * symmetry. apply HR; [left|]. by apply index_in_missing.
      * apply HT; [left|done].
    + apply IH.
      * intros g' Hg'. apply HR. by right.
      * intros g' Hg'. apply HT. by right.
  - f_equal. unfold arr1. rewrite length_fmap, app_nil_r. f_equal.
    apply list_fmap_ext. intros i g Hg. apply HT; [by eapply list_elem_of_lookup_2|].
    intros E. apply not_true_iff_false in Hex. apply Hex.
    apply existsb_exists. exists (index_in from_ g). split.
    + apply list_elem_of_In, list_elem_of_fmap. exists g. split; [done|].
      by eapply list_elem_of_lookup_2.
    + by apply Z.eqb_eq.
Qed.

(** *** Concatenation of one-dimensional arrays *)



(** *** Blocks and their groups *)

Lemma observed_groups_elem_of labs g :
  g ∈ observed_groups labs ↔ g ∈ labs ∧ isnull g = false.
Proof.
  unfold observed_groups. by rewrite np_unique_elem_of, list_elem_of_filter, (comm and).
Qed.

Lemma result_groups_nonempty labs : result_groups labs ≠ [].
Proof. unfold result_groups. by destruct (observed_groups labs). Qed.

Lemma result_groups_elem_of labs g :
  isnull g = false → g ∈ result_groups labs ↔ g ∈ labs.
Proof.
  intros Hg. unfold result_groups.
  destruct (observed_groups labs) as [|g0 G] eqn:E.
  - split.
    + intros ->%list_elem_of_singleton. done.
    + intros Hin. assert (g ∈ observed_groups labs) as H
        by by apply observed_groups_elem_of.
      rewrite E in H. by apply elem_of_nil in H.
  - rewrite <- E, observed_groups_elem_of. tauto.
Qed.

Lemma group_values_absent labs vals g :
  g ∉ labs → group_values labs vals g = [].
Proof.
  unfold group_values. revert vals.
  induction labs as [|l labs IH]; intros [|v vals] Hg; simpl; try done.
  rewrite bool_decide_eq_false_2.
  - apply IH. intros ?. apply Hg. by right.
  - intros ->. apply Hg. by left.
Qed.




Lemma spec_reduce_alt labs vals ks :
  spec_reduce labs vals ks
  = mkResults (arr1 (result_groups labs))
      ((λ '(k, fv), arr1 (block_slot k (cast_fill fv) labs vals
                            <$> result_groups labs)) <$> ks).
Proof.
  unfold spec_reduce, result_groups.
  destruct (observed_groups labs) as [|g0 G] eqn:E.
  - f_equal.
  - rewrite <- E. f_equal. apply list_fmap_ext. intros _ [k fv] _. f_equal.
    apply list_fmap_ext. intros _ g Hg%list_elem_of_lookup_2.
    apply observed_groups_elem_of in Hg as [_ Hg]. unfold block_slot.
    by rewrite Hg.
Qed.

(** *** The combiner on chunk results *)


Lemma block_slot_absent k f labs vals g :
  isnull g = true ∨ g ∉ result_groups labs → block_slot k f labs vals g = f.
Proof.
  unfold block_slot. destruct (isnull g) eqn:Hg; [done|].
  intros [?|Hin]; [done|]. rewrite group_values_absent; [done|].
  by rewrite <- result_groups_elem_of.
Qed.

Lemma elem_of_merge_labels (bs : list (list scalar * list value)) g :
  g ∈ (merge_blocks bs).1 ↔ ∃ b, b ∈ bs ∧ g ∈ b.1.
Proof.
  unfold merge_blocks. simpl. rewrite list_elem_of_join. split.
  - intros (l & Hg & (b & -> & Hb)%list_elem_of_fmap). eauto.
  - intros (b & Hb & Hg). exists b.1. split; [done|].
    apply list_elem_of_fmap. eauto.
Qed.

Lemma unique_groups_elem_of (bs : list (list scalar * list value)) g :
  isnull g = false →
  g ∈ np_unique (mjoin ((λ b, result_groups b.1) <$> bs))
  ↔ g ∈ (merge_blocks bs).1.
Proof.
  intros Hg. rewrite np_unique_elem_of, elem_of_merge_labels, list_elem_of_join.
  split.
  - intros (l & Hin & (b & -> & Hb)%list_elem_of_fmap).
    exists b. split; [done|]. by apply result_groups_elem_of.
  - intros (b & Hb & Hin). exists (result_groups b.1). split.
    + by apply result_groups_elem_of.
    + apply list_elem_of_fmap. eauto.
Qed.

Lemma unique_groups_nonempty (bs : list (list scalar * list value)) :
  bs ≠ [] → np_unique (mjoin ((λ b, result_groups b.1) <$> bs)) ≠ [].
Proof.
  destruct bs as [|b bs]; [done|]. intros _ E.
  pose proof (result_groups_nonempty b.1) as Hne.
  destruct (result_groups b.1) as [|g G] eqn:EG; [done|].
  assert (g ∈ np_unique (mjoin ((λ b, result_groups b.1) <$> b :: bs))) as Hin.
  { apply np_unique_elem_of. rewrite fmap_cons. simpl. rewrite EG. left. }
  rewrite E in Hin. by apply elem_of_nil in Hin.
Qed.








Lemma np_asarray_labels_nan t :
  NaN ∈ np_asarray_labels t ↔ NaN ∈ t ∧ existsb is_str t = false.
Proof.
  unfold np_asarray_labels. destruct (existsb is_str t) eqn:Hstr.
  - rewrite list_elem_of_fmap. split; [|by intros [_ ?]].
    by intros ([| |] & ? & _).
  - tauto.
Qed.








Section combine.
Variable agg : Aggregation.
Variables ks cs : list (kernel value).
Variable fills : list value.
Hypothesis Hred : agg_reduction_type agg = Reduce.
Hypothesis Hcs : mapM npg_func (agg_combine agg) = Ok cs.
Hypothesis Hfill : agg_fill_intermediate agg = Some <$> fills.
Hypothesis Hlk : length ks = length fills.
Hypothesis Hlc : length cs = length fills.
Hypothesis Hne : fills ≠ [].
Hypothesis Hlaw : ∀ i c m f, ks !! i = Some c → cs !! i = Some m →
                             fills !! i = Some f → decomposes c m f.


End combine.

(** *** The groups a combined result lists *)







(** *** Blocks of a chunked one-dimensional array *)










(** *** The tree reduction *)











Section mapreduce.
Variable agg : Aggregation.
Variables ks cs : list (kernel value).
Variable fills : list value.
Hypothesis Hred : agg_reduction_type agg = Reduce.
Hypothesis Hks : mapM npg_func (agg_chunk agg) = Ok ks.
Hypothesis Hcs : mapM npg_func (agg_combine agg) = Ok cs.
Hypothesis Hfill : agg_fill_intermediate agg = Some <$> fills.
Hypothesis Hlk : length ks = length fills.
Hypothesis Hlc : length cs = length fills.
Hypothesis Hne : fills ≠ [].
Hypothesis Hlaw : ∀ i c m f, ks !! i = Some c → cs !! i = Some m →
                             fills !! i = Some f → decomposes c m f.




End mapreduce.

(** *** Kernels that decompose *)

Lemma value_add_0_l x : value_add (V 0) x = x.
Proof. by destruct x. Qed.

Lemma value_add_assoc x y z :
  value_add x (value_add y z) = value_add (value_add x y) z.
Proof. destruct x, y, z; simpl; try done. f_equal. lia. Qed.

Lemma vsum_app a b :
  foldr value_add (V 0) (a ++ b)
  = value_add (foldr value_add (V 0) a) (foldr value_add (V 0) b).
Proof.
  induction a as [|x a IH]; cbn [foldr app].
  - by rewrite value_add_0_l.
  - by rewrite IH, value_add_assoc.
Qed.

Lemma filter_all_cells (xs : list value) :
  filter (λ v, k_keep k_sum v = true) xs = xs.
Proof.
  induction xs as [|x xs IH]; [done|].
  rewrite filter_cons_True by done. by rewrite IH.
Qed.

Lemma tag_untag (ys : list value) : snd <$> ((λ v, (0, v)) <$> ys) = ys.
Proof. rewrite <- list_fmap_compose. apply list_fmap_id. Qed.

Lemma slot_value_sum xs :
  slot_value k_sum (V 0) xs = foldr value_add (V 0) xs.
Proof.
  unfold slot_value. rewrite filter_all_cells. destruct xs as [|x xs]; [done|].
  cbn [k_red k_sum]. by rewrite tag_untag.
Qed.



Lemma position_free_sum : position_free k_sum.
Proof. intros ms ms' H. simpl. by rewrite H. Qed.


Lemma position_free_nanlen : position_free k_nanlen.
Proof.
  intros ms ms' H. simpl. f_equal. f_equal.
  by rewrite <- (length_fmap snd ms), H, length_fmap.
Qed.

Lemma decomposes_sum : decomposes k_sum k_sum (V 0).
Proof.
  split; [apply position_free_sum|]. split; [apply position_free_sum|].
  intros xss _. rewrite !slot_value_sum.
  induction xss as [|xs xss IH]; [done|].
  rewrite fmap_cons. simpl. by rewrite vsum_app, IH, slot_value_sum.
Qed.





(** *** Chunk invariance *)






(** The scenario of chunk invariance: the twelve labels chunked as (4,4,4) and as (12,)
    give the same result, the group sums 2, 4, 5, 1 of the groups a, b, c,
    f. *)
Example groupby_reduce_chunked_sums :
  groupby_reduce aggregations (arr1 scenario_ones) (Some ([4; 4; 4], []))
    (arr1 scenario_labels) "sum" None false AxNone None None None
  = Ok (arr1 [V 2; V 4; V 5; V 1], Some (Str <$> ["a"; "b"; "c"; "f"]%string)).
Proof. vm_compute. reflexivity. Qed.


(** ** More on the rechunk planners *)

Lemma Sorted_lt_snoc (l : list Z) x :
  Sorted Z.lt l → Forall (λ y, y < x) l → Sorted Z.lt (l ++ [x]).
Proof.
  induction 1 as [|y l Hl IH Hhd]; intros Hall; simpl.
  - repeat constructor.
  - apply Forall_cons in Hall as [Hy Hall]. constructor; [by apply IH|].
    destruct Hhd; simpl; constructor; [done|].
    done.
Qed.

Lemma np_diff_positive l : Sorted Z.lt l → Forall (λ c, 0 < c) (np_diff l).
Proof.
  induction 1 as [|x l Hl IH Hhd]; [constructor|].
  destruct Hhd as [|y l' Hxy]; simpl; [constructor|].
  constructor; [lia|done].
Qed.

Lemma cumsum_np_diff x l : cumsum_from x (np_diff (x :: l)) = l.
Proof.
  revert x. induction l as [|y l IH]; intros x; [done|].
  cbn [np_diff cumsum_from]. replace (x + (y - x)) with y by lia.
  by rewrite IH.
Qed.

Lemma cohorts_step_cases force oldbreaks isbreak chunksize divs counter idx lab :
  let st := cohorts_step force oldbreaks isbreak chunksize (divs, counter) (idx, lab) in
  (st.1 = divs ++ [Z.of_nat idx] ∨ st.1 = divs)
  ∧ (np_contains force lab = true ∨ inZ (Z.of_nat idx) oldbreaks = true →
     st.1 = divs ++ [Z.of_nat idx]).
Proof.
  unfold cohorts_step. destruct (np_contains force lab); simpl; [by eauto|].
  destruct (inZ (Z.of_nat idx) oldbreaks); simpl; [by eauto|].
  destruct (_ && _); simpl; [by eauto|]. split; [by right|].
  by intros [?|?].
Qed.

Lemma cohorts_fold_inv force oldbreaks isbreak chunksize labs s divs counter :
  Sorted Z.lt divs → Forall (λ d, d < Z.of_nat s) divs →
  let r := (fold_left (cohorts_step force oldbreaks isbreak chunksize)
              (zip (seq s (length labs)) labs) (divs, counter)).1 in
  Sorted Z.lt r ∧ Forall (λ d, d < Z.of_nat (s + length labs)) r
  ∧ (∀ d, d ∈ divs → d ∈ r)
  ∧ (∀ i lab, labs !! i = Some lab →
       np_contains force lab = true ∨ inZ (Z.of_nat (s + i)) oldbreaks = true →
       Z.of_nat (s + i) ∈ r).
Proof.
  revert s divs counter. induction labs as [|lab labs IH]; intros s divs counter Hs Hlt.
  - simpl. rewrite Nat.add_0_r. split_and!; try done.
  - cbn [length seq zip zip_with fold_left].
    pose proof (cohorts_step_cases force oldbreaks isbreak chunksize divs counter s lab)
      as [Hcase Hforced].
    destruct (cohorts_step force oldbreaks isbreak chunksize (divs, counter) (s, lab))
      as [divs' counter'] eqn:Hstep. simpl in Hcase, Hforced.
    assert (Sorted Z.lt divs' ∧ Forall (λ d, d < Z.of_nat (S s)) divs'
            ∧ ∀ d, d ∈ divs → d ∈ divs') as (Hs' & Hlt' & Hsub).
    { destruct Hcase as [->| ->].
      - split_and!.
        + by apply Sorted_lt_snoc.
        + apply Forall_app. split; [|repeat constructor; lia].
          eapply Forall_impl; [done|]. simpl. lia.
        + intros d Hd. apply elem_of_app. by left.
      - split_and!; [done| |done]. eapply Forall_impl; [done|]. simpl. lia. }
    destruct (IH (S s) divs' counter' Hs' Hlt') as (Hr1 & Hr2 & Hr3 & Hr4).
    split_and!.
    + done.
    + by rewrite Nat.add_succ_r.
    + intros d Hd. by apply Hr3, Hsub.
    + intros [|i] lab' Hi Hwhy.
      * injection Hi as <-. rewrite Nat.add_0_r in *. apply Hr3.
        rewrite (Hforced Hwhy). apply elem_of_app. right. left.
      * rewrite Nat.add_succ_r. apply (Hr4 i lab' Hi).
        by rewrite Nat.add_succ_r in Hwhy.
Qed.

Lemma cohorts_divisions_inv force oldchunks labels chunksize :
  let divisions := cohorts_divisions force oldchunks labels chunksize in
  Sorted Z.lt divisions
  ∧ (∀ i lab, labels !! i = Some lab →
       np_contains force lab = true
       ∨ inZ (Z.of_nat i) (0 :: np_cumsum oldchunks) = true →
       Z.of_nat i ∈ divisions).
Proof.
  unfold cohorts_divisions.
  destruct (cohorts_fold_inv force (0 :: np_cumsum oldchunks)
              (np_isin labels force) chunksize labels 0 [] 1)
    as (H1 & H2 & _ & H4); [constructor..|].
  split.
  - by apply Sorted_lt_snoc.
  - intros i lab Hi Hwhy. apply elem_of_app. left. by apply (H4 i lab).
Qed.

Lemma rechunk_for_cohorts_inv oldchunks labels force chunksize newchunks :
  rechunk_for_cohorts oldchunks labels force chunksize = Ok newchunks →
  Z.of_nat (length labels) = sumZ oldchunks
  ∧ ∃ ext cs,
      cohorts_divisions force oldchunks labels cs
      = 0 :: ext ++ [Z.of_nat (length labels)]
      ∧ newchunks = np_diff (0 :: ext ++ [Z.of_nat (length labels)])
      ∧ np_cumsum newchunks = ext ++ [Z.of_nat (length labels)].
Proof.
  unfold rechunk_for_cohorts.
  destruct (Z.eqb_spec (Z.of_nat (length labels)) (sumZ oldchunks)) as [Hlen|];
    [|done].
  simpl negb. cbv iota.
  destruct (existsb id (np_isin labels force)) eqn:Hbreak; [|done].
  simpl negb. cbv iota.
  pose proof (existsb_id_isin_nonempty _ _ Hbreak) as Hne.
  set (cs := match chunksize with Some c => c | None => np_median_int oldchunks end).
  destruct (cohorts_divisions_shape force oldchunks labels cs Hne) as [ext Hshape].
  rewrite Hshape. destruct (_ =? _); [|done]. intros [= <-].
  split; [done|]. exists ext, cs. split; [done|]. split; [done|].
  apply cumsum_np_diff.
Qed.

(** X1.  [rechunk_for_cohorts] never plans an empty chunk: every chunk of
    the chunking it returns holds at least one cell. *)
Theorem rechunk_for_cohorts_no_empty_chunk oldchunks labels force chunksize
    newchunks :
  rechunk_for_cohorts oldchunks labels force chunksize = Ok newchunks →
  Forall (λ c, 0 < c) newchunks.
Proof.
  intros (_ & ext & cs & Hdiv & -> & _)%rechunk_for_cohorts_inv.
  apply np_diff_positive. rewrite <- Hdiv.
  apply cohorts_divisions_inv.
Qed.

Lemma rechunk_for_cohorts_no_empty_chunk_witness :
  Forall (λ c, 0 < c) [3; 1; 3; 1; 4].
Proof.
  apply (rechunk_for_cohorts_no_empty_chunk [4; 4; 4]
           (num <$> [1; 2; 3; 1; 2; 3; 4; 1; 2; 3; 4; 5]) [num 1] None).
  vm_compute. reflexivity.
Defined.

(** X2.  A label listed in [force_new_chunk_at] always starts a chunk: in
    the chunking [rechunk_for_cohorts] returns, every position that holds
    such a label is the first position of the array or a chunk boundary. *)
Theorem rechunk_for_cohorts_forced_label_starts_chunk oldchunks labels force
    chunksize newchunks (i : nat) lab :
  rechunk_for_cohorts oldchunks labels force chunksize = Ok newchunks →
  labels !! i = Some lab → np_contains force lab = true →
  i = 0%nat ∨ Z.of_nat i ∈ np_cumsum newchunks.
Proof.
  intros (_ & ext & cs & Hdiv & _ & ->)%rechunk_for_cohorts_inv Hi Hforce.
  destruct (cohorts_divisions_inv force oldchunks labels cs) as [_ Hin].
  specialize (Hin i lab Hi (or_introl Hforce)). rewrite Hdiv in Hin.
  apply elem_of_cons in Hin as [Hin|Hin]; [left; lia|by right].
Qed.

Lemma rechunk_for_cohorts_forced_label_starts_chunk_witness :
  3%nat = 0%nat ∨ 3 ∈ np_cumsum [3; 1; 3; 1; 4].
Proof.
  apply (rechunk_for_cohorts_forced_label_starts_chunk [4; 4; 4]
           (num <$> [1; 2; 3; 1; 2; 3; 4; 1; 2; 3; 4; 5]) [num 1] None
           [3; 1; 3; 1; 4] 3 (num 1)).
  - vm_compute. reflexivity.
  - reflexivity.
  - vm_compute. reflexivity.
Defined.

(** X3.  [rechunk_for_cohorts] only refines the chunking: every boundary
    between two old chunks is a boundary of the chunking it returns. *)
Theorem rechunk_for_cohorts_keeps_old_boundaries oldchunks labels force
    chunksize newchunks b :
  rechunk_for_cohorts oldchunks labels force chunksize = Ok newchunks →
  Forall (Z.le 0) oldchunks → b ∈ np_cumsum oldchunks → 0 < b →
  b ∈ np_cumsum newchunks.
Proof.
  intros (Hlen & ext & cs & Hdiv & _ & ->)%rechunk_for_cohorts_inv Hnn Hb Hpos.
  pose proof (cumsum_from_bounds 0 oldchunks Hnn) as Hbounds.
  apply List.Forall_forall with (x := b) in Hbounds; [|by apply list_elem_of_In].
  destruct (decide (b = Z.of_nat (length labels))) as [->|Hne].
  { apply elem_of_app. right. left. }
  destruct (lookup_lt_is_Some_2 labels (Z.to_nat b)) as [lab Hlab]; [lia|].
  destruct (cohorts_divisions_inv force oldchunks labels cs) as [_ Hin].
  assert (Z.of_nat (Z.to_nat b)
          ∈ cohorts_divisions force oldchunks labels cs) as Hin'.
  { apply (Hin _ lab Hlab). right. rewrite Z2Nat.id by lia.
    unfold inZ. apply existsb_exists. exists b. split.
    - right. by apply list_elem_of_In.
    - by apply Z.eqb_eq. }
  rewrite Z2Nat.id, Hdiv in Hin' by lia.
  apply elem_of_cons in Hin' as [?|?]; [lia|done].
Qed.

Lemma rechunk_for_cohorts_keeps_old_boundaries_witness :
  8 ∈ np_cumsum [3; 1; 3; 1; 4].
Proof.
  apply (rechunk_for_cohorts_keeps_old_boundaries [4; 4; 4]
           (num <$> [1; 2; 3; 1; 2; 3; 4; 1; 2; 3; 4; 5]) [num 1] None
           [3; 1; 3; 1; 4] 8).
  - vm_compute. reflexivity.
  - repeat constructor; lia.
  - vm_compute. right. left.
  - lia.
Defined.

(** ** More on the label factorizer *)

(** X4.  [offset_labels] keeps the marker [-1] of a missing label, and from
    every other offset code the row of the cell and its label can be read
    back: the code of label [l] in row [r] is [l + r * ngroups], it lies below
    [size], its quotient by [ngroups] is [r] and its remainder is [l]. *)
Theorem offset_labels_decode (labels o : ndarray Z) ng sz n (p : nat) l :
  offset_labels labels = Ok (o, ng, sz) →
  wf_array labels → shape_trail (shape labels) 1 = [n] →
  Forall (Z.le (-1)) (data labels) →
  data labels !! p = Some l →
  if l =? -1 then data o !! p = Some (-1)
  else ∃ c, data o !! p = Some c
            ∧ c `div` ng = Z.of_nat p `div` n ∧ c `mod` ng = l
            ∧ 0 ≤ c < sz.
Proof.
  intros Hoff Hwf Htrail Hlow Hp. unfold offset_labels in Hoff.
  destruct (length (data labels) =? 0)%nat; [done|].
  destruct (shape_trail_1 _ _ Htrail) as [Hn Hshape].
  rewrite Hn in Hoff. cbn [mbind result_bind] in Hoff.
  injection Hoff as <- <- <-. cbn [data].
  destruct (wf_array_rows labels n Hwf Htrail) as [Hn0 Hlen].
  pose proof (lookup_lt_Some _ _ _ Hp) as Hplt.
  assert (data labels !! p = Some l) as Hp' by done.
  rewrite list_lookup_fmap.
  assert (zip (seq 0 (length (data labels))) (data labels) !! p = Some (p, l))
    as ->.
  { apply lookup_zip_with_Some. exists p, l. split; [done|]. split; [|done].
    by apply lookup_seq_lt. }
  cbn [fmap option_fmap option_map].
  destruct (Z.eqb_spec l (-1)) as [->|Hl]; [done|].
  assert (-1 ≤ l) as Hl1.
  { by eapply List.Forall_forall in Hlow; [|by eapply list_elem_of_In, list_elem_of_lookup_2]. }
  assert (l ≤ maxZ (data labels)) as Hmax.
  { by eapply maxZ_ge, list_elem_of_lookup_2. }
  set (ngroups := maxZ (data labels) + 1) in *.
  set (rows := np_prod (shape_lead (shape labels) 1)) in *.
  assert (0 < n) as Hnpos.
  { destruct (decide (n = 0)) as [->|]; [|lia]. simpl in Hlen. lia. }
  assert (0 ≤ Z.of_nat p `div` n < rows) as Hrow.
  { split; [apply Z.div_pos; lia|].
    apply Z.div_lt_upper_bound; [lia|].
    destruct (Z_le_gt_dec 0 rows); [nia|]. 
    rewrite Z2Nat.nonpos in Hlen by lia. simpl in Hlen. lia. }
  assert (0 ≤ l < ngroups) as Hlng by lia.
  generalize dependent (Z.of_nat p `div` n). intros r Hr.
  eexists. split; [done|]. split_and!.
  - rewrite Z.div_add by lia. rewrite Z.div_small by lia. lia.
  - rewrite Z.mod_add by lia. apply Z.mod_small. lia.
  - nia.
  - assert ((r + 1) * ngroups ≤ rows * ngroups)
      by (apply Z.mul_le_mono_nonneg_r; lia).
    change (l + r * ngroups < rows * ngroups). lia.
Qed.

Lemma offset_labels_decode_witness :
  ∃ c, [0; 1; -1; 3; 2; 2] !! 3%nat = Some c
       ∧ c `div` 2 = 3 `div` 3 ∧ c `mod` 2 = 1 ∧ 0 ≤ c < 4.
Proof.
  exact (offset_labels_decode (NdArray [2; 3] [0; 1; -1; 1; 0; 0])
           (NdArray [2; 3] [0; 1; -1; 3; 2; 2]) 2 4 3 3 1 eq_refl
           ltac:(split; [repeat constructor; lia|reflexivity]) eq_refl
           ltac:(repeat constructor; lia) eq_refl).
Defined.

Lemma factorize_no_offset by_ axis e :
  np_isscalar axis && (1 <? length (shape by_))%nat = false →
  factorize_ [by_] axis (Some [e]) (Some [false])
  = Ok (mkFactorized
          (NdArray [Z.of_nat (length (codes_1d (data by_)))] (codes_1d (data by_)))
          [pd_uniques (data by_)] [Z.of_nat (length (pd_uniques (data by_)))]
          (np_prod [Z.of_nat (length (pd_uniques (data by_)))]) None
          (mkFactorProps false
             (np_prod [Z.of_nat (length (pd_uniques (data by_)))] + 1))).
Proof.
  intros Hax. unfold factorize_, codes_1d.
  cbn -[pd_uniques pd_code Z.mul Z.add Z.of_nat np_prod np_isscalar Nat.ltb].
  rewrite Hax.
  cbn -[pd_uniques pd_code Z.mul Z.add Z.of_nat np_prod].
  by rewrite !length_fmap.
Qed.

(** X5.  [factorize_] encodes and [found_groups] decodes: when one array is
    factorized without bins and without offsets, the groups found hold no
    missing value and no value twice, the code of a cell with a label is the
    position of that label among the groups found, and the code of a cell
    whose label is missing is the sentinel. *)
Theorem factorize_decode by_ axis e f :
  np_isscalar axis && (1 <? length (shape by_))%nat = false →
  factorize_ [by_] axis (Some [e]) (Some [false]) = Ok f →
  ∃ found,
    f_found_groups f = [found] ∧ NoDup found
    ∧ Forall (λ g, isnull g = false) found
    ∧ ∀ (p : nat) l, data by_ !! p = Some l →
        ∃ c, data (f_group_idx f) !! p = Some c
             ∧ if isnull l then c = nan_sentinel (f_props f)
               else 0 ≤ c < f_ngroups f ∧ found !! Z.to_nat c = Some l.
Proof.
  intros Hax Hf. rewrite factorize_no_offset in Hf by done.
  injection Hf as <-. cbn [f_found_groups f_group_idx f_props f_ngroups data
                           nan_sentinel].
  exists (pd_uniques (data by_)). split; [done|].
  split; [apply pd_uniques_NoDup|]. split.
  { apply List.Forall_forall. intros g Hg%list_elem_of_In.
    by apply pd_uniques_elem_of in Hg as [_ ?]. }
  intros p l Hp. unfold codes_1d. rewrite <- list_fmap_compose, list_lookup_fmap, Hp.
  cbn [fmap option_fmap option_map compose]. eexists. split; [reflexivity|].
  rewrite np_prod_1.
  destruct (isnull l) eqn:Hnull.
  - unfold pd_code. rewrite Hnull. simpl. lia.
  - assert (l ∈ pd_uniques (data by_)) as [j Hj]%list_elem_of_lookup_1.
    { apply pd_uniques_elem_of. split; [|done]. by eapply list_elem_of_lookup_2. }
    rewrite (pd_code_lookup _ _ j) by (done || apply pd_uniques_NoDup).
    destruct (Z.eqb_spec (Z.of_nat j) (-1)); [lia|].
    apply lookup_lt_Some in Hj as Hlt. rewrite Nat2Z.id. split; [simpl; lia|done].
Qed.

Lemma factorize_decode_witness :
  ∃ found,
    [[Str "b"; Str "a"]] = [found] ∧ NoDup found
    ∧ Forall (λ g, isnull g = false) found
    ∧ ∀ (p : nat) l, [Str "b"; NaN; Str "a"; Str "b"] !! p = Some l →
        ∃ c, [0; 3; 1; 0] !! p = Some c
             ∧ if isnull l then c = 3
               else 0 ≤ c < 2 ∧ found !! Z.to_nat c = Some l.
Proof.
  exact (factorize_decode (arr1 [Str "b"; NaN; Str "a"; Str "b"]) AxNone None
           _ eq_refl eq_refl).
Defined.

(** ** More on the reindexer *)

Lemma index_in_NoDup from_ (j : nat) g :
  NoDup from_ → from_ !! j = Some g → isnull g = false →
  index_in from_ g = Z.of_nat j.
Proof.
  intros Hnd Hj Hg. unfold index_in.
  destruct (list_find _ from_) as [[i x]|] eqn:Hf.
  - apply list_find_Some in Hf as (Hi & [-> _]%np_eq_eq & _).
    by rewrite (NoDup_lookup from_ i j g Hnd Hi Hj).
  - apply list_find_None in Hf.
    apply List.Forall_forall with (x := g) in Hf.
    + by rewrite np_eq_refl in Hf.
    + by eapply list_elem_of_In, list_elem_of_lookup_2.
Qed.

Lemma reindex_fill_irrelevant_1d vs from_ to fv fv' :
  vs ≠ [] → (∀ g, g ∈ to → np_contains from_ g = true) →
  reindex_ (arr1 vs) from_ to fv = reindex_ (arr1 vs) from_ to fv'.
Proof.
  intros Hvs Hall. unfold reindex_. destruct (_ && _); [done|].
  cbn [arr1 shape]. rewrite py_index_1. cbn [mbind result_bind].
  destruct (Z.eqb_spec (Z.of_nat (length vs)) 0) as [E|_].
  { destruct vs; [done|simpl in E; lia]. }
  destruct (length to =? 0)%nat; [done|].
  destruct (mapM _ _) as [taken|]; [|done]. cbn [mbind result_bind].
  destruct (existsb _ _) eqn:Hex; [|done].
  apply existsb_index_absent in Hex as (g & Hg & Habs).
  by rewrite Hall in Habs.
Qed.

(** X6.  Reindexing forth and back is the identity.  A one-dimensional array
    with one cell per label of [from_], the labels distinct and none of them
    missing, is reindexed to any [to] that holds all of them and then back to
    [from_]: the first step succeeds and the second returns the array,
    whatever the two fill values are. *)
Theorem reindex_round_trip (vs : list value) from_ to f fv :
  length vs = length from_ → from_ ≠ [] → NoDup from_ →
  Forall (λ g, isnull g = false) from_ → from_ ⊆ to →
  ∃ a, reindex_ (arr1 vs) from_ to (Some f) = Ok a
       ∧ reindex_ a to from_ fv = Ok (arr1 vs).
Proof.
  intros Hlen Hne Hnd Hnn Hsub.
  set (R := λ g, let i := index_in from_ g in
                 if i =? -1 then f else default f (vs !! Z.to_nat i)).
  assert (vs = R <$> from_) as Hvs.
  { apply list_eq. intros j. rewrite list_lookup_fmap.
    destruct (from_ !! j) as [g|] eqn:Hj; simpl.
    - assert (isnull g = false) as Hg.
      { by eapply List.Forall_forall in Hnn;
          [|by eapply list_elem_of_In, list_elem_of_lookup_2]. }
      unfold R. rewrite (index_in_NoDup from_ j g) by done. cbn zeta.
      destruct (Z.eqb_spec (Z.of_nat j) (-1)); [lia|]. rewrite Nat2Z.id.
      destruct (lookup_lt_is_Some_2 vs j) as [v Hv];
        [apply lookup_lt_Some in Hj; lia|].
      by rewrite Hv.
    - apply lookup_ge_None. apply lookup_ge_None in Hj. lia. }
  assert (to ≠ []) as Hto.
  { destruct from_ as [|g ?]; [done|]. intros ->.
    assert (g ∈ @nil scalar) as H by (apply Hsub; left).
    by apply elem_of_nil in H. }
  exists (arr1 (R <$> to)). split.
  - rewrite Hvs at 1. apply reindex_1d; [done..|].
    intros g _ Hwhy. unfold R.
    assert (index_in from_ g = -1) as ->; [|done].
    apply index_in_absent. apply not_true_iff_false.
    intros [Hin Hg]%np_contains_true. destruct Hwhy; congruence.
  - rewrite (reindex_fill_irrelevant_1d _ _ _ fv (Some f)).
    + rewrite Hvs at 1. apply reindex_1d; [done..|].
      intros g Hg [Hnull|Hout].
      * by eapply List.Forall_forall in Hnn; [rewrite Hnn in Hnull|apply list_elem_of_In].
      * destruct Hout. by apply Hsub.
    + by destruct to.
    + intros g Hg. apply np_contains_true. split; [by apply Hsub|].
      by eapply List.Forall_forall in Hnn; [|apply list_elem_of_In].
Qed.

Lemma reindex_round_trip_witness :
  ∃ a, reindex_ (arr1 [V 3; V 2]) [Str "b"; Str "a"]
         [Str "a"; Str "b"; Str "c"] (Some (V 0)) = Ok a
       ∧ reindex_ a [Str "a"; Str "b"; Str "c"] [Str "b"; Str "a"] None
         = Ok (arr1 [V 3; V 2]).
Proof.
  apply (reindex_round_trip [V 3; V 2] [Str "b"; Str "a"]
           [Str "a"; Str "b"; Str "c"] (V 0) None).
  - reflexivity.
  - discriminate.
  - apply NoDup_cons. split; [|apply NoDup_singleton].
    by intros [=]%list_elem_of_singleton.
  - repeat constructor.
  - intros g [->|Hg]%elem_of_cons.
    + right. left.
    + apply list_elem_of_singleton in Hg as ->. left.
Defined.

Lemma length_mjoin_uniform {A} (ls : list (list A)) m :
  Forall (λ l, length l = m) ls → length (mjoin ls) = (length ls * m)%nat.
Proof.
  induction 1 as [|l ls Hl _ IH]; [done|]. simpl. rewrite length_app. lia.
Qed.

Lemma wf_shape_lead {A} (a : ndarray A) :
  wf_array a → Forall (Z.le 0) (shape_lead (shape a) 1).
Proof. intros [Hnn _]. unfold shape_lead. by apply Forall_take. Qed.

Lemma wf_array_rows_cols {A} (lead : list Z) (m : nat) (d : list A) :
  Forall (Z.le 0) lead → length d = (Z.to_nat (np_prod lead) * m)%nat →
  wf_array (NdArray (lead ++ [Z.of_nat m]) d).
Proof.
  intros Hnn Hlen. split; cbn [shape data].
  - apply Forall_app. split; [done|]. repeat constructor. lia.
  - rewrite np_prod_app, np_prod_1, Hlen.
    pose proof (np_prod_nonneg lead Hnn). rewrite Z2Nat.inj_mul by lia.
    by rewrite Nat2Z.id.
Qed.

(** X7.  The shape [reindex_] returns.  For a well-formed array whose last
    axis has one cell per label of [from_], a result of [reindex_] has the
    leading axes of the array and one cell per label of [to] along the last
    axis, and it is well formed again. *)
Theorem reindex_result_shape array from_ to fill_value r :
  wf_array array →
  shape_trail (shape array) 1 = [Z.of_nat (length from_)] →
  reindex_ array from_ to fill_value = Ok r →
  shape r = shape_lead (shape array) 1 ++ [Z.of_nat (length to)]
  ∧ wf_array r.
Proof.
  intros Hwf Htr. unfold reindex_.
  destruct (shape_trail_1 _ _ Htr) as [Hn Hshape].
  destruct (wf_array_rows array _ Hwf Htr) as [_ Hrows].
  pose proof (wf_shape_lead array Hwf) as Hlead.
  destruct (_ && _) eqn:Hsc.
  { apply andb_true_iff in Hsc as [Hlen%Nat.eqb_eq _]. intros [= <-].
    by rewrite <- Hlen, <- Hshape. }
  rewrite Hn. cbn [mbind result_bind].
  destruct (_ =? 0).
  { intros [= <-]. split; [done|]. apply wf_array_rows_cols; [done|].
    by rewrite length_replicate. }
  destruct (length to =? 0)%nat; [done|].
  destruct (mapM _ _) as [taken|] eqn:Htaken; [|done]. cbn [mbind result_bind].
  assert (length taken = Z.to_nat (np_prod (shape_lead (shape array) 1)))
    as Hlt.
  { apply mapM_Ok_length in Htaken. by rewrite length_seq in Htaken. }
  assert (Forall (λ l, length l = length to) taken) as Hrowlen.
  { apply mapM_Ok_Forall2 in Htaken. clear Hlt.
    induction Htaken as [|x y xs ys Hxy _ IH]; constructor; [|done].
    unfold take_row, np_take in Hxy. apply mapM_Ok_length in Hxy.
    by rewrite length_fmap in Hxy. }
  destruct (existsb _ _).
  - destruct fill_value as [fv|]; [|done]. intros [= <-]. split; [done|].
    apply wf_array_rows_cols; [done|].
    rewrite (length_mjoin_uniform _ (length to)); [by rewrite length_fmap, Hlt|].
    apply Forall_fmap. eapply Forall_impl; [done|]. intros l Hl. simpl.
    unfold fill_row. rewrite length_fmap, length_zip, length_fmap.
    simpl in Hl. rewrite Hl. apply Nat.min_id.
  - intros [= <-]. split; [done|]. apply wf_array_rows_cols; [done|].
    by rewrite (length_mjoin_uniform _ (length to)), Hlt.
Qed.

Lemma reindex_result_shape_witness :
  shape (NdArray [2; 3] [V 2; V 1; V 0; V 4; V 3; V 0])
  = shape_lead [2; 2] 1 ++ [Z.of_nat (length [Str "b"; Str "a"; Str "c"])]
  ∧ wf_array (NdArray [2; 3] [V 2; V 1; V 0; V 4; V 3; V 0]).
Proof.
  apply (reindex_result_shape (NdArray [2; 2] [V 1; V 2; V 3; V 4])
           [Str "a"; Str "b"] [Str "b"; Str "a"; Str "c"] (Some (V 0))).
  - split; [repeat constructor; lia|reflexivity].
  - reflexivity.
  - vm_compute. reflexivity.
Defined.

(** ** More on the chunk reducer *)

Lemma observed_groups_nil labs :
  observed_groups labs = [] ↔ Forall (λ l, isnull l = true) labs.
Proof.
  split.
  - intros E. apply List.Forall_forall. intros l Hl%list_elem_of_In.
    destruct (isnull l) eqn:Hnull; [done|].
    assert (l ∈ observed_groups labs) as Hin
      by by apply observed_groups_elem_of.
    rewrite E in Hin. by apply elem_of_nil in Hin.
  - intros Hall. destruct (observed_groups labs) as [|g G] eqn:E; [done|].
    assert (g ∈ observed_groups labs) as [Hin Hg]%observed_groups_elem_of
      by (rewrite E; left).
    eapply List.Forall_forall in Hall; [|by apply list_elem_of_In].
    congruence.
Qed.

(** X8.  What [chunk_reduce] returns for a one-dimensional block reduced
    along its axis with kernels that do not look at positions: it always
    returns; the groups are the distinct labels of the block that are not
    missing, in ascending order, or the missing-value marker alone when every
    label is missing; and there is one intermediate per kernel and fill
    value, each of the shape of the groups. *)
Theorem chunk_reduce_groups_sorted labs vals ks fvs :
  length labs = length vals → Forall position_free ks →
  ∃ r, chunk_reduce (arr1 vals) (arr1 labs) ks None (AxSeq [0]) fvs false false
       = Ok r
       ∧ (if bool_decide (Forall (λ l, isnull l = true) labs)
          then data (groups r) = [NaN]
          else StronglySorted scalar_le (data (groups r))
               ∧ NoDup (data (groups r))
               ∧ ∀ g, g ∈ data (groups r) ↔ g ∈ labs ∧ isnull g = false)
       ∧ length (intermediates r) = (length ks `min` length fvs)%nat
       ∧ Forall (λ v, shape v = shape (groups r)) (intermediates r).
Proof.
  intros Hlen Hks. eexists. split; [by apply chunk_reduce_1d|].
  rewrite spec_reduce_alt. cbn [groups intermediates data arr1 shape].
  split_and!.
  - unfold result_groups. case_bool_decide as Hall.
    + apply observed_groups_nil in Hall. by rewrite Hall.
    + destruct (observed_groups labs) as [|g0 G] eqn:E.
      { by apply observed_groups_nil in E. }
      rewrite <- E. split_and!.
      * apply np_unique_sorted.
      * apply np_unique_NoDup.
      * apply observed_groups_elem_of.
  - by rewrite length_fmap, length_zip.
  - apply Forall_fmap, List.Forall_forall. intros [k fv] _. simpl.
    by rewrite length_fmap.
Qed.

Lemma chunk_reduce_groups_sorted_witness :
  ∃ r, chunk_reduce (arr1 [V 1; V 2; V 3; V 4])
         (arr1 [Str "b"; NaN; Str "a"; Str "b"]) [k_sum; k_nanlen] None
         (AxSeq [0]) [Some (V 0); Some (V 0)] false false
       = Ok r
       ∧ (if bool_decide (Forall (λ l, isnull l = true)
                            [Str "b"; NaN; Str "a"; Str "b"])
          then data (groups r) = [NaN]
          else StronglySorted scalar_le (data (groups r))
               ∧ NoDup (data (groups r))
               ∧ ∀ g, g ∈ data (groups r)
                      ↔ g ∈ [Str "b"; NaN; Str "a"; Str "b"] ∧ isnull g = false)
       ∧ length (intermediates r) = 2%nat
       ∧ Forall (λ v, shape v = shape (groups r)) (intermediates r).
Proof.
  apply (chunk_reduce_groups_sorted [Str "b"; NaN; Str "a"; Str "b"]
           [V 1; V 2; V 3; V 4] [k_sum; k_nanlen] [Some (V 0); Some (V 0)]).
  - reflexivity.
  - repeat constructor; [apply position_free_sum|apply position_free_nanlen].
Defined.

(** ** More on the combiner *)




Section stages.
Variable agg : Aggregation.
Variables ks cs : list (kernel value).
Variable fills : list value.
Hypothesis Hred : agg_reduction_type agg = Reduce.
Hypothesis Hcs : mapM npg_func (agg_combine agg) = Ok cs.
Hypothesis Hfill : agg_fill_intermediate agg = Some <$> fills.
Hypothesis Hlk : length ks = length fills.
Hypothesis Hlc : length cs = length fills.
Hypothesis Hne : fills ≠ [].
Hypothesis Hlaw : ∀ i c m f, ks !! i = Some c → cs !! i = Some m →
                             fills !! i = Some f → decomposes c m f.

End stages.





(** ** [groupby_reduce] on one-dimensional numpy arrays *)

Lemma npg_func_position_free name k : npg_func name = Ok k → position_free k.
Proof.
  unfold npg_func. repeat case_match; intros [= <-]; intros ms ms' Hms; simpl;
    unfold fold_members;
    rewrite <- ?(length_fmap snd ms), <- ?(length_fmap snd ms'), ?Hms; try done.
  - destruct ms as [|m ms], ms' as [|m' ms']; try done. simpl in *. congruence.
  - assert (∀ l : list (Z * value),
              from_option snd VNaN (last l) = default VNaN (last (snd <$> l)))
      as Hlast.
    { intros l. rewrite fmap_last. by destruct (last l). }
    by rewrite !Hlast, Hms.
Qed.

Lemma np_squeeze_nil {A} (a : ndarray A) : np_squeeze a [] = a.
Proof.
  destruct a as [sh d]. unfold np_squeeze. cbn [shape data]. f_equal.
  generalize 0%nat. induction sh as [|x sh IH]; intros s; [done|].
  simpl. by rewrite IH.
Qed.

Lemma squeeze_results_1d (r : IntermediateDict) :
  length (shape (groups r)) = 1%nat → _squeeze_results r [0] = Ok r.
Proof.
  intros Hg. unfold _squeeze_results. rewrite Hg.
  cbn [Nat.sub seq filter list_filter length take merge_sort].
  change (take (length (merge_sort Z.le [0]) - 1) (merge_sort Z.le [0]))
    with (@nil Z).
  cbn [mapM mbind result_bind omap].
  rewrite (mapM_fmap_Ok _ id); cycle 1.
  { intros v _. by rewrite np_squeeze_nil. }
  cbn [mbind result_bind]. rewrite list_fmap_id, np_squeeze_nil.
  by destruct r.
Qed.


Lemma npg_func_not_repaired nm k :
  npg_func (if String.eqb nm "count" then "nanlen" else nm) = Ok k →
  in_names nm ["argmin"; "argmax"; "nanargmax"; "nanargmin"] = false
  ∧ in_names nm ["nanvar"; "nanstd"] = false.
Proof.
  intros Hk. unfold in_names. split; apply bool_decide_eq_false; intros Hin;
    repeat (apply elem_of_cons in Hin as [->|Hin]; [by vm_compute in Hk|]);
    by apply elem_of_nil in Hin.
Qed.

Lemma np_where_counts_1d (cnt res : scalar → value) gs m fv :
  np_where_counts (arr1 (cnt <$> gs)) m (arr1 (res <$> gs)) fv
  = Ok (arr1 ((λ g, if value_ge (cnt g) m then res g else cast_fill fv) <$> gs)).
Proof.
  unfold np_where_counts. cbn [arr1 shape data]. rewrite !length_fmap.
  rewrite bool_decide_eq_true_2 by done. cbn [negb]. f_equal. unfold arr1.
  rewrite !length_fmap. f_equal.
  induction gs as [|g gs IH]; [done|]. rewrite !fmap_cons. simpl zip.
  rewrite fmap_cons. by rewrite IH.
Qed.

Lemma reduce_numpy_1d (r : Aggregation) k labs vals e fv mc :
  length labs = length vals →
  npg_func (if String.eqb (agg_name r) "count" then "nanlen" else agg_name r)
  = Ok k →
  reduce_numpy (arr1 vals) (arr1 labs) r (Some e) false [0] fv mc
  = a ← reindex_ (arr1 (numpy_cell k fv mc labs vals <$> result_groups labs))
          (result_groups labs) e fv;
    Ok (a, e).
Proof.
  intros Hlen Hk. unfold reduce_numpy. cbn [agg_name].
  destruct (npg_func_not_repaired _ _ Hk) as [-> Hvar]. rewrite Hvar.
  pose proof (npg_func_position_free _ _ Hk) as Hpf.
  rewrite orb_false_r. unfold chunk_reduce_named.
  destruct mc as [m|]; cbn [bool_decide is_Some mapM mbind result_bind].
  - rewrite (bool_decide_eq_true_2 (is_Some (Some m))) by eauto.
    cbn [mapM]. rewrite Hk. cbn [mbind result_bind].
    change (npg_func "nanlen") with (Ok k_nanlen : result (kernel value)).
    cbn [mbind result_bind].
    rewrite chunk_reduce_1d
      by (done || (repeat constructor; [done|apply position_free_nanlen])).
    cbn [mbind result_bind]. unfold _finalize_results.
    rewrite spec_reduce_alt, squeeze_results_1d by done.
    cbn [mbind result_bind agg_finalize intermediates groups zip zip_with fmap
         list_fmap split_last last length Nat.sub take py_first data arr1].
    rewrite (np_where_counts_1d (block_slot k_nanlen (V 0) labs vals)
               (block_slot k (cast_fill fv) labs vals)).
    cbn [mbind result_bind].
    by destruct (reindex_ _ _ _ _).
  - rewrite (bool_decide_eq_false_2 (is_Some None)) by (by intros [? ?]).
    cbn [mapM]. rewrite Hk. cbn [mbind result_bind].
    rewrite chunk_reduce_1d by (done || by repeat constructor).
    cbn [mbind result_bind]. unfold _finalize_results.
    rewrite spec_reduce_alt, squeeze_results_1d by done.
    cbn [mbind result_bind agg_finalize intermediates groups zip zip_with fmap
         list_fmap py_first data arr1].
    by destruct (reindex_ _ _ _ _).
Qed.

Lemma groupby_reduce_numpy_1d (aggs : catalog) labs vals func eg fill skipna
    mc name r k :
  length labs = length vals →
  resolve_func func skipna mc = Ok name → aggs name = Some r →
  npg_func (if String.eqb (agg_name r) "count" then "nanlen" else agg_name r)
  = Ok k →
  groupby_reduce aggs (arr1 vals) None (arr1 labs) func eg false AxNone fill
    skipna mc
  = fv ← match mc with
         | Some _ => if in_names name ["nansum"; "nanprod"] then Ok (Some VNaN)
                     else Err AssertionError
         | None => Ok match fill with
                      | None => agg_fill_final r
                      | Some f => Some f
                      end
         end;
    a ← reindex_ (arr1 (numpy_cell k fv mc labs vals <$> result_groups labs))
          (result_groups labs) (default (observed_groups labs) eg) fv;
    Ok (a, Some (default (observed_groups labs) eg)).
Proof.
  intros Hlen Hname Hr Hk. unfold groupby_reduce.
  cbn [arr1 shape length shape_trail Nat.sub drop].
  rewrite Hlen, bool_decide_eq_true_2 by done. cbn [negb].
  rewrite Hname. cbn [mbind result_bind].
  change (resolve_axis AxNone 1 1) with (Ok [0] : result (list Z)).
  cbn [mbind result_bind length Nat.ltb Nat.leb]. rewrite Hr.
  cbn [mbind result_bind].
  destruct (match mc with Some _ => _ | None => _ end) as [fv|]; [|done].
  cbn [mbind result_bind].
  assert (match eg with
          | Some e => Some e
          | None => Some (np_unique (filter (λ x, isnull x = false)
                                       (data (arr1 labs))))
          end = Some (default (observed_groups labs) eg)) as ->
    by by destruct eg.
  rewrite (reduce_numpy_1d r k) by done. cbn [mbind result_bind].
  by destruct (reindex_ _ _ _ _).
Qed.

Lemma reindex_same a g fv :
  Forall (λ x, isnull x = false) g → reindex_ a g g fv = Ok a.
Proof.
  intros Hg. unfold reindex_. rewrite Nat.eqb_refl, forallb_np_eq_diag; [done|].
  intros Hin. eapply List.Forall_forall in Hg; [|by apply list_elem_of_In].
  done.
Qed.

Lemma reindex_to_nothing (vs : list value) from_ fv :
  vs ≠ [] → from_ ≠ [] → reindex_ (arr1 vs) from_ [] fv = Err IndexError.
Proof.
  intros Hvs Hfrom. unfold reindex_.
  destruct from_ as [|g from_]; [done|]. cbn [length Nat.eqb andb].
  cbn [arr1 shape]. rewrite py_index_1. cbn [mbind result_bind].
  destruct (Z.eqb_spec (Z.of_nat (length vs)) 0) as [E|_]; [|done].
  destruct vs; [done|simpl in E; lia].
Qed.

Lemma observed_groups_valid labs :
  Forall (λ x, isnull x = false) (observed_groups labs).
Proof.
  apply List.Forall_forall. intros g Hg%list_elem_of_In.
  by apply observed_groups_elem_of in Hg as [_ ?].
Qed.

Lemma result_groups_observed labs :
  ¬ Forall (λ l, isnull l = true) labs →
  result_groups labs = observed_groups labs.
Proof.
  intros Hsome. unfold result_groups.
  destruct (observed_groups labs) eqn:E; [|done].
  by apply observed_groups_nil in E.
Qed.

Lemma group_values_nonempty labs (vals : list value) g :
  length labs = length vals → g ∈ labs → group_values labs vals g ≠ [].
Proof.
  unfold group_values. revert vals.
  induction labs as [|l labs IH]; intros [|v vals] Hlen Hg; try done.
  - by apply elem_of_nil in Hg.
  - simpl. case_bool_decide as Hl; [done|].
    apply elem_of_cons in Hg as [->|Hg]; [done|]. apply IH; [|done].
    by injection Hlen.
Qed.

Lemma slot_value_sum_nonempty f xs :
  xs ≠ [] → slot_value k_sum f xs = vsum xs.
Proof.
  intros Hxs. unfold slot_value. rewrite filter_all_cells.
  destruct xs as [|x xs]; [done|]. cbn [k_red k_sum]. by rewrite tag_untag.
Qed.

Lemma slot_value_nansum_fill f xs :
  slot_value k_nansum f xs
  = match filter (λ v, is_vnan v = false) xs with
    | [] => f
    | ys => vsum ys
    end.
Proof.
  unfold slot_value.
  assert (filter (λ v, k_keep k_nansum v = true) xs
          = filter (λ v, is_vnan v = false) xs) as ->.
  { apply list_filter_iff. intros v. simpl. by destruct (is_vnan v). }
  destruct (filter _ xs) as [|y ys]; [done|].
  cbn [k_red k_nansum]. by rewrite tag_untag.
Qed.

Lemma slot_value_nanlen_fill f xs :
  slot_value k_nanlen f xs
  = match filter (λ v, is_vnan v = false) xs with
    | [] => f
    | ys => V (Z.of_nat (length ys))
    end.
Proof.
  unfold slot_value.
  assert (filter (λ v, k_keep k_nanlen v = true) xs
          = filter (λ v, is_vnan v = false) xs) as ->.
  { apply list_filter_iff. intros v. simpl. by destruct (is_vnan v). }
  destruct (filter _ xs) as [|y ys]; [done|].
  cbn [k_red k_nanlen]. by rewrite length_fmap.
Qed.

(** X11.  [groupby_reduce] with ["sum"] and [skipna=False] on
    one-dimensional numpy arrays: the groups are the distinct labels that are
    not missing, in ascending order, and the value of each group is the sum
    of exactly the cells that carry its label, whatever [fill_value] is.
    The catalog is a parameter, its entry for ["sum"] names the kernel
    ["sum"]; at least one label is not missing. *)
Theorem groupby_reduce_sum_of_each_group (aggs : catalog) labs vals fill r :
  length labs = length vals → aggs "sum" = Some r → agg_name r = "sum" →
  ¬ Forall (λ l, isnull l = true) labs →
  groupby_reduce aggs (arr1 vals) None (arr1 labs) "sum" None false AxNone
    fill (Some false) None
  = Ok (arr1 ((λ g, vsum (group_values labs vals g)) <$> observed_groups labs),
        Some (observed_groups labs)).
Proof.
  intros Hlen Hr Hname Hsome.
  rewrite (groupby_reduce_numpy_1d aggs labs vals "sum" None fill (Some false)
             None "sum" r k_sum) by (done || by rewrite Hname).
  cbn [mbind result_bind default]. rewrite result_groups_observed by done.
  rewrite reindex_same by apply observed_groups_valid.
  cbn [mbind result_bind]. do 3 f_equal. apply list_fmap_ext.
  intros _ g [Hin Hg]%list_elem_of_lookup_2%observed_groups_elem_of.
  unfold numpy_cell, block_slot. rewrite Hg.
  apply slot_value_sum_nonempty. by apply group_values_nonempty.
Qed.

Lemma groupby_reduce_sum_of_each_group_witness :
  groupby_reduce aggregations (arr1 [V 1; V 2; V 3; V 4]) None
    (arr1 [Str "b"; NaN; Str "a"; Str "b"]) "sum" None false AxNone None
    (Some false) None
  = Ok (arr1 ((λ g, vsum (group_values [Str "b"; NaN; Str "a"; Str "b"]
                            [V 1; V 2; V 3; V 4] g))
                <$> observed_groups [Str "b"; NaN; Str "a"; Str "b"]),
        Some (observed_groups [Str "b"; NaN; Str "a"; Str "b"])).
Proof.
  apply (groupby_reduce_sum_of_each_group aggregations
           [Str "b"; NaN; Str "a"; Str "b"] [V 1; V 2; V 3; V 4] None
           (mkAggregation "sum" ["sum"] ["sum"] None [Some (V 0)] (Some (V 0))
              Reduce)); try reflexivity.
  intros Hall. by apply Forall_cons in Hall as [? _].
Defined.

(** X12.  [min_count] on one-dimensional numpy arrays.  ["sum"] with
    [skipna] true or left out and [min_count] given: the value of a group is
    the sum of its cells that are not NaN when there are at least [min_count]
    of them and at least one, and NaN otherwise; the [fill_value] passed is
    not used.  The catalog is a parameter, its entry for ["nansum"] names
    the kernel ["nansum"]; at least one label is not missing. *)
Theorem groupby_reduce_nansum_min_count (aggs : catalog) labs vals fill skipna
    m r :
  length labs = length vals → skipna ≠ Some false →
  aggs "nansum" = Some r → agg_name r = "nansum" →
  ¬ Forall (λ l, isnull l = true) labs →
  groupby_reduce aggs (arr1 vals) None (arr1 labs) "sum" None false AxNone
    fill skipna (Some m)
  = Ok (arr1 ((λ g, let xs := group_valid labs vals g in
                    if Z.of_nat (length xs) <? Z.max m 1 then VNaN
                    else vsum xs) <$> observed_groups labs),
        Some (observed_groups labs)).
Proof.
  intros Hlen Hskip Hr Hname Hsome.
  assert (resolve_func "sum" skipna (Some m) = Ok "nansum") as Hres.
  { unfold resolve_func. destruct skipna as [[]|]; try done;
      by destruct (1 <? m). }
  rewrite (groupby_reduce_numpy_1d aggs labs vals "sum" None fill skipna
             (Some m) "nansum" r k_nansum) by (done || by rewrite Hname).
  cbn [mbind result_bind default].
  change (in_names "nansum" ["nansum"; "nanprod"]) with true.
  cbn [mbind result_bind]. rewrite result_groups_observed by done.
  rewrite reindex_same by apply observed_groups_valid.
  cbn [mbind result_bind]. do 3 f_equal. apply list_fmap_ext.
  intros _ g [Hin Hg]%list_elem_of_lookup_2%observed_groups_elem_of.
  unfold numpy_cell, block_slot, group_valid. rewrite Hg.
  rewrite slot_value_nansum_fill, slot_value_nanlen_fill. cbn [cast_fill default].
  destruct (filter _ (group_values labs vals g)) as [|y ys]; cbn [value_ge length].
  - destruct (m <=? 0); by destruct (Z.ltb_spec (Z.of_nat 0) (Z.max m 1)); try lia.
  - destruct (Z.leb_spec m (Z.of_nat (S (length ys))));
      destruct (Z.ltb_spec (Z.of_nat (S (length ys))) (Z.max m 1)); (done || lia).
Qed.

Lemma groupby_reduce_nansum_min_count_witness :
  groupby_reduce aggregations (arr1 [V 1; V 2; VNaN; V 4]) None
    (arr1 [Str "b"; NaN; Str "a"; Str "b"]) "sum" None false AxNone None
    None (Some 2)
  = Ok (arr1 ((λ g, let xs := group_valid [Str "b"; NaN; Str "a"; Str "b"]
                                [V 1; V 2; VNaN; V 4] g in
                    if Z.of_nat (length xs) <? Z.max 2 1 then VNaN
                    else vsum xs)
                <$> observed_groups [Str "b"; NaN; Str "a"; Str "b"]),
        Some (observed_groups [Str "b"; NaN; Str "a"; Str "b"])).
Proof.
  apply (groupby_reduce_nansum_min_count aggregations
           [Str "b"; NaN; Str "a"; Str "b"] [V 1; V 2; VNaN; V 4] None None 2
           (mkAggregation "nansum" ["nansum"] ["sum"] None [Some (V 0)]
              (Some (V 0)) Reduce)); try reflexivity.
  - discriminate.
  - intros Hall. by apply Forall_cons in Hall as [? _].
Defined.

(** X13.  [expected_groups] and [fill_value] on one-dimensional numpy
    arrays.  ["sum"] with [skipna=False], a non-empty [expected_groups] and a
    [fill_value]: the result has one value per expected label, in the order
    given; it is the sum of the cells that carry the label when the label
    occurs, and [fill_value] when it does not occur or is itself the
    missing-value marker.  The catalog is a parameter, its entry for ["sum"]
    names the kernel ["sum"]. *)
Theorem groupby_reduce_expected_groups_fill (aggs : catalog) labs vals e f r :
  length labs = length vals → e ≠ [] →
  aggs "sum" = Some r → agg_name r = "sum" →
  groupby_reduce aggs (arr1 vals) None (arr1 labs) "sum" (Some e) false AxNone
    (Some f) (Some false) None
  = Ok (arr1 ((λ g, if bool_decide (g ∈ labs) && negb (isnull g)
                    then vsum (group_values labs vals g) else f) <$> e),
        Some e).
Proof.
  intros Hlen He Hr Hname.
  rewrite (groupby_reduce_numpy_1d aggs labs vals "sum" (Some e) (Some f)
             (Some false) None "sum" r k_sum) by (done || by rewrite Hname).
  cbn [mbind result_bind default].
  rewrite reindex_1d;
    [|apply result_groups_nonempty|done|intros g _; apply block_slot_absent].
  cbn [mbind result_bind]. do 3 f_equal. apply list_fmap_ext.
  intros _ g _. unfold numpy_cell, block_slot. cbn [cast_fill default].
  destruct (isnull g); [by rewrite andb_false_r|]. rewrite andb_true_r.
  case_bool_decide as Hin.
  - apply slot_value_sum_nonempty. by apply group_values_nonempty.
  - by rewrite group_values_absent.
Qed.

Lemma groupby_reduce_expected_groups_fill_witness :
  groupby_reduce aggregations (arr1 [V 1; V 2; V 3; V 4]) None
    (arr1 [Str "b"; NaN; Str "a"; Str "b"]) "sum"
    (Some [Str "c"; Str "b"; NaN]) false AxNone (Some (V 7)) (Some false) None
  = Ok (arr1 ((λ g, if bool_decide (g ∈ [Str "b"; NaN; Str "a"; Str "b"])
                       && negb (isnull g)
                    then vsum (group_values [Str "b"; NaN; Str "a"; Str "b"]
                                 [V 1; V 2; V 3; V 4] g)
                    else V 7) <$> [Str "c"; Str "b"; NaN]),
        Some [Str "c"; Str "b"; NaN]).
Proof.
  apply (groupby_reduce_expected_groups_fill aggregations
           [Str "b"; NaN; Str "a"; Str "b"] [V 1; V 2; V 3; V 4]
           [Str "c"; Str "b"; NaN] (V 7)
           (mkAggregation "sum" ["sum"] ["sum"] None [Some (V 0)] (Some (V 0))
              Reduce)); try reflexivity.
  discriminate.
Defined.

(** X14.  ["count"] on one-dimensional numpy arrays with [expected_groups]
    and a [fill_value]: an expected label gets the number of its cells that
    are not NaN, and [fill_value] when that number is zero, be it that the
    label does not occur, that all its cells are NaN, or that the label is
    the missing-value marker.  The catalog is a parameter, its entry for
    ["count"] carries that name. *)
Theorem groupby_reduce_count_fill (aggs : catalog) labs vals e f skipna r :
  length labs = length vals → e ≠ [] → skipna ≠ Some true →
  aggs "count" = Some r → agg_name r = "count" →
  groupby_reduce aggs (arr1 vals) None (arr1 labs) "count" (Some e) false
    AxNone (Some f) skipna None
  = Ok (arr1 ((λ g, if isnull g then f
                    else match group_valid labs vals g with
                         | [] => f
                         | xs => V (Z.of_nat (length xs))
                         end) <$> e),
        Some e).
Proof.
  intros Hlen He Hskip Hr Hname.
  assert (resolve_func "count" skipna None = Ok "count") as Hres.
  { unfold resolve_func. by destruct skipna as [[]|]. }
  rewrite (groupby_reduce_numpy_1d aggs labs vals "count" (Some e) (Some f)
             skipna None "count" r k_nanlen) by (done || by rewrite Hname).
  cbn [mbind result_bind default].
  rewrite reindex_1d;
    [|apply result_groups_nonempty|done|intros g _; apply block_slot_absent].
  cbn [mbind result_bind]. do 3 f_equal. apply list_fmap_ext.
  intros _ g _. unfold numpy_cell, block_slot, group_valid.
  cbn [cast_fill default]. destruct (isnull g); [done|].
  apply slot_value_nanlen_fill.
Qed.

Lemma groupby_reduce_count_fill_witness :
  groupby_reduce aggregations (arr1 [V 1; V 2; VNaN; V 4]) None
    (arr1 [Str "b"; NaN; Str "a"; Str "b"]) "count"
    (Some [Str "a"; Str "b"; Str "c"]) false AxNone (Some (V (-1))) None None
  = Ok (arr1 ((λ g, if isnull g then V (-1)
                    else match group_valid [Str "b"; NaN; Str "a"; Str "b"]
                                 [V 1; V 2; VNaN; V 4] g with
                         | [] => V (-1)
                         | xs => V (Z.of_nat (length xs))
                         end) <$> [Str "a"; Str "b"; Str "c"]),
        Some [Str "a"; Str "b"; Str "c"]).
Proof.
  apply (groupby_reduce_count_fill aggregations
           [Str "b"; NaN; Str "a"; Str "b"] [V 1; V 2; VNaN; V 4]
           [Str "a"; Str "b"; Str "c"] (V (-1)) None
           (mkAggregation "count" ["nanlen"] ["sum"] None [Some (V 0)]
              (Some (V 0)) Reduce)); try reflexivity; discriminate.
Defined.

(** X15.  When no label is present.  On one-dimensional numpy arrays whose
    labels are all missing, the empty arrays included, [groupby_reduce]
    without [expected_groups] and [min_count] raises [IndexError] for every
    reduction it knows: the groups to report are none, and [reindex_] indexes
    with an empty array of floats. *)
Theorem groupby_reduce_all_labels_missing (aggs : catalog) labs vals func fill
    skipna name r k :
  length labs = length vals → Forall (λ l, isnull l = true) labs →
  resolve_func func skipna None = Ok name → aggs name = Some r →
  npg_func (if String.eqb (agg_name r) "count" then "nanlen" else agg_name r)
  = Ok k →
  groupby_reduce aggs (arr1 vals) None (arr1 labs) func None false AxNone fill
    skipna None
  = Err IndexError.
Proof.
  intros Hlen Hall Hres Hr Hk.
  rewrite (groupby_reduce_numpy_1d aggs labs vals func None fill skipna None
             name r k) by done.
  cbn [mbind result_bind default].
  apply observed_groups_nil in Hall. unfold result_groups. rewrite Hall.
  by rewrite reindex_to_nothing.
Qed.

Lemma groupby_reduce_all_labels_missing_witness :
  groupby_reduce aggregations (arr1 [V 1; V 2]) None (arr1 [NaN; NaN]) "sum"
    None false AxNone None None None
  = Err IndexError.
Proof.
  apply (groupby_reduce_all_labels_missing aggregations [NaN; NaN] [V 1; V 2]
           "sum" None None "nansum"
           (mkAggregation "nansum" ["nansum"] ["sum"] None [Some (V 0)]
              (Some (V 0)) Reduce) k_nansum); try reflexivity.
  by repeat constructor.
Defined.




(** ** More on the cohort analyzer *)

Lemma dict_append_keys {K V} `{EqDecision K} (d : dict K (list V)) k x :
  dict_keys (dict_append d k x)
  = if bool_decide (k ∈ dict_keys d) then dict_keys d else dict_keys d ++ [k].
Proof.
  unfold dict_keys. induction d as [|[k' xs] d IH]; [done|].
  cbn [dict_append]. destruct (decide (k' = k)) as [->|Hne].
  - rewrite !fmap_cons. cbn [fst]. rewrite bool_decide_eq_true_2; [done|left].
  - rewrite !fmap_cons, IH. cbn [fst].
    destruct (bool_decide (k ∈ d.*1)) eqn:Hin.
    + apply bool_decide_eq_true in Hin.
      rewrite bool_decide_eq_true_2; [done|by right].
    + apply bool_decide_eq_false in Hin.
      rewrite bool_decide_eq_false_2; [done|].
      by intros [?|?]%elem_of_cons.
Qed.

Lemma dict_append_grouped {A K} `{EqDecision K} (key : A → K) d x :
  grouped_by key d → grouped_by key (dict_append d (key x) x).
Proof.
  intros [Hnd Hall]. split.
  - rewrite dict_append_keys. case_bool_decide; [done|].
    apply NoDup_app. split; [done|]. split; [|apply NoDup_singleton].
    by intros k Hk ->%list_elem_of_singleton.
  - clear Hnd. induction Hall as [|[k xs] d [Hne Hxs] Hd IH]; cbn [dict_append].
    + constructor; [|constructor]. cbn [fst snd]. split; [done|].
      by repeat constructor.
    + cbn [fst snd] in *. destruct (decide (k = key x)) as [->|Hk].
      * constructor; [|done]. cbn [fst snd]. split; [by destruct xs|].
        apply Forall_app. split; [done|]. by repeat constructor.
      * constructor; [done|]. apply IH.
Qed.

Lemma tlz_groupby_grouped {A K} `{EqDecision K} (key : A → K) seq :
  grouped_by key (tlz_groupby key seq).
Proof.
  unfold tlz_groupby.
  assert (grouped_by key (@nil (K * list A))) as Hnil.
  { split; constructor. }
  revert Hnil. generalize (@nil (K * list A)).
  induction seq as [|x seq IH]; intros d Hd; [done|].
  simpl. apply IH. by apply dict_append_grouped.
Qed.

Lemma grouped_same_entry {A K} (d : dict K (list A)) kv kv' :
  NoDup (dict_keys d) → kv ∈ d → kv' ∈ d → kv.1 = kv'.1 → kv = kv'.
Proof.
  unfold dict_keys. induction d as [|e d IH]; [by intros _ ?%elem_of_nil|].
  rewrite fmap_cons. intros [Hnin Hnd]%NoDup_cons Hkv Hkv' Heq.
  apply elem_of_cons in Hkv as [->|Hkv], Hkv' as [->|Hkv']; [done| | |by apply IH].
  - destruct Hnin. rewrite Heq. apply list_elem_of_fmap. eauto.
  - destruct Hnin. rewrite <- Heq. apply list_elem_of_fmap. eauto.
Qed.

Lemma label_chunks_get (which_chunk : list Z) labels uniq label_chunks a :
  mapM (λ lab, present ← np_mask_index which_chunk (np_eq lab <$> labels);
               Ok (lab, np_uniqueZ present)) uniq = Ok label_chunks →
  NoDup uniq → a ∈ uniq →
  ∃ present, np_mask_index which_chunk (np_eq a <$> labels) = Ok present
             ∧ dict_get label_chunks a = Some (np_uniqueZ present).
Proof.
  revert label_chunks. induction uniq as [|lab uniq IH]; intros lc Hmap Hnd Ha.
  { by apply elem_of_nil in Ha. }
  cbn [mapM] in Hmap.
  destruct (np_mask_index which_chunk (np_eq lab <$> labels)) as [present|] eqn:Hp;
    [|done].
  cbn [mbind result_bind] in Hmap.
  destruct (mapM _ uniq) as [lc'|] eqn:Hrest; [|done].
  cbn [mbind result_bind] in Hmap. injection Hmap as <-.
  apply NoDup_cons in Hnd as [Hnin Hnd].
  unfold dict_get. cbn [list_find fst].
  destruct (decide (lab = a)) as [->|Hne].
  - exists present. by rewrite Hp.
  - apply elem_of_cons in Ha as [?|Ha]; [done|].
    destruct (IH lc' eq_refl Hnd Ha) as (pa & Hpa & Hget).
    exists pa. split; [done|]. unfold dict_get in Hget.
    destruct (list_find _ lc') as [[i kv]|]; [|done]. done.
Qed.

(** X17.  What a cohort is.  With [merge=False], two labels of the array are
    put in the same cohort exactly when they are present in the same set of
    chunks. *)
Theorem find_group_cohorts_same_chunks labels chunks cohorts a b :
  find_group_cohorts labels chunks false = Ok cohorts →
  a ∈ labels → b ∈ labels →
  (∃ c, c ∈ cohorts ∧ a ∈ c ∧ b ∈ c)
  ↔ label_chunk_set labels chunks a = label_chunk_set labels chunks b.
Proof.
  unfold find_group_cohorts, label_chunk_set.
  destruct (np_repeat _ chunks) as [which_chunk|] eqn:Hrep; [|done].
  cbn [mbind result_bind].
  destruct (mapM _ (np_unique labels)) as [lc|] eqn:Hmap; [|done].
  cbn [mbind result_bind]. intros [= <-] Ha Hb.
  pose proof (label_chunks_keys _ _ _ _ Hmap) as Hkeys. rewrite Hkeys.
  apply np_unique_elem_of in Ha, Hb.
  destruct (label_chunks_get _ _ _ _ a Hmap (np_unique_NoDup labels) Ha)
    as (pa & -> & Hga).
  destruct (label_chunks_get _ _ _ _ b Hmap (np_unique_NoDup labels) Hb)
    as (pb & -> & Hgb).
  cbn [mbind result_bind].
  pose proof (tlz_groupby_grouped (dict_get lc) (np_unique labels))
    as [Hnd Hall].
  pose proof (tlz_groupby_values (dict_get lc) (np_unique labels)) as Hperm.
  set (d := tlz_groupby (dict_get lc) (np_unique labels)) in *.
  assert (∀ x kv, kv ∈ d → x ∈ kv.2 → dict_get lc x = kv.1) as Hkey.
  { intros x kv Hkv Hx.
    eapply List.Forall_forall in Hall; [|by apply list_elem_of_In].
    destruct Hall as [_ Hxs]. 
    by eapply List.Forall_forall in Hxs; [|by apply list_elem_of_In]. }
  assert (∀ x, x ∈ np_unique labels → ∃ kv, kv ∈ d ∧ x ∈ kv.2) as Hcover.
  { intros x Hx. rewrite <- Hperm in Hx.
    apply list_elem_of_join in Hx as (c & Hxc & Hc).
    apply list_elem_of_fmap in Hc as (kv & -> & Hkv). eauto. }
  split.
  - intros (c & Hc & Hac & Hbc).
    apply list_elem_of_fmap in Hc as (kv & -> & Hkv).
    pose proof (Hkey a kv Hkv Hac) as H1. pose proof (Hkey b kv Hkv Hbc) as H2.
    rewrite Hga in H1. rewrite Hgb in H2. congruence.
  - intros [= Heq].
    destruct (Hcover a Ha) as (kva & Hkva & Hina).
    destruct (Hcover b Hb) as (kvb & Hkvb & Hinb).
    assert (kva = kvb) as ->.
    { apply (grouped_same_entry d); [done..|].
      rewrite <- (Hkey a kva), <- (Hkey b kvb) by done. congruence. }
    exists kvb.2. split; [|done]. apply list_elem_of_fmap. eauto.
Qed.

Lemma find_group_cohorts_same_chunks_witness :
  (∃ c, c ∈ [[num 1]; [num 2; num 3]; [num 4]; [num 5]]
        ∧ num 2 ∈ c ∧ num 3 ∈ c)
  ↔ label_chunk_set (num <$> [1; 2; 3; 1; 2; 3; 4; 1; 2; 3; 4; 5]) [4; 4; 4]
      (num 2)
    = label_chunk_set (num <$> [1; 2; 3; 1; 2; 3; 4; 1; 2; 3; 4; 5]) [4; 4; 4]
        (num 3).
Proof.
  apply (find_group_cohorts_same_chunks
           (num <$> [1; 2; 3; 1; 2; 3; 4; 1; 2; 3; 4; 5]) [4; 4; 4]).
  - vm_compute. reflexivity.
  - right. left.
  - right. right. left.
Defined.

Lemma filter_keys_snoc {V} (rest : list (option (list Z) * V)) mk k :
  k ∉ rest.*1 →
  filter (λ kv, kv.1 ∉ mk ++ [k]) rest = filter (λ kv, kv.1 ∉ mk) rest.
Proof.
  intros Hk. induction rest as [|[k' v] rest IH]; [done|].
  rewrite fmap_cons in Hk. apply not_elem_of_cons in Hk as [Hne Hk].
  rewrite !filter_cons. cbn [fst]. rewrite IH by done.
  destruct (decide (k' ∉ mk ++ [k])) as [H1|H1], (decide (k' ∉ mk)) as [H2|H2];
    try done.
  - destruct H2. intros ?. apply H1. apply elem_of_app. by left.
  - destruct H1. intros [?|?%list_elem_of_singleton]%elem_of_app; done.
Qed.

Lemma merge_inner_perm k1 (rest : list (option (list Z) * list scalar)) cohort mk :
  NoDup rest.*1 →
  let r := fold_left (merge_inner k1) rest (cohort, mk) in
  r.1 ++ mjoin (snd <$> filter (λ kv, kv.1 ∉ r.2) rest)
  ≡ₚ cohort ++ mjoin (snd <$> filter (λ kv, kv.1 ∉ mk) rest)
  ∧ (∀ k, k ∈ mk → k ∈ r.2)
  ∧ (∀ k, k ∈ r.2 → k ∈ mk ∨ k ∈ rest.*1).
Proof.
  revert cohort mk. induction rest as [|[k2 v2] rest IH]; intros cohort mk Hnd.
  { simpl. split_and!; [done|done|by left]. }
  rewrite fmap_cons in Hnd. apply NoDup_cons in Hnd as [Hnin Hnd].
  cbn [fold_left merge_inner]. cbn zeta.
  rewrite !filter_cons. cbn [fst snd]. rewrite fmap_cons.
  case_bool_decide as Hmk.
  - destruct (IH cohort mk Hnd) as (Hperm & Hsub & Hsup).
    set (r := fold_left (merge_inner k1) rest (cohort, mk)) in *.
    rewrite decide_False by (intros H; apply H; by apply Hsub).
    rewrite decide_False by (intros H; by apply H).
    split_and!; [done|done|].
    intros k Hk. destruct (Hsup k Hk); [by left|right; by right].
  - destruct (chunks_subset k2 k1) eqn:Hsubset.
    + destruct (IH (cohort ++ v2) (mk ++ [k2]) Hnd) as (Hperm & Hsub & Hsup).
      set (r := fold_left (merge_inner k1) rest (cohort ++ v2, mk ++ [k2])) in *.
      rewrite decide_False; cycle 1.
      { intros H. apply H. apply Hsub, elem_of_app. right. left. }
      rewrite decide_True by done.
      rewrite filter_keys_snoc in Hperm by done.
      split_and!.
      * rewrite Hperm, fmap_cons. simpl. by rewrite <- app_assoc.
      * intros k Hk. apply Hsub, elem_of_app. by left.
      * intros k Hk. destruct (Hsup k Hk) as [[?|?%list_elem_of_singleton]%elem_of_app|?].
        -- by left.
        -- subst. right. left.
        -- right. by right.
    + destruct (IH cohort mk Hnd) as (Hperm & Hsub & Hsup).
      set (r := fold_left (merge_inner k1) rest (cohort, mk)) in *.
      rewrite decide_True; cycle 1.
      { intros Hk. destruct (Hsup k2 Hk); done. }
      rewrite decide_True by done.
      split_and!; [|done|].
      * rewrite !fmap_cons. simpl.
        rewrite (Permutation_app_comm v2), !app_assoc, Hperm.
        by rewrite <- !app_assoc, (Permutation_app_comm v2).
      * intros k Hk. destruct (Hsup k Hk); [by left|right; by right].
Qed.

Lemma merge_outer_perm (items : list (option (list Z) * list scalar)) mk :
  NoDup items.*1 →
  mjoin (dict_values (merge_outer items mk))
  ≡ₚ mjoin (snd <$> filter (λ kv, kv.1 ∉ mk) items).
Proof.
  revert mk. induction items as [|[k1 v1] rest IH]; intros mk Hnd; [done|].
  rewrite fmap_cons in Hnd. apply NoDup_cons in Hnd as [Hnin Hnd].
  cbn [merge_outer]. rewrite filter_cons. cbn [fst].
  case_bool_decide as Hmk.
  - rewrite decide_False by (intros H; by apply H). by apply IH.
  - rewrite decide_True by done.
    pose proof (merge_inner_perm k1 rest v1 mk Hnd) as (Hperm & _ & _).
    destruct (fold_left (merge_inner k1) rest (v1, mk)) as [cohort mk'].
    cbn [fst snd] in Hperm. unfold dict_values in *.
    rewrite !fmap_cons. simpl. by rewrite IH.
Qed.

(** X18.  Merging keeps the partition.  With [merge=True] too, either
    [find_group_cohorts] returns cohorts that are pairwise disjoint and whose
    union is the set of labels present, or it raises, and then a chunk size
    is negative or a non-empty label array is not as long as the chunks
    say. *)
Theorem find_group_cohorts_merge_partition labels chunks :
  match find_group_cohorts labels chunks true with
  | Ok cohorts => cohorts_cover cohorts labels ∧ cohorts_disjoint cohorts
  | Err _ => (∃ c, c ∈ chunks ∧ c < 0)
             ∨ (labels ≠ [] ∧ sumZ chunks ≠ Z.of_nat (length labels))
  end.
Proof.
  unfold find_group_cohorts.
  destruct (np_repeat _ chunks) as [which_chunk|e] eqn:Hrep; simpl.
  2: { left. by eapply np_repeat_Err. }
  apply np_repeat_Ok in Hrep as [Hpos Hwc];
    [|by rewrite np_arange_length, Nat2Z.id].
  destruct (mapM _ (np_unique labels)) as [label_chunks|e] eqn:Hmap; simpl.
  - apply label_chunks_keys in Hmap. rewrite Hmap.
    pose proof (tlz_groupby_values (dict_get label_chunks) (np_unique labels))
      as Hperm.
    pose proof (tlz_groupby_grouped (dict_get label_chunks) (np_unique labels))
      as [Hnd _].
    pose proof (merge_outer_perm _ [] Hnd) as Hmerge.
    assert (∀ l : list (option (list Z) * list scalar),
      filter (λ kv, kv.1 ∉ []) l = l) as Hall.
    { induction l as [|kv l IHl]; [done|].
      rewrite filter_cons, decide_True by apply not_elem_of_nil.
      by rewrite IHl. }
    rewrite Hall in Hmerge.
    fold (dict_values (tlz_groupby (dict_get label_chunks) (np_unique labels)))
      in Hmerge.
    rewrite Hperm in Hmerge.
    split.
    + intros lab. rewrite <- np_unique_elem_of, <- Hmerge, list_elem_of_join.
      split; intros (c & ? & ?); eauto.
    + apply NoDup_mjoin_disjoint. rewrite Hmerge. apply np_unique_NoDup.
  - right. apply mapM_Err in Hmap as (lab & Hlab & Herr).
    apply np_unique_elem_of in Hlab. split; [by intros ->; inv Hlab|].
    unfold np_mask_index in Herr. rewrite length_fmap in Herr.
    destruct (Nat.eqb_spec (length which_chunk) (length labels)) as [Heq|Hne];
      [done|]. lia.
Qed.


(** ** Where the group-boundary-snapping planner cuts *)

Lemma py_index_Ok_inv {A} (l : list A) (i : Z) x :
  py_index l i = Ok x →
  x ∈ l ∧ (0 ≤ i → l !! Z.to_nat i = Some x).
Proof.
  unfold py_index. destruct (_ || _); [done|].
  destruct (l !! Z.to_nat _) as [x'|] eqn:Hx; [|done]. intros [= ->].
  split; [by eapply list_elem_of_lookup_2|].
  intros Hi. destruct (Z.ltb_spec i 0); [lia|]. done.
Qed.

Lemma np_take_Ok_inv {A} (a : list A) (idx : list Z) ys y :
  np_take a idx = Ok ys → y ∈ ys →
  ∃ i, i ∈ idx ∧ py_index a i = Ok y.
Proof.
  intros Hm%mapM_Ok_Forall2 Hy.
  apply list_elem_of_lookup in Hy as [n Hn].
  destruct (Forall2_lookup_r _ _ _ _ _ Hm Hn) as (i & Hi & Hiy).
  exists i. split; [by eapply list_elem_of_lookup_2|done].
Qed.

(** The members of group [g] when the aggregated array is [arange]: the
    positions that carry [g], ascending. *)
Lemma index_members_spec (g : Z) (n s : nat) (labels : list Z) :
  let ms := omap (λ '(i, c, x), if c =? g then Some (0 + Z.of_nat i, x) else None)
                 (zip (zip (seq s n) labels) (Z.of_nat <$> seq s n)) in
  (∀ p x, (p, x) ∈ ms
     ↔ ∃ i, (i < n)%nat ∧ labels !! i = Some g
            ∧ p = Z.of_nat (s + i) ∧ x = Z.of_nat (s + i))
  ∧ StronglySorted (λ a b : Z * Z, a.2 < b.2) ms.
Proof.
  revert s labels. induction n as [|n IH]; intros s labels.
  { simpl. split; [|constructor]. intros p x. split.
    - by intros ?%elem_of_nil.
    - intros (i & ? & _). lia. }
  destruct labels as [|c labels].
  { simpl. split; [|constructor]. intros p x. split.
    - by intros ?%elem_of_nil.
    - by intros (i & _ & ? & _). }
  destruct (IH (S s) labels) as [Hel Hsort]. cbn zeta in *.
  cbn [seq zip zip_with fmap list_fmap omap list_omap].
  change (list_fmap nat Z Z.of_nat (seq (S s) n)) with (Z.of_nat <$> seq (S s) n).
  change (list_omap ?f ?l) with (omap f l).
  set (ms := omap _ _) in *.
  assert (∀ p x, (p, x) ∈ ms → Z.of_nat s < x) as Hgt.
  { intros p x (i & _ & _ & _ & ->)%Hel. lia. }
  assert (∀ p x, (p, x) ∈ ms
     ↔ ∃ i, (0 < i < S n)%nat ∧ (c :: labels) !! i = Some g
            ∧ p = Z.of_nat (s + i) ∧ x = Z.of_nat (s + i)) as Hel'.
  { intros p x. rewrite Hel. split.
    - intros (i & ? & ? & -> & ->). exists (S i).
      split_and!; [lia|lia|done|f_equal; lia|f_equal; lia].
    - intros ([|i] & ? & ? & -> & ->); [lia|]. exists i.
      split_and!; [lia|done|f_equal; lia|f_equal; lia]. }
  destruct (Z.eqb_spec c g) as [->|Hc].
  - split.
    + intros p x. rewrite elem_of_cons, Hel'. split.
      * intros [[= -> ->]|(i & ? & ? & ? & ?)].
        -- exists 0%nat. split_and!; [lia|done|f_equal; lia|f_equal; lia].
        -- exists i. split_and!; [lia|done..].
      * intros ([|i] & ? & ? & -> & ->).
        -- left. f_equal; f_equal; lia.
        -- right. exists (S i). split_and!; [lia|done..].
    + constructor; [done|]. apply List.Forall_forall.
      intros [p x] Hpx%list_elem_of_In. simpl. by eapply Hgt.
  - split; [|done].
    intros p x. rewrite Hel'. split.
    + intros (i & ? & ? & ? & ?). exists i. split_and!; [lia|done..].
    + intros ([|i] & ? & ? & -> & ->); [by simplify_eq/=|].
      exists (S i). split_and!; [lia|done..].
Qed.

Lemma index_members_arange (labels : list Z) (g : Z) :
  let ms := npg_members 0 labels (np_arange (Z.of_nat (length labels))) g in
  (∀ p x, (p, x) ∈ ms ↔ ∃ i : nat, labels !! i = Some g ∧ p = Z.of_nat i ∧ x = Z.of_nat i)
  ∧ StronglySorted (λ a b : Z * Z, a.2 < b.2) ms.
Proof.
  unfold npg_members, np_arange. rewrite length_fmap, length_seq, Nat2Z.id.
  destruct (index_members_spec g (length labels) 0 labels) as [Hel Hsort].
  split; [|done]. intros p x. cbn zeta in Hel. rewrite Hel. split.
  - intros (i & ? & ? & -> & ->). eauto.
  - intros (i & Hi & -> & ->). exists i. split_and!; [|done..].
    by eapply lookup_lt_Some.
Qed.

Lemma sorted_last_max {A} (R : relation A) (l : list A) m e :
  StronglySorted R l → last l = Some m → e ∈ l → e = m ∨ R e m.
Proof.
  induction 1 as [|x l Hl IH Hx]; [by intros ? ?%elem_of_nil|].
  destruct l as [|y l].
  - intros [= <-] ?%list_elem_of_singleton. by left.
  - rewrite last_cons_cons. intros Hm [->|He]%elem_of_cons; [|by apply IH].
    right. apply List.Forall_forall with (x := m) in Hx; [done|].
    apply list_elem_of_In. rewrite last_lookup in Hm.
    by eapply list_elem_of_lookup_2.
Qed.

Lemma sorted_head_min {A} (R : relation A) (l : list A) m e :
  StronglySorted R l → head l = Some m → e ∈ l → e = m ∨ R m e.
Proof.
  destruct 1 as [|x l Hl Hx]; [done|]. intros [= <-] [->|He]%elem_of_cons.
  - by left.
  - right. apply List.Forall_forall with (x := e) in Hx; [done|].
    by apply list_elem_of_In.
Qed.

Lemma filter_keep_all {A} (l : list (Z * A)) :
  filter (λ p : Z * A, true = true) l = l.
Proof.
  induction l as [|x l IH]; [done|]. rewrite filter_cons, decide_True by done.
  by rewrite IH.
Qed.

Lemma npg_aggregate_lookup {A} (labels : list Z) (a : list A) k fill out u :
  npg_aggregate labels a k fill = Ok out → u ∈ labels →
  0 ≤ u ∧ out !! Z.to_nat u = Some (npg_slot k fill 0 labels a u).
Proof.
  unfold npg_aggregate. destruct (existsb _ labels) eqn:Hneg; [done|].
  destruct (negb _); [done|]. destruct (_ =? _)%nat; [done|].
  intros [= <-] Hu.
  assert (0 ≤ u) as H0.
  { destruct (Z.ltb_spec u 0) as [Hlt|]; [|done].
    apply not_true_iff_false in Hneg. destruct Hneg.
    apply existsb_exists. exists u. split; [by apply list_elem_of_In|].
    by apply Z.ltb_lt. }
  split; [done|]. pose proof (maxZ_ge _ _ Hu).
  unfold npg_row, np_arange.
  rewrite !list_lookup_fmap, lookup_seq_lt by lia. simpl.
  by rewrite Z2Nat.id.
Qed.

(** [aggregate(labels, arange, func="last")]: slot [u] holds the last
    position that carries [u]. *)
Lemma last_indexes_spec (labels last_indexes : list Z) u :
  npg_aggregate labels (np_arange (Z.of_nat (length labels))) (k_last 0) 0
  = Ok last_indexes →
  u ∈ labels →
  ∃ j : nat, 0 ≤ u ∧ last_indexes !! Z.to_nat u = Some (Z.of_nat j)
    ∧ labels !! j = Some u
    ∧ ∀ j', (j < j')%nat → labels !! j' ≠ Some u.
Proof.
  intros Hagg Hu.
  destruct (npg_aggregate_lookup _ _ _ _ _ _ Hagg Hu) as [H0 Hlook].
  destruct (index_members_arange labels u) as [Hel Hsort]. cbn zeta in *.
  unfold npg_slot in Hlook. simpl k_keep in Hlook.
  rewrite filter_keep_all in Hlook.
  set (ms := npg_members 0 labels _ u) in *.
  apply list_elem_of_lookup in Hu as [i Hi].
  assert ((Z.of_nat i, Z.of_nat i) ∈ ms) as Hin by (apply Hel; eauto).
  destruct (last ms) as [[p x]|] eqn:Hlast; cycle 1.
  { apply last_None in Hlast. rewrite Hlast in Hin. by apply elem_of_nil in Hin. }
  assert ((p, x) ∈ ms) as Hpx.
  { rewrite last_lookup in Hlast. by eapply list_elem_of_lookup_2. }
  apply Hel in Hpx as (j & Hj & -> & ->).
  exists j. split_and!; [done| |done|].
  - rewrite Hlook. f_equal. destruct ms; [done|]. simpl k_red.
    by rewrite Hlast.
  - intros j' Hlt Hj'.
    assert ((Z.of_nat j', Z.of_nat j') ∈ ms) as Hin' by (apply Hel; eauto).
    destruct (sorted_last_max _ _ _ _ Hsort Hlast Hin') as [[=]|Hlt']; simpl in *; lia.
Qed.

(** [aggregate(labels, arange, func="first")]: slot [u] holds the first
    position that carries [u]. *)
Lemma first_indexes_spec (labels first_indexes : list Z) u :
  npg_aggregate labels (np_arange (Z.of_nat (length labels))) (k_first 0) 0
  = Ok first_indexes →
  u ∈ labels →
  ∃ j : nat, 0 ≤ u ∧ first_indexes !! Z.to_nat u = Some (Z.of_nat j)
    ∧ labels !! j = Some u
    ∧ ∀ j', (j' < j)%nat → labels !! j' ≠ Some u.
Proof.
  intros Hagg Hu.
  destruct (npg_aggregate_lookup _ _ _ _ _ _ Hagg Hu) as [H0 Hlook].
  destruct (index_members_arange labels u) as [Hel Hsort]. cbn zeta in *.
  unfold npg_slot in Hlook. simpl k_keep in Hlook.
  rewrite filter_keep_all in Hlook.
  set (ms := npg_members 0 labels _ u) in *.
  apply list_elem_of_lookup in Hu as [i Hi].
  assert ((Z.of_nat i, Z.of_nat i) ∈ ms) as Hin by (apply Hel; eauto).
  destruct (head ms) as [[p x]|] eqn:Hhead; cycle 1.
  { apply head_None in Hhead. rewrite Hhead in Hin. by apply elem_of_nil in Hin. }
  assert ((p, x) ∈ ms) as Hpx.
  { destruct ms; simplify_eq/=. left. }
  apply Hel in Hpx as (j & Hj & -> & ->).
  exists j. split_and!; [done| |done|].
  - rewrite Hlook. f_equal. destruct ms as [|m ms']; [done|].
    simpl in Hhead. injection Hhead as ->. done.
  - intros j' Hlt Hj'.
    assert ((Z.of_nat j', Z.of_nat j') ∈ ms) as Hin' by (apply Hel; eauto).
    destruct (sorted_head_min _ _ _ _ Hsort Hhead Hin') as [[=]|Hlt']; simpl in *; lia.
Qed.

Lemma optimal_fold_elems (P : Z → Prop) items acc :
  Forall P acc → Forall (λ cfl : Z * Z * Z, P cfl.1.2 ∧ P (cfl.2 + 1)) items →
  Forall P (fold_left optimal_step items acc).
Proof.
  intros Hacc Hitems. revert acc Hacc.
  induction Hitems as [|[[c f] l] items [Hf Hl] _ IH]; intros acc Hacc; [done|].
  simpl in *. apply IH. repeat case_match; [done|..].
  all: apply Forall_app; split; [done|]; by constructor.
Qed.

Lemma bound_labels_present (labels chunkidx at_bounds : list Z) u :
  np_take labels chunkidx = Ok at_bounds → u ∈ np_uniqueZ at_bounds → u ∈ labels.
Proof.
  intros Htake Hu%np_uniqueZ_subseteq.
  destruct (np_take_Ok_inv _ _ _ _ Htake Hu) as (i & _ & Hi).
  by apply py_index_Ok_inv in Hi as [? _].
Qed.

(** A position right after the last occurrence of a label, or the position
    of the first occurrence of a label, lies between two different labels. *)
Lemma after_last_is_boundary (labels : list Z) (j : nat) u x y :
  labels !! j = Some u → (∀ j', (j < j')%nat → labels !! j' ≠ Some u) →
  labels !! Z.to_nat (Z.of_nat j + 1 - 1) = Some x →
  labels !! Z.to_nat (Z.of_nat j + 1) = Some y → x ≠ y.
Proof.
  intros Hj Hlast Hx Hy.
  replace (Z.to_nat (Z.of_nat j + 1 - 1)) with j in Hx by lia.
  replace (Z.to_nat (Z.of_nat j + 1)) with (S j) in Hy by lia.
  intros ->. apply (Hlast (S j)); [lia|]. congruence.
Qed.

Lemma at_first_is_boundary (labels : list Z) (j : nat) u x y :
  labels !! j = Some u → (∀ j', (j' < j)%nat → labels !! j' ≠ Some u) →
  0 < Z.of_nat j →
  labels !! Z.to_nat (Z.of_nat j - 1) = Some x →
  labels !! Z.to_nat (Z.of_nat j) = Some y → x ≠ y.
Proof.
  intros Hj Hfirst Hpos Hx Hy. rewrite Nat2Z.id in Hy.
  intros ->. apply (Hfirst (Z.to_nat (Z.of_nat j - 1))); [lia|]. congruence.
Qed.

Lemma optimal_chunks_boundary chunks labels newchunks b x y :
  sumZ chunks = Z.of_nat (length labels) →
  _get_optimal_chunks_for_groups chunks labels = Ok newchunks →
  b ∈ np_cumsum newchunks → 0 < b →
  labels !! Z.to_nat (b - 1) = Some x → labels !! Z.to_nat b = Some y →
  x ≠ y.
Proof.
  intros Hsum Hrun Hb Hpos Hx Hy.
  unfold _get_optimal_chunks_for_groups in Hrun.
  apply bind_Ok in Hrun as (at_bounds & Hat & Hrun).
  apply bind_Ok in Hrun as (last_indexes & Hlast & Hrun).
  apply bind_Ok in Hrun as (lastidx & Hlidx & Hrun).
  assert (∀ u, u ∈ np_uniqueZ at_bounds → u ∈ labels) as Hpresent.
  { intros u. by eapply bound_labels_present. }
  assert (∀ v, v ∈ lastidx → ∃ (j : nat) u, v = Z.of_nat j ∧ labels !! j = Some u
            ∧ ∀ j', (j < j')%nat → labels !! j' ≠ Some u) as HL.
  { intros v Hv.
    destruct (np_take_Ok_inv _ _ _ _ Hlidx Hv) as (u & Hu%Hpresent & Hi).
    destruct (last_indexes_spec _ _ _ Hlast Hu) as (j & H0 & Hj & Hlab & Hmax).
    apply py_index_Ok_inv in Hi as [_ Hi]. specialize (Hi H0).
    exists j, u. split; [congruence|done]. }
  destruct (_ && _) eqn:Hsame.
  - (* the chunks already end where groups end *)
    injection Hrun as <-.
    apply andb_prop in Hsame as [_ Heq%bool_decide_eq_true].
    assert (b - 1 ∈ lastidx) as Hin.
    { rewrite <- Heq. apply list_elem_of_fmap. eauto. }
    destruct (HL _ Hin) as (j & u & Hbj & Hj & Hmax).
    replace b with (Z.of_nat j + 1) in Hx, Hy by lia.
    by eapply after_last_is_boundary.
  - apply bind_Ok in Hrun as (first_indexes & Hfirst & Hrun).
    apply bind_Ok in Hrun as (firstidx & Hfidx & Hrun).
    apply bind_Ok in Hrun as (last_c & Hlc & Hrun).
    assert (chunks ≠ []) as Hne by (intros ->; discriminate Hlc).
    rewrite py_index_last in Hlc by (by destruct chunks).
    rewrite (np_cumsum_last chunks 0 Hne) in Hlc. injection Hlc as <-.
    replace (sumZ chunks - 1 + 1) with (sumZ chunks) in Hrun by lia.
    assert (∀ v, v ∈ firstidx → ∃ (j : nat) u, v = Z.of_nat j ∧ labels !! j = Some u
              ∧ ∀ j', (j' < j)%nat → labels !! j' ≠ Some u) as HF.
    { intros v Hv.
      destruct (np_take_Ok_inv _ _ _ _ Hfidx Hv) as (u & Hu%Hpresent & Hi).
      destruct (first_indexes_spec _ _ _ Hfirst Hu) as (j & H0 & Hj & Hlab & Hmin).
      apply py_index_Ok_inv in Hi as [_ Hi]. specialize (Hi H0).
      exists j, u. split; [congruence|done]. }
    set (P := λ b, 0 < b → ∀ x y, labels !! Z.to_nat (b - 1) = Some x →
                                 labels !! Z.to_nat b = Some y → x ≠ y).
    set (items := zip (zip ((λ c, c - 1) <$> np_cumsum chunks) firstidx) lastidx)
      in *.
    assert (Forall P (fold_left optimal_step items [0])) as Hfold.
    { apply optimal_fold_elems.
      - constructor; [|done]. intros ?. lia.
      - apply List.Forall_forall. intros [[c f] l] Hcfl%list_elem_of_In.
        pose proof (elem_of_zip_r _ _ _ _ Hcfl) as Hl.
        pose proof (elem_of_zip_r _ _ _ _ (elem_of_zip_l _ _ _ _ Hcfl)) as Hf.
        simpl. split.
        + destruct (HF _ Hf) as (j & u & -> & Hj & Hmin).
          intros ? x' y'. by eapply at_first_is_boundary.
        + destruct (HL _ Hl) as (j & u & -> & Hj & Hmax).
          intros _ x' y'. by eapply after_last_is_boundary. }
    destruct (optimal_fold_head items []) as [ext Hext].
    rewrite Hext in Hrun, Hfold.
    assert (P b) as HPb; [|by apply HPb].
    destruct (sumZ (np_diff _) =? _); [|done].
    destruct (last_or 0 (0 :: ext) =? sumZ chunks).
    + assert (newchunks = np_diff (0 :: ext)) as -> by congruence.
      unfold np_cumsum in Hb. rewrite cumsum_np_diff in Hb.
      apply List.Forall_forall with (x := b) in Hfold; [done|].
      apply list_elem_of_In. by right.
    + assert (newchunks = np_diff (0 :: ext ++ [sumZ chunks])) as ->
        by (rewrite app_comm_cons; congruence).
      unfold np_cumsum in Hb. rewrite cumsum_np_diff in Hb.
      apply elem_of_app in Hb as [Hb|Hb%list_elem_of_singleton].
      * apply List.Forall_forall with (x := b) in Hfold; [done|].
        apply list_elem_of_In. by right.
      * subst b. intros _ x' y' _ Hy'. apply lookup_lt_Some in Hy'. lia.
Qed.

(** X19.  The group-boundary-snapping planner cuts only at group boundaries.
    When [labels] is as long as the axis, every chunk boundary that
    [_get_optimal_chunks_for_groups] returns inside the axis lies between two
    cells with different labels. *)
Theorem get_optimal_chunks_cuts_between_groups chunks labels newchunks b :
  sumZ chunks = Z.of_nat (length labels) →
  _get_optimal_chunks_for_groups chunks labels = Ok newchunks →
  b ∈ np_cumsum newchunks → 0 < b < Z.of_nat (length labels) →
  labels !! Z.to_nat (b - 1) ≠ labels !! Z.to_nat b.
Proof.
  intros Hsum Hrun Hb [Hpos Hlt].
  destruct (lookup_lt_is_Some_2 labels (Z.to_nat (b - 1))) as [x Hx]; [lia|].
  destruct (lookup_lt_is_Some_2 labels (Z.to_nat b)) as [y Hy]; [lia|].
  rewrite Hx, Hy. intros [= ->].
  by eapply (optimal_chunks_boundary chunks labels newchunks b y y).
Qed.

Lemma get_optimal_chunks_cuts_between_groups_witness :
  [0; 0; 0; 1; 1; 2; 2; 3; 3; 3] !! Z.to_nat (3 - 1)
  ≠ [0; 0; 0; 1; 1; 2; 2; 3; 3; 3] !! Z.to_nat 3.
Proof.
  apply (get_optimal_chunks_cuts_between_groups [4; 4; 2]
           [0; 0; 0; 1; 1; 2; 2; 3; 3; 3] [3; 4; 3] 3).
  - reflexivity.
  - reflexivity.
  - left.
  - simpl. lia.
Defined.

Lemma dedup_sortedZ_sorted l :
  StronglySorted Z.le l → StronglySorted Z.lt (dedup_sortedZ l).
Proof.
  induction 1 as [|x l Hl IH Hx]; [constructor|].
  destruct l as [|y l]; [repeat constructor|].
  change (dedup_sortedZ (x :: y :: l))
    with (if x =? y then dedup_sortedZ (y :: l) else x :: dedup_sortedZ (y :: l)).
  destruct (Z.eqb_spec x y) as [->|Hne]; [done|].
  constructor; [done|].
  apply List.Forall_forall. intros z Hz%list_elem_of_In%dedup_sortedZ_subseteq.
  apply StronglySorted_inv in Hl as [_ Hy].
  apply Forall_cons in Hx as [Hxy Hx].
  apply elem_of_cons in Hz as [->|Hz]; [lia|].
  apply List.Forall_forall with (x := z) in Hy; [lia|by apply list_elem_of_In].
Qed.

Lemma np_uniqueZ_NoDup l : NoDup (np_uniqueZ l).
Proof.
  unfold np_uniqueZ.
  assert (StronglySorted Z.lt (dedup_sortedZ (merge_sort Z.le l))) as Hs.
  { apply dedup_sortedZ_sorted, StronglySorted_merge_sort; apply _. }
  revert Hs. generalize (dedup_sortedZ (merge_sort Z.le l)). intros k0 Hs.
  induction Hs as [|x k Hk IH Hx]; [constructor|].
  constructor; [|done]. intros Hin.
  apply List.Forall_forall with (x := x) in Hx; [lia|by apply list_elem_of_In].
Qed.

Lemma Forall2_NoDup {A B} (R : A → B → Prop) l k :
  Forall2 R l k → NoDup l →
  (∀ a a' b, a ∈ l → a' ∈ l → R a b → R a' b → a = a') →
  NoDup k.
Proof.
  induction 1 as [|a b l k Hab Hlk IH]; intros Hnd Hinj; [constructor|].
  apply NoDup_cons in Hnd as [Ha Hnd]. constructor.
  - intros Hb. apply list_elem_of_lookup in Hb as [i Hi].
    destruct (Forall2_lookup_r _ _ _ _ _ Hlk Hi) as (a' & Ha' & HR).
    apply Ha. rewrite (Hinj a a' b); [by eapply list_elem_of_lookup_2|left| |done..].
    right. by eapply list_elem_of_lookup_2.
  - apply IH; [done|]. intros a1 a2 b' H1 H2. apply Hinj; by right.
Qed.

Lemma cumsum_NoDup_positive acc chunks :
  Forall (Z.le 0) chunks → NoDup (acc :: cumsum_from acc chunks) →
  Forall (λ c, 0 < c) chunks.
Proof.
  intros Hch. revert acc. induction Hch as [|c chunks Hc _ IH]; intros acc Hnd.
  { constructor. }
  simpl in Hnd. apply NoDup_cons in Hnd as [Hacc Hnd]. constructor.
  - apply not_elem_of_cons in Hacc as [Hne _]. lia.
  - by apply (IH (acc + c)).
Qed.

Lemma sorted_le_last (l : list Z) y :
  Sorted Z.lt l → y ∈ l → y ≤ last_or 0 l.
Proof.
  intros Hs%Sorted_StronglySorted Hy; [|intros ???; lia].
  unfold last_or. rewrite List_last_default.
  destruct (last l) as [m|] eqn:Hm.
  - destruct (sorted_last_max _ _ _ _ Hs Hm Hy); simpl; lia.
  - apply last_None in Hm. subst. by apply elem_of_nil in Hy.
Qed.

Lemma optimal_fold_sorted (n : Z) items acc :
  Sorted Z.lt acc → Forall (λ v, v ≤ n) acc →
  Forall (λ cfl : Z * Z * Z, cfl.1.2 ≤ n ∧ cfl.2 + 1 ≤ n) items →
  Sorted Z.lt (fold_left optimal_step items acc)
  ∧ Forall (λ v, v ≤ n) (fold_left optimal_step items acc).
Proof.
  intros Hs Hle Hitems. revert acc Hs Hle.
  induction Hitems as [|[[c f] l] items [Hf Hl] _ IH]; intros acc Hs Hle; [done|].
  simpl in *.
  destruct (_ || _) eqn:Hskip; [by apply IH|].
  apply orb_false_elim in Hskip as [_ Hlast%Z.ltb_ge].
  destruct (_ && _) eqn:Hnear.
  - apply andb_prop in Hnear as [_ Hlt%Z.ltb_lt].
    apply IH.
    + apply Sorted_lt_snoc; [done|]. apply List.Forall_forall.
      intros y Hy%list_elem_of_In. pose proof (sorted_le_last _ _ Hs Hy). lia.
    + apply Forall_app. split; [done|]. by constructor.
  - apply IH.
    + apply Sorted_lt_snoc; [done|]. apply List.Forall_forall.
      intros y Hy%list_elem_of_In. pose proof (sorted_le_last _ _ Hs Hy). lia.
    + apply Forall_app. split; [done|]. by constructor.
Qed.

Lemma optimal_chunks_positive chunks labels newchunks :
  sumZ chunks = Z.of_nat (length labels) → Forall (Z.le 0) chunks →
  _get_optimal_chunks_for_groups chunks labels = Ok newchunks →
  Forall (λ c, 0 < c) newchunks.
Proof.
  intros Hsum Hch Hrun.
  unfold _get_optimal_chunks_for_groups in Hrun.
  apply bind_Ok in Hrun as (at_bounds & Hat & Hrun).
  apply bind_Ok in Hrun as (last_indexes & Hlast & Hrun).
  apply bind_Ok in Hrun as (lastidx & Hlidx & Hrun).
  assert (∀ u, u ∈ np_uniqueZ at_bounds → u ∈ labels) as Hpresent.
  { intros u. by eapply bound_labels_present. }
  assert (∀ u v, u ∈ np_uniqueZ at_bounds → py_index last_indexes u = Ok v →
            ∃ j : nat, v = Z.of_nat j ∧ labels !! j = Some u) as HL.
  { intros u v Hu%Hpresent Hi.
    destruct (last_indexes_spec _ _ _ Hlast Hu) as (j & H0 & Hj & Hlab & _).
    apply py_index_Ok_inv in Hi as [_ Hi]. specialize (Hi H0).
    exists j. split; [congruence|done]. }
  destruct (_ && _) eqn:Hsame.
  - (* the chunks are returned as they are *)
    injection Hrun as <-.
    apply andb_prop in Hsame as [_ Heq%bool_decide_eq_true].
    apply (cumsum_NoDup_positive 0); [done|].
    pose proof (mapM_Ok_Forall2 _ _ _ Hlidx) as Hf2.
    assert (NoDup lastidx) as Hnd.
    { eapply Forall2_NoDup; [exact Hf2|apply np_uniqueZ_NoDup|].
      intros u u' v Hu Hu' Hv Hv'.
      destruct (HL _ _ Hu Hv) as (j & -> & Hj).
      destruct (HL _ _ Hu' Hv') as (j' & Hjj & Hj').
      apply Nat2Z.inj in Hjj. subst j'. congruence. }
    rewrite <- Heq in Hnd. apply NoDup_fmap_1 in Hnd.
    constructor; [|done]. intros H0.
    assert (0 - 1 ∈ lastidx) as Hin.
    { rewrite <- Heq. apply list_elem_of_fmap. eauto. }
    apply list_elem_of_lookup in Hin as [i Hi].
    destruct (Forall2_lookup_r _ _ _ _ _ Hf2 Hi) as (u & Hu & Hv).
    destruct (HL u _ (list_elem_of_lookup_2 _ _ _ Hu) Hv) as (j & ? & _). lia.
  - apply bind_Ok in Hrun as (first_indexes & Hfirst & Hrun).
    apply bind_Ok in Hrun as (firstidx & Hfidx & Hrun).
    apply bind_Ok in Hrun as (last_c & Hlc & Hrun).
    assert (chunks ≠ []) as Hne by (intros ->; discriminate Hlc).
    rewrite py_index_last in Hlc by (by destruct chunks).
    rewrite (np_cumsum_last chunks 0 Hne) in Hlc. injection Hlc as <-.
    replace (sumZ chunks - 1 + 1) with (sumZ chunks) in Hrun by lia.
    set (items := zip (zip ((λ c, c - 1) <$> np_cumsum chunks) firstidx) lastidx)
      in *.
    destruct (optimal_fold_sorted (sumZ chunks) items [0]) as [Hsorted Hbound].
    { repeat constructor. }
    { constructor; [lia|done]. }
    { apply List.Forall_forall. intros [[c f] l] Hcfl%list_elem_of_In.
      pose proof (elem_of_zip_r _ _ _ _ Hcfl) as Hl.
      pose proof (elem_of_zip_r _ _ _ _ (elem_of_zip_l _ _ _ _ Hcfl)) as Hf.
      simpl. split.
      - destruct (np_take_Ok_inv _ _ _ _ Hfidx Hf) as (u & Hu%Hpresent & Hi).
        destruct (first_indexes_spec _ _ _ Hfirst Hu) as (j & H0 & Hj & Hlab & _).
        apply py_index_Ok_inv in Hi as [_ Hi]. specialize (Hi H0).
        apply lookup_lt_Some in Hlab. assert (f = Z.of_nat j) by congruence. lia.
      - destruct (np_take_Ok_inv _ _ _ _ Hlidx Hl) as (u & Hu & Hi).
        destruct (HL _ _ Hu Hi) as (j & -> & Hlab).
        apply lookup_lt_Some in Hlab. lia. }
    destruct (sumZ (np_diff _) =? _); [|done].
    destruct (Z.eqb_spec (last_or 0 (fold_left optimal_step items [0]))
                (sumZ chunks)) as [|Hlast'].
    + assert (newchunks = np_diff (fold_left optimal_step items [0])) as ->
        by congruence.
      by apply np_diff_positive.
    + assert (newchunks
              = np_diff (fold_left optimal_step items [0] ++ [sumZ chunks])) as ->
        by congruence.
      apply np_diff_positive.
      apply Sorted_lt_snoc; [done|]. apply List.Forall_forall.
      intros y Hy%list_elem_of_In.
      pose proof (sorted_le_last _ _ Hsorted Hy).
      apply List.Forall_forall with (x := last_or 0 (fold_left optimal_step items [0]))
        in Hbound; [lia|].
      destruct (optimal_fold_head items []) as [ext Hext]. rewrite Hext.
      unfold last_or. apply list_elem_of_In. rewrite List_last_default.
      destruct (last (0 :: ext)) as [m|] eqn:Hm; [|by apply last_None in Hm].
      simpl. rewrite last_lookup in Hm. by eapply list_elem_of_lookup_2.
Qed.

(** X20.  The group-boundary-snapping planner returns no empty chunk.  When
    [labels] is as long as the axis and no old chunk has a negative size,
    every chunk size that [_get_optimal_chunks_for_groups] returns is
    positive. *)
Theorem get_optimal_chunks_no_empty_chunk chunks labels newchunks :
  sumZ chunks = Z.of_nat (length labels) → Forall (Z.le 0) chunks →
  _get_optimal_chunks_for_groups chunks labels = Ok newchunks →
  Forall (λ c, 0 < c) newchunks.
Proof. apply optimal_chunks_positive. Qed.

Lemma get_optimal_chunks_no_empty_chunk_witness :
  Forall (λ c, 0 < c) [3; 4; 3].
Proof.
  apply (get_optimal_chunks_no_empty_chunk [4; 4; 2]
           [0; 0; 0; 1; 1; 2; 2; 3; 3; 3] [3; 4; 3]).
  - reflexivity.
  - repeat constructor; discriminate.
  - reflexivity.
Defined.


(** ** Rechunking to group boundaries *)

Lemma factorize_axis_none by_ :
  factorize_ [by_] AxNone None None
  = Ok (mkFactorized
          (NdArray [Z.of_nat (length (codes_1d (data by_)))] (codes_1d (data by_)))
          [pd_uniques (data by_)] [Z.of_nat (length (pd_uniques (data by_)))]
          (np_prod [Z.of_nat (length (pd_uniques (data by_)))]) None
          (mkFactorProps false
             (np_prod [Z.of_nat (length (pd_uniques (data by_)))] + 1))).
Proof.
  unfold factorize_, codes_1d.
  cbn -[pd_uniques pd_code Z.mul Z.add Z.of_nat np_prod].
  by rewrite !length_fmap.
Qed.

(** X21.  [rechunk_for_blockwise] lines chunks up with groups.  For a
    non-empty label array as long as the axis and old chunks of non-negative
    sizes, it returns a chunking of the same total length, without an empty
    chunk, whose every boundary inside the axis lies between two cells with
    different labels; two cells without a label count as the same label. *)
Theorem rechunk_for_blockwise_aligned chunks labels :
  data labels ≠ [] → Forall (Z.le 0) chunks →
  sumZ chunks = Z.of_nat (length (data labels)) →
  ∃ newchunks,
    rechunk_for_blockwise chunks labels = Ok newchunks
    ∧ sumZ newchunks = sumZ chunks
    ∧ Forall (λ c, 0 < c) newchunks
    ∧ ∀ b, b ∈ np_cumsum newchunks → 0 < b < sumZ chunks →
           data labels !! Z.to_nat (b - 1) ≠ data labels !! Z.to_nat b.
Proof.
  intros Hne Hch Hsum. unfold rechunk_for_blockwise.
  rewrite factorize_axis_none. cbn [mbind result_bind f_group_idx data].
  set (labs := data labels) in *.
  assert (sumZ chunks = Z.of_nat (length (codes_1d labs))) as Hsum'
    by (by rewrite codes_1d_length).
  assert (codes_1d labs ≠ []) as Hne'.
  { intros Hnil. apply (f_equal length) in Hnil.
    rewrite codes_1d_length in Hnil. by destruct labs. }
  destruct (get_optimal_chunks_ok chunks (codes_1d labs) Hne'
              (codes_1d_nonneg labs) Hch Hsum') as (newchunks & Hrun & Hs).
  rewrite Hrun. cbn [mbind result_bind].
  assert (Forall (λ c, 0 < c) newchunks
          ∧ ∀ b, b ∈ np_cumsum newchunks → 0 < b < sumZ chunks →
                 labs !! Z.to_nat (b - 1) ≠ labs !! Z.to_nat b) as [Hpos Hcut].
  { split; [by eapply optimal_chunks_positive|].
    intros b Hb [H0 Hlt].
    destruct (lookup_lt_is_Some_2 labs (Z.to_nat (b - 1))) as [x Hx]; [lia|].
    destruct (lookup_lt_is_Some_2 labs (Z.to_nat b)) as [y Hy]; [lia|].
    destruct (lookup_lt_is_Some_2 (codes_1d labs) (Z.to_nat (b - 1)))
      as [cx Hcx]; [lia|].
    destruct (lookup_lt_is_Some_2 (codes_1d labs) (Z.to_nat b))
      as [cy Hcy]; [lia|].
    rewrite Hx, Hy. intros [= ->].
    apply (optimal_chunks_boundary chunks (codes_1d labs) newchunks b cx cy);
      try done.
    assert (Some cx = Some cy) as [=]; [|done].
    rewrite <- Hcx, <- Hcy.
    (* equal labels have equal codes *)
    unfold codes_1d. rewrite !list_lookup_fmap. by rewrite Hx, Hy. }
  case_bool_decide as Heq.
  - subst newchunks. eauto.
  - eauto.
Qed.

Lemma rechunk_for_blockwise_aligned_witness :
  ∃ newchunks,
    rechunk_for_blockwise [4; 4; 2]
      (arr1 (num <$> [0; 0; 0; 1; 1; 2; 2; 3; 3; 3])) = Ok newchunks
    ∧ sumZ newchunks = sumZ [4; 4; 2]
    ∧ Forall (λ c, 0 < c) newchunks
    ∧ ∀ b, b ∈ np_cumsum newchunks → 0 < b < sumZ [4; 4; 2] →
           data (arr1 (num <$> [0; 0; 0; 1; 1; 2; 2; 3; 3; 3])) !! Z.to_nat (b - 1)
           ≠ data (arr1 (num <$> [0; 0; 0; 1; 1; 2; 2; 3; 3; 3])) !! Z.to_nat b.
Proof.
  apply (rechunk_for_blockwise_aligned [4; 4; 2]
           (arr1 (num <$> [0; 0; 0; 1; 1; 2; 2; 3; 3; 3]))).
  - discriminate.
  - repeat constructor; discriminate.
  - reflexivity.
Defined.


(** ** Binning *)

Lemma mapM_as_number_Num (edges : list Qc) :
  mapM as_number (Num <$> edges) = Ok (Some <$> edges).
Proof.
  induction edges as [|e edges IH]; [done|].
  rewrite !fmap_cons. simpl. by rewrite IH.
Qed.

Lemma np_digitize_increasing xs (edges : list Qc) d :
  nondecreasing edges = true →
  np_digitize xs (Num <$> edges) = Ok d →
  ∀ p x, xs !! p = Some (Num x) →
    d !! p = Some (Z.of_nat (length (filter (λ b, (b ≤ x)%Qc) edges))).
Proof.
  intros Hinc Hd p x Hp. unfold np_digitize in Hd.
  rewrite mapM_as_number_Num in Hd. cbn [mbind result_bind] in Hd.
  apply bind_Ok in Hd as (nums & Hnums & Hd).
  assert (existsb (λ b : option Qc, bool_decide (b = None)) (Some <$> edges) = false)
    as Hex.
  { apply not_true_is_false. intros (b & Hb%list_elem_of_In & Hnone)%existsb_exists.
    apply list_elem_of_fmap in Hb as (e & -> & _). by apply bool_decide_eq_true in Hnone. }
  rewrite Hex in Hd.
  assert (omap id (Some <$> edges) = edges) as Hout.
  { clear. induction edges as [|e edges IH]; [done|]. rewrite fmap_cons. simpl.
    f_equal. exact IH. }
  rewrite Hout, Hinc in Hd. injection Hd as <-.
  apply mapM_Ok_Forall2 in Hnums.
  destruct (Forall2_lookup_l _ _ _ _ _ Hnums Hp) as (q & Hq & Hx).
  injection Hx as <-. by rewrite list_lookup_fmap, Hq.
Qed.

Lemma nondecreasing_head_le e edges e' :
  nondecreasing (e :: edges) = true → e' ∈ edges → (e ≤ e')%Qc.
Proof.
  revert e. induction edges as [|y edges IH]; intros e Hinc He'.
  { by apply elem_of_nil in He'. }
  change (nondecreasing (e :: y :: edges))
    with (bool_decide (e ≤ y)%Qc && nondecreasing (y :: edges)) in Hinc.
  apply andb_prop in Hinc as [Hey%bool_decide_eq_true Hinc].
  apply elem_of_cons in He' as [->|He']; [done|].
  eapply Qcle_trans; [exact Hey|]. by apply IH.
Qed.

Lemma nondecreasing_tail e edges :
  nondecreasing (e :: edges) = true → nondecreasing edges = true.
Proof.
  destruct edges as [|y edges]; [done|].
  change (nondecreasing (e :: y :: edges))
    with (bool_decide (e ≤ y)%Qc && nondecreasing (y :: edges)).
  by intros [_ ?]%andb_prop.
Qed.

(** On non-decreasing edges, the edges [<= x] are a prefix. *)
Lemma digitize_prefix (edges : list Qc) (x : Qc) i e :
  nondecreasing edges = true → edges !! i = Some e →
  (i < length (filter (λ b, (b ≤ x)%Qc) edges))%nat ↔ (e ≤ x)%Qc.
Proof.
  revert i. induction edges as [|e0 edges IH]; intros i Hinc Hi; [done|].
  rewrite filter_cons. destruct (decide (e0 ≤ x)%Qc) as [Hle|Hgt].
  - destruct i as [|i]; simplify_eq/=; [split; [done|lia]|].
    rewrite <- (IH i); [lia|by eapply nondecreasing_tail|done].
  - assert (¬ (e ≤ x)%Qc) as Hne.
    { intros Hex. apply Hgt. destruct i as [|i]; simplify_eq/=; [done|].
      eapply Qcle_trans; [|exact Hex].
      eapply nondecreasing_head_le; [done|]. by eapply list_elem_of_lookup_2. }
    assert (length (filter (λ b, (b ≤ x)%Qc) edges) = 0%nat) as ->.
    { apply length_zero_iff_nil.
      destruct (filter _ edges) as [|b bs] eqn:Hf; [done|]. exfalso.
      assert (b ∈ filter (λ b, (b ≤ x)%Qc) edges) as [Hbx Hb]%list_elem_of_filter
        by (rewrite Hf; left).
      apply Hgt. eapply Qcle_trans; [|exact Hbx].
      by eapply nondecreasing_head_le. }
    split; [lia|done].
Qed.

Lemma factorize_bins_codes by_ axis (edges : list scalar) f :
  np_isscalar axis && (1 <? length (shape by_))%nat = false →
  factorize_ [by_] axis (Some [Some edges]) (Some [true]) = Ok f →
  ∃ d, np_digitize (data by_) edges = Ok d ∧ d ≠ []
    ∧ nan_sentinel (f_props f) = Z.of_nat (Z.to_nat (maxZ ((λ i, i - 1) <$> d) + 1)) + 1
    ∧ data (f_group_idx f)
      = (λ c, if c =? -1 then nan_sentinel (f_props f) else c)
          <$> ((λ i, i - 1) <$> d).
Proof.
  intros Hax. unfold factorize_.
  cbn -[np_digitize Z.mul Z.add Z.of_nat np_prod np_isscalar Nat.ltb maxZ].
  destruct (np_digitize (data by_) edges) as [d|e] eqn:Hd; [|done].
  cbn -[Z.mul Z.add Z.of_nat np_prod np_isscalar Nat.ltb maxZ].
  destruct (Nat.eqb_spec (length ((λ i, i - 1) <$> d)) 0) as [|Hlen]; [done|].
  cbn -[Z.mul Z.add Z.of_nat np_prod np_isscalar Nat.ltb maxZ].
  rewrite Hax.
  cbn -[Z.mul Z.add Z.of_nat np_prod maxZ].
  intros [= <-]. exists d.
  cbn -[Z.mul Z.add Z.of_nat np_prod maxZ].
  rewrite length_fmap, np_arange_length.
  split_and!; [done| |lia|done].
  intros ->. by apply Hlen.
Qed.

(** X22.  Binning encodes the interval.  When one array is factorized
    against non-decreasing bin edges, without offsets, the code of a cell
    holding the number [x] is the position of the last edge [<= x], so that
    [x] lies in the half-open interval from that edge to the next one (or
    beyond the last edge); a cell whose number is below every edge gets the
    sentinel of missing labels. *)
Theorem factorize_bins_decode by_ axis (edges : list Qc) f p x c :
  np_isscalar axis && (1 <? length (shape by_))%nat = false →
  nondecreasing edges = true →
  factorize_ [by_] axis (Some [Some (Num <$> edges)]) (Some [true]) = Ok f →
  data by_ !! p = Some (Num x) →
  data (f_group_idx f) !! p = Some c →
  (c = nan_sentinel (f_props f) ∧ ∀ e, e ∈ edges → (x < e)%Qc)
  ∨ (0 ≤ c ∧ ∃ e, edges !! Z.to_nat c = Some e ∧ (e ≤ x)%Qc
       ∧ ∀ e', edges !! S (Z.to_nat c) = Some e' → (x < e')%Qc).
Proof.
  intros Hax Hinc Hf Hp Hc.
  destruct (factorize_bins_codes _ _ _ _ Hax Hf) as (d & Hd & _ & _ & Hdata).
  pose proof (np_digitize_increasing _ _ _ Hinc Hd p x Hp) as Hk.
  rewrite Hdata, !list_lookup_fmap, Hk in Hc. simpl in Hc.
  set (k := length (filter (λ b, (b ≤ x)%Qc) edges)) in *.
  assert (∀ i e, edges !! i = Some e → (i < k)%nat ↔ (e ≤ x)%Qc) as Hprefix.
  { intros i e. by apply digitize_prefix. }
  assert (k ≤ length edges)%nat as Hkl by apply length_filter.
  destruct k as [|k].
  - left. simpl in Hc. injection Hc as <-. split; [done|].
    intros e [i Hi]%list_elem_of_lookup.
    apply Qcnot_le_lt. rewrite <- (Hprefix i e Hi). lia.
  - right.
    destruct (Z.eqb_spec (Z.of_nat (S k) - 1) (-1)) as [|_]; [lia|].
    injection Hc as <-. split; [lia|].
    replace (Z.to_nat (Z.of_nat (S k) - 1)) with k by lia.
    destruct (lookup_lt_is_Some_2 edges k) as [e He]; [lia|].
    exists e. split_and!; [done| |].
    + apply (Hprefix k e He). lia.
    + intros e' He'. apply Qcnot_le_lt. rewrite <- (Hprefix (S k) e' He'). lia.
Qed.

Lemma factorize_bins_decode_witness :
  ∃ f c,
    factorize_ [arr1 (num <$> [1; 3])] AxNone
      (Some [Some (Num <$> [Q2Qc 1; Q2Qc 2; Q2Qc 4; Q2Qc 5])]) (Some [true]) = Ok f
    ∧ data (f_group_idx f) !! 1%nat = Some c
    ∧ ((c = nan_sentinel (f_props f)
        ∧ ∀ e, e ∈ [Q2Qc 1; Q2Qc 2; Q2Qc 4; Q2Qc 5] → (Q2Qc (inject_Z 3) < e)%Qc)
       ∨ (0 ≤ c ∧ ∃ e, [Q2Qc 1; Q2Qc 2; Q2Qc 4; Q2Qc 5] !! Z.to_nat c = Some e
            ∧ (e ≤ Q2Qc (inject_Z 3))%Qc
            ∧ ∀ e', [Q2Qc 1; Q2Qc 2; Q2Qc 4; Q2Qc 5] !! S (Z.to_nat c) = Some e'
                    → (Q2Qc (inject_Z 3) < e')%Qc)).
Proof.
  eexists _, _. split; [vm_compute; reflexivity|]. split; [reflexivity|].
  eapply (factorize_bins_decode (arr1 (num <$> [1; 3])) AxNone
            [Q2Qc 1; Q2Qc 2; Q2Qc 4; Q2Qc 5] _ 1%nat).
  - reflexivity.
  - vm_compute. reflexivity.
  - vm_compute. reflexivity.
  - reflexivity.
  - reflexivity.
Defined.


(** ** [min_count] *)

(** X23.  [min_count] is only for sums and products.  Whenever
    [groupby_reduce] returns with [min_count] given, whatever its value, the
    reduction asked for is ["nansum"] or ["nanprod"], or it is ["sum"] or
    ["prod"] and [skipna] is not [False]; for every other reduction the call
    raises. *)
Theorem groupby_reduce_min_count_funcs aggs array chunks by_ func expected_groups
    isbin axis fill_value skipna mc r :
  groupby_reduce aggs array chunks by_ func expected_groups isbin axis
    fill_value skipna (Some mc) = Ok r →
  func ∈ ["nansum"; "nanprod"]
  ∨ (func ∈ ["sum"; "prod"] ∧ skipna ≠ Some false).
Proof.
  unfold groupby_reduce. destruct (negb _); [done|].
  intros (func' & Hres & Hrun)%bind_Ok.
  apply bind_Ok in Hrun as (axis' & _ & Hrun).
  apply bind_Ok in Hrun as ([[by' array'] axis''] & _ & Hrun).
  apply bind_Ok in Hrun as (reduction & _ & Hrun).
  apply bind_Ok in Hrun as (fv & Hfv & _).
  destruct (in_names func' ["nansum"; "nanprod"]) eqn:Hin; [|done].
  apply bool_decide_eq_true in Hin.
  unfold resolve_func in Hres.
  destruct (_ && in_names func _); [done|].
  set (renamed := default true skipna && _ && _) in Hres.
  assert (func' = if renamed then "nan" +:+ func else func) as Hfunc.
  { destruct (_ && negb _) in Hres; congruence. }
  destruct renamed eqn:Hren; subst func'; [|by left].
  right. split.
  - apply elem_of_cons in Hin as [Hin|Hin%list_elem_of_singleton];
      injection Hin as <-; [left|right; left].
  - intros ->. done.
Qed.

Lemma groupby_reduce_min_count_funcs_witness :
  "sum" ∈ ["nansum"; "nanprod"]
  ∨ ("sum" ∈ ["sum"; "prod"] ∧ @None bool ≠ Some false).
Proof.
  eapply (groupby_reduce_min_count_funcs aggregations
            (arr1 [V 1; V 2; VNaN; V 4]) None
            (arr1 [Str "b"; NaN; Str "a"; Str "b"]) "sum" None false AxNone None
            None 2).
  vm_compute. reflexivity.
Defined.


(** ** Arrays with leading axes: every row is reduced on its own *)

Lemma rows_of_mjoin {A} (m : nat) (ls : list (list A)) :
  Forall (λ l, length l = m) ls →
  (λ r, nd_row m (mjoin ls) r) <$> seq 0 (length ls) = ls.
Proof.
  intros Hlen. apply list_eq. intros r. rewrite list_lookup_fmap.
  destruct (ls !! r) as [l|] eqn:Hr.
  - rewrite lookup_seq_lt by (by eapply lookup_lt_Some). simpl.
    f_equal. by apply nd_row_mjoin.
  - apply lookup_ge_None in Hr. rewrite lookup_seq_ge by done. done.
Qed.

Lemma fmap_rows_of_mjoin {A B} (f : nat → list A → B) (m : nat) (ls : list (list A)) :
  Forall (λ l, length l = m) ls →
  (λ r, f r (nd_row m (mjoin ls) r)) <$> seq 0 (length ls)
  = (λ p, f p.1 p.2) <$> zip (seq 0 (length ls)) ls.
Proof.
  intros Hlen. apply list_eq. intros r. rewrite !list_lookup_fmap.
  rewrite lookup_zip_with.
  destruct (ls !! r) as [l|] eqn:Hr.
  - rewrite lookup_seq_lt by (by eapply lookup_lt_Some). simpl.
    f_equal. f_equal. by apply nd_row_mjoin.
  - apply lookup_ge_None in Hr. rewrite lookup_seq_ge by done. done.
Qed.

Lemma mapM_rows_of_mjoin {A B} (f : list A → result B) (m : nat)
    (ls : list (list A)) :
  Forall (λ l, length l = m) ls →
  mapM (λ r, f (nd_row m (mjoin ls) r)) (seq 0 (length ls)) = mapM f ls.
Proof.
  intros Hlen.
  trans (mapM f ((λ r, nd_row m (mjoin ls) r) <$> seq 0 (length ls))).
  - by rewrite mapM_fmap.
  - by rewrite rows_of_mjoin.
Qed.

Lemma np_prod_2 x y : np_prod [x; y] = x * y.
Proof. unfold np_prod. simpl. lia. Qed.

Lemma npg_aggregate_axis_rows (k : kernel value) codes (rows : list (list value))
    fill :
  Forall (Z.le 0) codes → Forall (λ row, length row = length codes) rows →
  codes ≠ [] →
  npg_aggregate_axis codes
    (NdArray [Z.of_nat (length rows); Z.of_nat (length codes)] (mjoin rows))
    k None fill
  = Ok (NdArray [Z.of_nat (length rows); maxZ codes + 1]
          (mjoin ((λ p, npg_row k fill (maxZ codes + 1)
                          (Z.of_nat (p.1 * length codes)) codes p.2)
                    <$> zip (seq 0 (length rows)) rows))).
Proof.
  intros Hnn Hlen Hne. unfold npg_aggregate_axis.
  rewrite existsb_false; cycle 1.
  { intros c Hc. apply List.Forall_forall with (x := c) in Hnn;
      [|by apply list_elem_of_In]. lia. }
  cbn -[Z.of_nat maxZ Z.add npg_row nd_row np_prod Nat.mul].
  rewrite bool_decide_eq_true_2 by done.
  destruct (Nat.eqb_spec (length codes) 0) as [Hn|Hn].
  { by destruct codes. }
  cbn -[Z.of_nat maxZ Z.add npg_row nd_row np_prod Nat.mul].
  rewrite existsb_false; cycle 1.
  { intros c Hc. pose proof (maxZ_ge _ _ Hc). lia. }
  cbn -[Z.of_nat maxZ Z.add npg_row nd_row np_prod Nat.mul].
  rewrite np_prod_1, Nat2Z.id.
  by rewrite (fmap_rows_of_mjoin
                (λ r row, npg_row k fill (maxZ codes + 1)
                            (Z.of_nat (r * length codes)) codes row)).
Qed.

Lemma drop_last_column_rows {A} (m : nat) (ls : list (list A)) :
  Forall (λ l, length l = m) ls →
  drop_last_column (NdArray [Z.of_nat (length ls); Z.of_nat m] (mjoin ls))
  = Ok (NdArray [Z.of_nat (length ls); Z.of_nat (m - 1)]
          (mjoin (take (m - 1) <$> ls))).
Proof.
  intros Hlen. unfold drop_last_column.
  cbn -[Z.of_nat nd_row Z.to_nat py_index np_prod].
  change (py_index [Z.of_nat (length ls); Z.of_nat m] (-1)) with (Ok (Z.of_nat m) : result Z).
  cbn -[Z.of_nat nd_row Z.to_nat np_prod].
  rewrite np_prod_1, !Nat2Z.id.
  rewrite (fmap_rows_of_mjoin (λ _ row, take (m - 1) row)) by done.
  do 3 f_equal.
  trans (take (m - 1) <$> (snd <$> zip (seq 0 (length ls)) ls)).
  - by rewrite <- list_fmap_compose.
  - by rewrite snd_zip by (rewrite length_seq; lia).
Qed.

Lemma take_last_axis_rows {A} (m : nat) (ls : list (list A)) idx outs :
  Forall (λ l, length l = m) ls →
  mapM (λ l, np_take l idx) ls = Ok outs →
  take_last_axis (NdArray [Z.of_nat (length ls); Z.of_nat m] (mjoin ls)) idx
  = Ok (NdArray [Z.of_nat (length ls); Z.of_nat (length idx)] (mjoin outs)).
Proof.
  intros Hlen Hout. unfold take_last_axis.
  cbn -[Z.of_nat nd_row Z.to_nat py_index np_prod np_take].
  change (py_index [Z.of_nat (length ls); Z.of_nat m] (-1))
    with (Ok (Z.of_nat m) : result Z).
  cbn -[Z.of_nat nd_row Z.to_nat np_prod np_take].
  rewrite np_prod_1, !Nat2Z.id.
  rewrite (mapM_rows_of_mjoin (λ l, np_take l idx)) by done.
  by rewrite Hout.
Qed.

Lemma mapM_lookup_Ok {A B C} (f : A → result C) (g : B → C) (l : list A)
    (l' : list B) :
  length l = length l' →
  (∀ r a b, l !! r = Some a → l' !! r = Some b → f a = Ok (g b)) →
  mapM f l = Ok (g <$> l').
Proof.
  revert l'. induction l as [|a l IH]; intros [|b l'] Hlen Hf; try done.
  simpl. rewrite (Hf 0%nat a b) by done. simpl.
  rewrite (IH l'); [done|by simplify_eq/=|].
  intros r. apply (Hf (S r)).
Qed.

Lemma reduce_one_rows labs (rows : list (list value)) k fv ng :
  Forall (λ row, length row = length labs) rows → position_free k →
  pd_uniques labs ≠ [] →
  reduce_one (codes_1d labs)
    (NdArray [Z.of_nat (length rows); Z.of_nat (length labs)] (mjoin rows)) None
    (existsb negb ((λ c, negb (c =? Z.of_nat (length (pd_uniques labs)) + 1))
                     <$> codes_1d labs))
    false ng [Z.of_nat (length rows); Z.of_nat (length (observed_groups labs))]
    None (pd_uniques labs) (np_argsort (pd_uniques labs)) k fv
  = Ok (NdArray [Z.of_nat (length rows); Z.of_nat (length (observed_groups labs))]
          (mjoin ((λ row, (λ g, slot_value k (cast_fill fv) (group_values labs row g))
                            <$> observed_groups labs) <$> rows))).
Proof.
  intros Hlen Hk HU. unfold reduce_one.
  assert (codes_1d labs ≠ []) as Hne.
  { intros E. destruct (pd_uniques labs) as [|g U] eqn:EU; [done|].
    assert (pd_uniques labs !! 0%nat = Some g) as H0 by by rewrite EU.
    apply codes_1d_elem_of in H0. rewrite E in H0. by apply elem_of_nil in H0. }
  rewrite <- (codes_1d_length labs) at 1.
  rewrite npg_aggregate_axis_rows;
    [|apply codes_1d_nonneg| |done]; cycle 1.
  { eapply Forall_impl; [exact Hlen|]. intros row. by rewrite codes_1d_length. }
  set (size := maxZ (codes_1d labs) + 1).
  set (agg := (λ p : nat * list value,
                 npg_row k (cast_fill fv) size
                   (Z.of_nat (p.1 * length (codes_1d labs))) (codes_1d labs) p.2)
              <$> zip (seq 0 (length rows)) rows).
  assert (0 ≤ maxZ (codes_1d labs)) as Hmax0.
  { pose proof (maxZ_elem_of _ Hne) as Hm.
    pose proof (codes_1d_nonneg labs) as Hnn.
    by eapply List.Forall_forall in Hnn; [|apply list_elem_of_In]. }
  assert (length agg = length rows) as Hagg.
  { unfold agg. rewrite length_fmap, length_zip, length_seq. lia. }
  assert (Forall (λ l, length l = Z.to_nat size) agg) as Haggl.
  { apply List.Forall_forall. intros l (p & -> & _)%list_elem_of_In%list_elem_of_fmap.
    apply npg_row_length. }
  assert (∀ r row, rows !! r = Some row → ∃ a, agg !! r = Some a ∧
            ∀ i g, pd_uniques labs !! i = Some g →
              a !! i = Some (slot_value k (cast_fill fv) (group_values labs row g)))
    as Hslots.
  { intros r row Hr. unfold agg. rewrite list_lookup_fmap, lookup_zip_with.
    rewrite lookup_seq_lt by (by eapply lookup_lt_Some). rewrite Hr. simpl.
    eexists. split; [done|]. intros i g Hi.
    pose proof (codes_1d_elem_of _ _ _ Hi) as Hin.
    pose proof (maxZ_ge _ _ Hin).
    rewrite npg_row_lookup by (unfold size; lia). f_equal.
    rewrite npg_slot_slot_value by done. f_equal.
    apply codes_1d_members; [done|].
    apply List.Forall_forall with (x := row) in Hlen; [done|].
    apply list_elem_of_In. by eapply list_elem_of_lookup_2. }
  cbn [mbind result_bind].
  assert (∃ (m : nat) (B : list (list value)),
    ((if existsb negb
           ((λ c : Z, negb (c =? Z.of_nat (length (pd_uniques labs)) + 1)) <$>
            codes_1d labs)
      then drop_last_column
             {| shape := [Z.of_nat (length rows); size]; data := mjoin agg |}
      else Ok {| shape := [Z.of_nat (length rows); size]; data := mjoin agg |})
     = Ok (NdArray [Z.of_nat (length rows); Z.of_nat m] (mjoin B)))
    ∧ length B = length rows ∧ Forall (λ l, length l = m) B
    ∧ ∀ r row b, rows !! r = Some row → B !! r = Some b →
        ∀ i g, pd_uniques labs !! i = Some g →
          b !! i = Some (slot_value k (cast_fill fv) (group_values labs row g)))
    as (m & B & -> & HB & HBl & HBs).
  { replace size with (Z.of_nat (Z.to_nat size)) by (unfold size; lia).
    destruct (existsb negb _) eqn:Hmasked.
    - apply existsb_exists in Hmasked
        as (b & (c & -> & Hc)%list_elem_of_In%list_elem_of_fmap & Hb).
      destruct (Z.eqb_spec c (Z.of_nat (length (pd_uniques labs)) + 1)) as [->|];
        [|done].
      pose proof (maxZ_eq _ _ (codes_1d_le labs) Hc) as Hmax.
      rewrite <- Hagg, drop_last_column_rows by done.
      exists (Z.to_nat size - 1)%nat, (take (Z.to_nat size - 1) <$> agg).
      split_and!; [done|by rewrite length_fmap| |].
      + apply Forall_fmap. eapply Forall_impl; [exact Haggl|].
        intros l Hl. cbv beta in Hl. simpl. rewrite length_take. lia.
      + intros r row b Hr Hb' i g Hi.
        destruct (Hslots r row Hr) as (a & Ha & Hs).
        rewrite list_lookup_fmap, Ha in Hb'. injection Hb' as <-.
        rewrite lookup_take_lt; [by apply Hs|].
        apply lookup_lt_Some in Hi. unfold size. lia.
    - exists (Z.to_nat size), agg. rewrite Hagg.
      split_and!; [done..|].
      intros r row b Hr Hb' i g Hi.
      destruct (Hslots r row Hr) as (a & Ha & Hs).
      rewrite Ha in Hb'. injection Hb' as <-. by apply Hs. }
  cbn [mbind result_bind].
  rewrite <- HB.
  erewrite take_last_axis_rows; [|done|]; cycle 1.
  { apply (mapM_lookup_Ok _
             (λ row, (λ g, slot_value k (cast_fill fv) (group_values labs row g))
                       <$> observed_groups labs)); [done|].
    intros r b row Hb Hr. apply np_take_slots. by eapply HBs. }
  cbn [mbind result_bind]. unfold np_reshape. cbn [data shape].
  rewrite np_prod_2, (length_mjoin_uniform _ (length (observed_groups labs)));
    cycle 1.
  { apply Forall_fmap, Forall_true. intros row. simpl. by rewrite length_fmap. }
  rewrite length_fmap, HB.
  rewrite Nat2Z.inj_mul, Z.eqb_refl. done.
Qed.

(** X24.  Every row is reduced on its own.  On a two-dimensional array and
    one-dimensional labels along its last axis, [chunk_reduce] returns, for
    every kernel that does not look at positions, an array with one row per
    row of the input: the kernel over the cells of each group of that row, the
    fill value for a group whose cells the kernel all skips; the groups are
    the sorted labels found, or the missing-value marker alone when there is
    none. *)
Theorem chunk_reduce_rows labs (rows : list (list value)) ks fvs :
  Forall (λ row, length row = length labs) rows → Forall position_free ks →
  chunk_reduce
    (NdArray [Z.of_nat (length rows); Z.of_nat (length labs)] (mjoin rows))
    (arr1 labs) ks None (AxSeq [1]) fvs false false
  = Ok (mkResults (arr1 (result_groups labs))
          ((λ '(k, fv),
              NdArray [Z.of_nat (length rows);
                       Z.of_nat (length (result_groups labs))]
                (mjoin ((λ row, (λ g, block_slot k (cast_fill fv) labs row g)
                                  <$> result_groups labs) <$> rows)))
             <$> zip ks fvs)).
Proof.
  intros Hlen Hks. unfold chunk_reduce.
  cbn -[factorize_ pd_uniques pd_code Z.mul Z.add Z.of_nat np_prod np_argsort np_take reduce_one np_full].
  rewrite factorize_1d.
  cbn -[factorize_ pd_uniques pd_code Z.mul Z.add Z.of_nat np_prod np_argsort np_take reduce_one np_full].
  rewrite !np_prod_1. change (Z.of_nat 2 - Z.of_nat 1) with 1.
  unfold shape_upto, np_reshape.
  cbn -[factorize_ pd_uniques pd_code Z.mul Z.add Z.of_nat np_prod np_argsort np_take reduce_one np_full].
  change (take (Z.to_nat 1) [Z.of_nat (length rows); Z.of_nat (length labs)]
          ++ [Z.of_nat (length labs)])
    with [Z.of_nat (length rows); Z.of_nat (length labs)].
  rewrite np_prod_2, (length_mjoin_uniform _ _ Hlen), Nat2Z.inj_mul, Z.eqb_refl.
  cbn -[factorize_ pd_uniques pd_code Z.mul Z.add Z.of_nat np_prod np_argsort np_take reduce_one np_full].
  rewrite np_take_argsort, sorted_pairs_fst, observed_groups_uniques
    by apply pd_uniques_NoDup.
  cbn -[factorize_ pd_uniques pd_code Z.mul Z.add Z.of_nat np_prod np_argsort np_take reduce_one np_full].
  rewrite chunk_empty_iff.
  pose proof (observed_groups_length labs) as HG.
  unfold result_groups, block_slot.
  case_bool_decide as HU.
  - rewrite HU in HG. destruct (observed_groups labs); [|done].
    erewrite mapM_fmap_Ok; [done|]. intros [k fv] _. f_equal.
    unfold np_full. f_equal. rewrite np_prod_2. simpl length.
    replace (Z.to_nat (Z.of_nat (length rows) * Z.of_nat 1)) with (length rows)
      by lia.
    clear. induction rows as [|row rows IH]; [done|]. simpl. by rewrite IH.
  - destruct (observed_groups labs) as [|g0 G] eqn:EG.
    { destruct (pd_uniques labs); done. }
    rewrite <- EG. erewrite mapM_fmap_Ok; [by rewrite EG|].
    intros [k fv] Hin%elem_of_zip_l. rewrite EG, <- EG.
    rewrite reduce_one_rows; [|done| |done].
    + do 3 f_equal. apply list_fmap_ext. intros _ row _.
      apply list_fmap_ext. intros _ g Hg%list_elem_of_lookup_2.
      apply observed_groups_elem_of in Hg as [_ ->]. done.
    + by eapply List.Forall_forall in Hks; [|apply list_elem_of_In].
Qed.

Lemma chunk_reduce_rows_witness :
  chunk_reduce
    (NdArray [Z.of_nat (length [[V 1; V 2; V 3]; [V 10; V 20; V 30]]);
              Z.of_nat (length [Str "b"; Str "a"; Str "b"])]
       (mjoin [[V 1; V 2; V 3]; [V 10; V 20; V 30]]))
    (arr1 [Str "b"; Str "a"; Str "b"]) [k_sum] None (AxSeq [1]) [Some (V 0)]
    false false
  = Ok (mkResults (arr1 (result_groups [Str "b"; Str "a"; Str "b"]))
          ((λ '(k, fv),
              NdArray [Z.of_nat (length [[V 1; V 2; V 3]; [V 10; V 20; V 30]]);
                       Z.of_nat (length (result_groups [Str "b"; Str "a"; Str "b"]))]
                (mjoin ((λ row, (λ g, block_slot k (cast_fill fv)
                                        [Str "b"; Str "a"; Str "b"] row g)
                                  <$> result_groups [Str "b"; Str "a"; Str "b"])
                          <$> [[V 1; V 2; V 3]; [V 10; V 20; V 30]])))
             <$> zip [k_sum] [Some (V 0)])).
Proof.
  apply (chunk_reduce_rows [Str "b"; Str "a"; Str "b"]
           [[V 1; V 2; V 3]; [V 10; V 20; V 30]] [k_sum] [Some (V 0)]).
  - repeat constructor.
  - repeat constructor. intros ms ms' Hms. unfold k_sum. simpl.
    by rewrite Hms.
Defined.


(** ** Moving the reduced axes to the end *)

Lemma unravel_length sh p : length (unravel sh p) = length sh.
Proof. revert p. induction sh as [|d sh IH]; intros p; simpl; [done|]. by rewrite IH. Qed.

Lemma ravel_unravel sh p :
  Forall (Z.le 0) sh → 0 ≤ p < np_prod sh → ravel sh (unravel sh p) = p.
Proof.
  intros Hsh. revert p. induction Hsh as [|d sh Hd Hsh IH]; intros p Hp.
  { unfold np_prod in Hp. simpl in *. lia. }
  change (np_prod (d :: sh)) with (d * np_prod sh) in Hp.
  pose proof (np_prod_nonneg sh Hsh) as Hnn.
  assert (0 < np_prod sh) as Hpos by nia.
  cbn [unravel ravel]. rewrite IH by (apply Z.mod_pos_bound; lia).
  rewrite Z.mul_comm. symmetry. apply Z.div_mod. lia.
Qed.

Lemma np_take_seq {A} (l : list A) (s n : nat) :
  (s + n ≤ length l)%nat →
  mapM (λ i, py_index l (Z.of_nat i)) (seq s n) = Ok (take n (drop s l)).
Proof.
  revert s. induction n as [|n IH]; intros s Hn; [done|].
  destruct (lookup_lt_is_Some_2 l s) as [x Hx]; [lia|].
  cbn [seq mapM]. rewrite (py_index_lookup l s x Hx). cbn [mbind result_bind].
  rewrite IH by lia. cbn [mbind result_bind].
  by rewrite (drop_S l x s Hx).
Qed.

Lemma np_take_arange {A} (l : list A) :
  np_take l (np_arange (Z.of_nat (length l))) = Ok l.
Proof.
  unfold np_take, np_arange. rewrite Nat2Z.id, mapM_fmap.
  rewrite np_take_seq by lia. by rewrite drop_0, firstn_all.
Qed.

Lemma merge_sort_arange n : merge_sort Z.le (np_arange n) = np_arange n.
Proof.
  apply (StronglySorted_unique Z.le).
  - apply StronglySorted_merge_sort; apply _.
  - unfold np_arange. generalize 0%nat.
    induction (Z.to_nat n) as [|m IH]; intros s; simpl; [constructor|].
    constructor; [apply IH|]. apply List.Forall_forall.
    intros x (i & -> & Hi%elem_of_seq)%list_elem_of_In%list_elem_of_fmap. lia.
  - apply merge_sort_Permutation.
Qed.

(** Reading an index back through the identity order. *)
Lemma identity_order_index (n : nat) (idx : list Z) :
  length idx = n →
  (λ j, default 0 ((λ q : nat * (Z * Z), q.2.2)
                     <$> list_find (λ oi : Z * Z, oi.1 = j)
                           (zip (np_arange (Z.of_nat n)) idx)))
    <$> np_arange (Z.of_nat n)
  = idx.
Proof.
  intros Hlen. apply list_eq. intros i. unfold np_arange.
  rewrite Nat2Z.id, !list_lookup_fmap.
  destruct (idx !! i) as [v|] eqn:Hv; cycle 1.
  { apply lookup_ge_None in Hv. by rewrite lookup_seq_ge by lia. }
  pose proof (lookup_lt_Some _ _ _ Hv) as Hi.
  rewrite lookup_seq_lt by lia. simpl.
  assert (list_find (λ oi : Z * Z, oi.1 = Z.of_nat i)
            (zip (Z.of_nat <$> seq 0 n) idx) = Some (i, (Z.of_nat i, v))) as ->.
  { apply list_find_Some. split_and!.
    - rewrite lookup_zip_with, list_lookup_fmap, lookup_seq_lt, Hv by lia. done.
    - done.
    - intros j [o w] Hj Hlt. simpl.
      rewrite lookup_zip_with, list_lookup_fmap in Hj.
      rewrite lookup_seq_lt in Hj by lia. simpl in Hj.
      destruct (idx !! j); simplify_eq/=. lia. }
  done.
Qed.

Lemma np_transpose_identity {A} (arr : ndarray A) :
  wf_array arr →
  np_transpose arr (np_arange (Z.of_nat (length (shape arr)))) = Ok arr.
Proof.
  intros [Hsh Hdata]. unfold np_transpose.
  set (nd := length (shape arr)).
  assert ((λ o, if o <? 0 then o + Z.of_nat nd else o) <$> np_arange (Z.of_nat nd)
          = np_arange (Z.of_nat nd)) as ->.
  { rewrite <- (list_fmap_id (np_arange (Z.of_nat nd))) at 2.
    apply list_fmap_ext. intros i o Ho%list_elem_of_lookup_2.
    unfold np_arange in Ho. apply list_elem_of_fmap in Ho as (j & -> & _).
    destruct (Z.ltb_spec (Z.of_nat j) 0); [lia|done]. }
  rewrite merge_sort_arange, bool_decide_eq_true_2 by done.
  cbn [negb]. unfold nd. rewrite np_take_arange. cbn [mbind result_bind].
  pose proof (np_prod_nonneg _ Hsh) as Hnn.
  erewrite mapM_ext; cycle 1.
  { intros p Hp. unfold np_arange in Hp.
    apply list_elem_of_fmap in Hp as (i & -> & Hi%elem_of_seq).
    rewrite identity_order_index by apply unravel_length.
    rewrite ravel_unravel by (done || lia). reflexivity. }
  replace (np_prod (shape arr)) with (Z.of_nat (length (data arr))) by lia.
  fold (np_take (data arr) (np_arange (Z.of_nat (length (data arr))))).
  rewrite np_take_arange. by destruct arr.
Qed.

Lemma filter_keep {A} (P : A → Prop) `{!∀ x, Decision (P x)} (l : list A) :
  Forall P l → filter P l = l.
Proof.
  induction 1 as [|x l Hx _ IH]; [done|].
  by rewrite filter_cons, decide_True, IH by done.
Qed.

Lemma filter_drop {A} (P : A → Prop) `{!∀ x, Decision (P x)} (l : list A) :
  Forall (λ x, ¬ P x) l → filter P l = [].
Proof.
  induction 1 as [|x l Hx _ IH]; [done|].
  by rewrite filter_cons, decide_False, IH by done.
Qed.

Lemma inZ_spec x l : inZ x l = true ↔ x ∈ l.
Proof.
  unfold inZ. rewrite existsb_exists. split.
  - intros (y & Hy%list_elem_of_In & ->%Z.eqb_eq). done.
  - intros Hx. exists x. split; [by apply list_elem_of_In|apply Z.eqb_refl].
Qed.

Lemma trailing_axes_order (nd k : nat) :
  (k ≤ nd)%nat →
  filter (λ ax, inZ ax (Z.of_nat <$> seq (nd - k) k) = false)
         (np_arange (Z.of_nat nd))
  ++ (Z.of_nat <$> seq (nd - k) k)
  = np_arange (Z.of_nat nd).
Proof.
  intros Hk. unfold np_arange. rewrite Nat2Z.id.
  assert (seq 0 nd = seq 0 (nd - k) ++ seq (nd - k) k) as ->.
  { rewrite <- seq_app. f_equal. lia. }
  rewrite fmap_app, filter_app, filter_keep, filter_drop, app_nil_r; [done|..].
  - apply List.Forall_forall.
    intros x Hx%list_elem_of_In. rewrite (proj2 (inZ_spec _ _)) by done. done.
  - apply List.Forall_forall.
    intros x (i & -> & Hi%elem_of_seq)%list_elem_of_In%list_elem_of_fmap.
    apply not_true_is_false.
    intros (j & Hj%Nat2Z.inj & Hj'%elem_of_seq)%inZ_spec%list_elem_of_fmap. lia.
Qed.

(** X25.  Trailing axes stay where they are.  [_move_reduce_dims_to_end]
    returns a well-formed array as it is when the axes to move are already
    its last ones, in order. *)
Theorem move_reduce_dims_trailing_noop {A} (arr : ndarray A) (k : nat) :
  wf_array arr → (k ≤ length (shape arr))%nat →
  _move_reduce_dims_to_end arr (Z.of_nat <$> seq (length (shape arr) - k) k)
  = Ok arr.
Proof.
  intros Hwf Hk. unfold _move_reduce_dims_to_end.
  rewrite trailing_axes_order by done. by apply np_transpose_identity.
Qed.

Lemma move_reduce_dims_trailing_noop_witness :
  _move_reduce_dims_to_end (NdArray [2; 3] [V 1; V 2; V 3; V 4; V 5; V 6])
    (Z.of_nat <$> seq (length [2; 3 : Z] - 1) 1)
  = Ok (NdArray [2; 3] [V 1; V 2; V 3; V 4; V 5; V 6]).
Proof.
  apply (move_reduce_dims_trailing_noop
           (NdArray [2; 3] [V 1; V 2; V 3; V 4; V 5; V 6]) 1).
  - split; [repeat constructor; discriminate|reflexivity].
  - simpl. lia.
Defined.


(** ** Grouping by two variables *)

Lemma transpose_two (l1 l2 : list Z) :
  length l1 = length l2 →
  transpose_lists (length l1) [l1; l2] = zip_with (λ a b, [a; b]) l1 l2.
Proof.
  revert l2. induction l1 as [|a l1 IH]; intros [|b l2] Hlen; try done.
  simpl. f_equal. apply IH. by simplify_eq/=.
Qed.

Lemma ravel1_two n1 n2 i1 i2 :
  ravel1 [n1; n2] [i1; i2]
  = if (i1 <? 0) || (n1 <=? i1) || ((i2 <? 0) || (n2 <=? i2))
    then Err (ValueError msg_ravel) else Ok (i1 * n2 + i2).
Proof.
  cbn [ravel1]. destruct ((i1 <? 0) || (n1 <=? i1)); [done|].
  destruct ((i2 <? 0) || (n2 <=? i2)); [done|]. simpl.
  unfold np_prod. simpl. f_equal. lia.
Qed.

Lemma factorize_two_unfold by1 by2 axis :
  np_isscalar axis && (1 <? length (shape by2))%nat = false →
  length (data by1) = length (data by2) →
  factorize_ [by1; by2] axis None None
  = flat ← mapM (ravel1 [Z.of_nat (length (pd_uniques (data by1)));
                         Z.of_nat (length (pd_uniques (data by2)))])
                (zip_with (λ a b, [a; b])
                   (pd_code (pd_uniques (data by1)) <$> data by1)
                   (pd_code (pd_uniques (data by2)) <$> data by2));
    let ngroups := np_prod [Z.of_nat (length (pd_uniques (data by1)));
                            Z.of_nat (length (pd_uniques (data by2)))] in
    Ok (mkFactorized
          (NdArray (shape by1)
             ((λ c, if c =? -1 then ngroups + 1 else c) <$> flat))
          [pd_uniques (data by1); pd_uniques (data by2)]
          [Z.of_nat (length (pd_uniques (data by1)));
           Z.of_nat (length (pd_uniques (data by2)))]
          ngroups None (mkFactorProps false (ngroups + 1))).
Proof.
  intros Hax Hlen. unfold factorize_.
  cbn -[pd_uniques pd_code Z.mul Z.add Z.of_nat np_prod np_isscalar Nat.ltb
        np_ravel_multi_index].
  unfold np_ravel_multi_index.
  cbn -[pd_uniques pd_code Z.mul Z.add Z.of_nat np_prod np_isscalar Nat.ltb
        transpose_lists ravel1].
  rewrite !length_fmap, Nat.eqb_refl, Hlen, Nat.eqb_refl.
  cbn -[pd_uniques pd_code Z.mul Z.add Z.of_nat np_prod np_isscalar Nat.ltb
        transpose_lists ravel1].
  rewrite <- (length_fmap (pd_code (pd_uniques (data by1))) (data by1)) in Hlen.
  rewrite <- (length_fmap (pd_code (pd_uniques (data by2))) (data by2)) in Hlen.
  rewrite <- (length_fmap (pd_code (pd_uniques (data by2))) (data by2)).
  rewrite <- Hlen, transpose_two by done.
  destruct (mapM _ _) as [flat|e]; [|done].
  cbn -[pd_uniques pd_code Z.mul Z.add Z.of_nat np_prod np_isscalar Nat.ltb].
  rewrite Hax. done.
Qed.

Lemma pd_code_present labs x :
  x ∈ labs → isnull x = false →
  ∃ i : nat, pd_uniques labs !! i = Some x
             ∧ pd_code (pd_uniques labs) x = Z.of_nat i.
Proof.
  intros Hx Hnull.
  assert (x ∈ pd_uniques labs) as [i Hi]%list_elem_of_lookup
    by (by apply pd_uniques_elem_of).
  exists i. split; [done|]. apply pd_code_lookup; [apply pd_uniques_NoDup|done..].
Qed.

Lemma mapM_zip_with_Ok {A B C D} (f : C → result D) (h : A → B → C)
    (g : A → B → D) (l : list A) (k : list B) :
  (∀ a b, a ∈ l → b ∈ k → f (h a b) = Ok (g a b)) →
  mapM f (zip_with h l k) = Ok (zip_with g l k).
Proof.
  revert k. induction l as [|a l IH]; intros [|b k] Hf; try done.
  cbn [zip_with mapM]. rewrite (Hf a b) by left. cbn [mbind result_bind].
  rewrite IH; [done|]. intros a' b' Ha Hb. apply Hf; by right.
Qed.

(** X26.  Grouping by two variables.  When two arrays of the same length,
    without a missing label, are factorized together (no bins, no offsets),
    [factorize_] returns the labels found in each, and the code of a cell is
    [i1 * n2 + i2], where [i1] and [i2] are the positions of its two labels
    among the labels found and [n2] is the number of labels found in the
    second array. *)
Theorem factorize_two_decode by1 by2 axis :
  np_isscalar axis && (1 <? length (shape by2))%nat = false →
  length (data by1) = length (data by2) →
  Forall (λ x, isnull x = false) (data by1 ++ data by2) →
  ∃ f, factorize_ [by1; by2] axis None None = Ok f
    ∧ f_found_groups f = [pd_uniques (data by1); pd_uniques (data by2)]
    ∧ ∀ p x1 x2, data by1 !! p = Some x1 → data by2 !! p = Some x2 →
        ∃ i1 i2 : nat,
          pd_uniques (data by1) !! i1 = Some x1
          ∧ pd_uniques (data by2) !! i2 = Some x2
          ∧ data (f_group_idx f) !! p
            = Some (Z.of_nat i1 * Z.of_nat (length (pd_uniques (data by2)))
                    + Z.of_nat i2).
Proof.
  intros Hax Hlen [Hn1 Hn2]%Forall_app.
  rewrite factorize_two_unfold by done.
  set (U1 := pd_uniques (data by1)). set (U2 := pd_uniques (data by2)).
  set (code := λ x1 x2 : scalar,
         pd_code U1 x1 * Z.of_nat (length U2) + pd_code U2 x2).
  assert (mapM (ravel1 [Z.of_nat (length U1); Z.of_nat (length U2)])
            (zip_with (λ a b, [a; b]) (pd_code U1 <$> data by1)
               (pd_code U2 <$> data by2))
          = Ok (zip_with code (data by1) (data by2))) as ->.
  { rewrite zip_with_fmap_l, zip_with_fmap_r.
    apply mapM_zip_with_Ok. intros x1 x2 H1 H2.
    destruct (pd_code_present (data by1) x1 H1) as (i1 & Hi1 & Hc1).
    { by eapply List.Forall_forall in Hn1; [|apply list_elem_of_In]. }
    destruct (pd_code_present (data by2) x2 H2) as (i2 & Hi2 & Hc2).
    { by eapply List.Forall_forall in Hn2; [|apply list_elem_of_In]. }
    apply lookup_lt_Some in Hi1, Hi2.
    rewrite ravel1_two. unfold code. fold U1 U2 in Hc1, Hc2, Hi1, Hi2.
    rewrite Hc1, Hc2.
    destruct (Z.ltb_spec (Z.of_nat i1) 0); [lia|].
    destruct (Z.leb_spec (Z.of_nat (length U1)) (Z.of_nat i1)); [lia|].
    destruct (Z.ltb_spec (Z.of_nat i2) 0); [lia|].
    destruct (Z.leb_spec (Z.of_nat (length U2)) (Z.of_nat i2)); [lia|].
    done. }
  cbn [mbind result_bind]. eexists. split; [done|]. split; [done|].
  intros p x1 x2 H1 H2. cbn [f_group_idx data].
  destruct (pd_code_present (data by1) x1) as (i1 & Hi1 & Hc1);
    [by eapply list_elem_of_lookup_2| |].
  { eapply List.Forall_forall in Hn1; [done|].
    by eapply list_elem_of_In, list_elem_of_lookup_2. }
  destruct (pd_code_present (data by2) x2) as (i2 & Hi2 & Hc2);
    [by eapply list_elem_of_lookup_2| |].
  { eapply List.Forall_forall in Hn2; [done|].
    by eapply list_elem_of_In, list_elem_of_lookup_2. }
  exists i1, i2. split_and!; [done..|].
  rewrite list_lookup_fmap, lookup_zip_with, H1. simpl. rewrite H2. simpl.
  unfold code. fold U1 U2 in Hc1, Hc2. rewrite Hc1, Hc2.
  destruct (Z.eqb_spec (Z.of_nat i1 * Z.of_nat (length U2) + Z.of_nat i2) (-1));
    [lia|done].
Qed.

Lemma factorize_two_decode_witness :
  ∃ f, factorize_ [arr1 [Str "a"; Str "b"; Str "a"]; arr1 [num 1; num 1; num 2]]
         AxNone None None = Ok f
    ∧ f_found_groups f
      = [pd_uniques (data (arr1 [Str "a"; Str "b"; Str "a"]));
         pd_uniques (data (arr1 [num 1; num 1; num 2]))]
    ∧ ∀ p x1 x2,
        data (arr1 [Str "a"; Str "b"; Str "a"]) !! p = Some x1 →
        data (arr1 [num 1; num 1; num 2]) !! p = Some x2 →
        ∃ i1 i2 : nat,
          pd_uniques (data (arr1 [Str "a"; Str "b"; Str "a"])) !! i1 = Some x1
          ∧ pd_uniques (data (arr1 [num 1; num 1; num 2])) !! i2 = Some x2
          ∧ data (f_group_idx f) !! p
            = Some (Z.of_nat i1
                    * Z.of_nat (length (pd_uniques
                                          (data (arr1 [num 1; num 1; num 2]))))
                    + Z.of_nat i2).
Proof.
  apply (factorize_two_decode (arr1 [Str "a"; Str "b"; Str "a"])
           (arr1 [num 1; num 1; num 2]) AxNone).
  - reflexivity.
  - reflexivity.
  - repeat constructor.
Defined.

Lemma mapM_first_Err {A B} (f : A → result B) (l : list A) e :
  (∀ x e', x ∈ l → f x = Err e' → e' = e) →
  (∃ x, x ∈ l ∧ f x = Err e) →
  mapM f l = Err e.
Proof.
  induction l as [|x l IH]; intros Hall (x0 & Hx0 & Hf).
  { by apply elem_of_nil in Hx0. }
  simpl. destruct (f x) as [y|e'] eqn:Hfx; simpl.
  - rewrite IH; [done| |].
    + intros x' e' Hx'. apply Hall. by right.
    + apply elem_of_cons in Hx0 as [->|Hx0]; [congruence|eauto].
  - f_equal. apply (Hall x); [left|done].
Qed.

Lemma factorize_two_Err by1 by2 axis e :
  length (data by1) = length (data by2) →
  mapM (ravel1 [Z.of_nat (length (pd_uniques (data by1)));
                Z.of_nat (length (pd_uniques (data by2)))])
       (zip_with (λ a b, [a; b])
          (pd_code (pd_uniques (data by1)) <$> data by1)
          (pd_code (pd_uniques (data by2)) <$> data by2)) = Err e →
  factorize_ [by1; by2] axis None None = Err e.
Proof.
  intros Hlen Herr. unfold factorize_.
  cbn -[pd_uniques pd_code Z.mul Z.add Z.of_nat np_prod np_isscalar Nat.ltb
        np_ravel_multi_index].
  unfold np_ravel_multi_index.
  cbn -[pd_uniques pd_code Z.mul Z.add Z.of_nat np_prod np_isscalar Nat.ltb
        transpose_lists ravel1].
  rewrite !length_fmap, Nat.eqb_refl, Hlen, Nat.eqb_refl.
  cbn -[pd_uniques pd_code Z.mul Z.add Z.of_nat np_prod np_isscalar Nat.ltb
        transpose_lists ravel1].
  rewrite <- (length_fmap (pd_code (pd_uniques (data by1))) (data by1)) in Hlen.
  rewrite <- (length_fmap (pd_code (pd_uniques (data by2))) (data by2)) in Hlen.
  rewrite <- (length_fmap (pd_code (pd_uniques (data by2))) (data by2)).
  rewrite <- Hlen, transpose_two by done.
  by rewrite Herr.
Qed.

(** X27.  Two variables and a missing label.  When two arrays of the same
    length are factorized together, a single cell without a label in either
    of them makes [factorize_] raise the [ValueError] of
    [np.ravel_multi_index]: the code [-1] of the missing label is not a valid
    index. *)
Theorem factorize_two_missing_label by1 by2 axis p x1 x2 :
  length (data by1) = length (data by2) →
  data by1 !! p = Some x1 → data by2 !! p = Some x2 →
  isnull x1 = true ∨ isnull x2 = true →
  factorize_ [by1; by2] axis None None = Err (ValueError msg_ravel).
Proof.
  intros Hlen H1 H2 Hnull. apply factorize_two_Err; [done|].
  apply mapM_first_Err.
  - intros idx e' (a & b & -> & _)%elem_of_zip_with. rewrite ravel1_two.
    destruct (_ || _); [by intros [= <-]|done].
  - exists [pd_code (pd_uniques (data by1)) x1; pd_code (pd_uniques (data by2)) x2].
    split.
    + apply elem_of_lookup_zip_with. exists p, (pd_code (pd_uniques (data by1)) x1),
        (pd_code (pd_uniques (data by2)) x2).
      by rewrite !list_lookup_fmap, H1, H2.
    + rewrite ravel1_two.
      destruct Hnull as [Hn|Hn].
      * assert (pd_code (pd_uniques (data by1)) x1 = -1) as ->
          by (unfold pd_code; by rewrite Hn).
        done.
      * assert (pd_code (pd_uniques (data by2)) x2 = -1) as ->
          by (unfold pd_code; by rewrite Hn).
        change (-1 <? 0) with true. cbn [orb]. by rewrite orb_true_r.
Qed.

Lemma factorize_two_missing_label_witness :
  factorize_ [arr1 [Str "a"; NaN]; arr1 [num 1; num 2]] AxNone None None
  = Err (ValueError msg_ravel).
Proof.
  apply (factorize_two_missing_label (arr1 [Str "a"; NaN]) (arr1 [num 1; num 2])
           AxNone 1%nat NaN (num 2)).
  - reflexivity.
  - reflexivity.
  - reflexivity.
  - by left.
Defined.
